(* ===== verification/_CoqProject ===== *)
-Q . S2P
Prelude.v
Regex.v
Options.v
Form.v
Query.v
Weight.v
Format.v
Rank.v
App.v
Dom.v
Search.v
