(* ===== verification/Prelude.v ===== *)
(** * deng: a verified model of the glossary search engine [src/res/deng.js]

    [deng.js] searches a German-English glossary in the browser.  A query
    is compiled into a regular expression ([makeRE]); [formatResult] keeps
    the corpus lines the expression matches ([contains]), weighs each one
    ([getWeight]), sorts them with an explicit comparator, cuts the list
    at [options.max] and renders every line as table rows ([formatLine],
    [formatEntry]).  Around this core, [init] wires the page: options are
    loaded from and saved to [localStorage] ([loadOptions], [getOptions],
    [setOptions], [saveConfig]), the corpus is fetched once
    ([getEntries]), typing starts a delayed live search and submitting
    starts an immediate one ([showResults]).

    ** Files and what they model

    - [Prelude]: text as [list ascii] (Latin-1 code units; the glossary
      needs no more), the JS character classes [\w] and [\s] and the
      case folding of the [i] flag, [String.prototype.split] and
      [Array.prototype.join] on separators, exceptions as the error
      monad [result] ([Ok] or [Throw TypeError | RangeError | SyntaxError]),
      and JS numbers ([number]: NaN, the infinities, rationals and [null],
      which is what a JSON round trip makes of a non-finite number).
    - [Regex] (Module [Regex]): the ECMAScript regular expressions the
      program writes, as a backtracking matcher in continuation-passing
      style ([m], [star_m]) over a zipper position, with [exec], [test]
      and [replace] with and without [g].  [RMatch] is a relational
      semantics; the matcher is sound and complete for it, and [exec]
      returns the leftmost match ([exec_spec]).  This is a builtin of the
      language, modelled from its specification.  The captures the
      program reads are the whole match ([match[1]] and [$1] of the
      compiled query, which is one group) and the group of the
      angle-bracket pattern of [formatEntry], written out in its
      replacement; [lastIndex] is
      never observable (global regexps are literals passed to [replace],
      and [exec] and [test] are only called on regexps without [g]).
    - [Options] (Module [Options]): the options object, its defaults, and
      the guards of [saveConfig].
    - [Form] (Module [Form]): the settings page.  [showConfig] (lines
      209-217) fills the record [form] of the six fields (three booleans,
      three strings) with ToString of the numbers, and [readForm] (lines
      220-227) reads it back with [Number]; both builtins are modelled from
      the ECMAScript specification: [Number] is StringToNumber (white
      space, [0x]/[0o]/[0b], [Infinity], decimal literals with fraction
      and exponent) followed by the rounding of the exact rational to
      binary64 (53 bits, subnormals, ties to even, overflow to an
      infinity), and [number_toString] is Number::toString (the shortest
      digits that round back, laid out as in steps 6 to 10).
    - [Query] (Module [Query]): [escapeRE] and [makeRE] (lines 30-60), with
      the regular expression constructor on the escaped query as a parser
      [parse_body] of the fragment [escapeRE] can produce.
    - [Weight] (Module [Weight]): [getWeight] (lines 100-126).
    - [Format] (Module [Format]): [contains], [formatEntry] and
      [formatLine] (lines 62-98).
    - [Rank] (Module [Rank]): [formatResult] (lines 128-154), split into
      [rankEntries] (filter, weigh, sort, truncate) and the rendering.
      [Array.prototype.sort] is an interface: the class [ArraySort] says
      what ECMAScript requires of it (a sorted permutation for a
      consistent comparator); the ranking and its theorems are generic in
      the engine's instance, and stdpp's merge sort is the one the
      examples run.
    - [App] (Module [App]): [clone], [loadOptions], [getOptions],
      [setOptions], [getEntries], [showResults], [toggleSubmitConfig] and
      the handlers of [init] as a [step] function on an explicit [state]
      (the module variable [currentOptions], [localStorage] (the stored
      item and whether [setItem] succeeds), the
      corpus, the input field, which of the submit and config buttons is
      shown, the pending timeout with the options it captured, the result
      area, the visible page, the fields of the settings form, the
      request [getFile] sends for the corpus (pending, failed, or ready
      with the entries) and the scroll position [showResults] resets),
      with [reachable] states by rule induction.  The config button runs
      [showConfig], an [Edit] event is the user changing the form, and the
      back button runs [saveConfig] on what the form holds.
    - [Dom] (Module [Dom]): [toggle], [getParent] and the click handler of
      [initToggle] (lines 156-181) on the class lists of the rendered
      rows.
    - [Search] (Module [Search]): no code of its own; it composes the
      submit and input handlers of [App] with [makeRE], [rankEntries] and
      [formatResult] and states what a search shows in terms of the glob
      meaning [occurs] of the query.

    Each component calls the ones before it in the list, as the code does:
    [formatResult] calls [contains], [getWeight] and [formatLine], which
    call the regular expression builtins; [showResults] calls [makeRE] and
    [formatResult].  JS exceptions propagate as [Throw] through every
    caller, so the theorems about errors are about the whole search.

    ** What is proved

    - The query compiler: [makeRE] never throws and compiles the query to
      [start · body_of(text) · end], every character literal and [*] as
      [\S*] (escaping and parsing round-trip), rejecting exactly the
      queries shorter than [min].  Refinement: with [start] off, every
      match of the compiled query is a text the query means under an
      abstract glob specification [glob], with its word-boundary anchors
      holding ([anchors_hold]), and conversely every such text is found,
      at its position or earlier; so [test] decides [occurs]
      ([compiled_test]).
    - The whole search ([Search]): a submitted search with [start] off
      lists exactly the corpus entries in which the query occurs, all of
      them when no "More results" is announced, and shows the rendered
      table scrolled to the top; the live search (with [end] switched
      off) lists everything the submitted search lists.
    - The normalised query has no markup bracket, no bar and no white
      space but the plain space ([normalize_clean], from what a global
      replace removes and preserves, [replace_removes] and
      [replace_Forall]).
    - The scorer: weights lie in [0..8] (8 is reached), 0 exactly when nothing matches
      after cleaning; [getWeight] refines the abstract relevance model
      [weight_spec] (start bonus, end bonus, headword bonus as
      propositions); it throws exactly on a matching line without
      [" :: "].
    - The ranker: the order is by weight, ties in corpus order; every
      sorted permutation is what any conforming engine returns, so the
      engine's sort algorithm does not matter; truncation keeps the first [max];
      "No result" appears exactly when nothing matches; one malformed line
      makes the whole search throw.
    - The formatter: which sub-lines are shown, the lossless parse of a
      well-formed entry, and exactly when [formatLine] throws.
    - The application: a well-formedness invariant of the state that
      [init] establishes and every handler preserves; a submit cancels the
      pending live search; a typed query is searched at the next timeout
      with the options read when typing; the settings survive a reload
      when the storage accepts writes, and a reload goes back to the
      session's starting settings when it does not;
      opening the settings page and going back without editing keeps the
      settings; sessions whose typed numbers stay below [2^53] keep options
      that pass the guards and are safe integers everywhere (memory,
      storage, pending search, form); [getEntries] returns the non-empty
      non-comment lines; a failed corpus request leaves the page without
      search for good, since nothing handles the error.
    - The settings form: the form [showConfig] fills reads back as the
      same options when the numbers are safe integers (ToString then
      [Number] round-trips); a field that is not a number keeps the old
      setting, an empty one reads as 0.  [saveConfig] keeps a typed [max]
      or [min] exactly when it is a positive integer or [Infinity], and a
      typed [timeout] exactly when it is a non-negative integer or
      [Infinity] ([saveConfig_spec], against predicates written
      independently of the guards).  Behind these, [layout_value]
      shows that every layout of Number::toString parses back to the
      value its digits denote.
    - The result table: a click on a main row flips exactly its line
      between open and closed and leaves the other lines as they are.
    - Findings, as general theorems: the maximum weight is 8, not 7
      ([getWeight_bounds]); a weight is 0 whenever the match lies only
      inside annotations, although the entry passes the filter
      ([getWeight_bounds]); [Infinity] passes the guards of [max] and
      [min] and 0 that of [timeout] ([saveConfig_spec]); once the [max]
      field reads as [Infinity] (e.g. [1e309]), every later submitted
      search shows "No result" ([infinity_max_no_result]); a trailing
      [-] is never trimmed from a query ([trailing_dash_kept]); a failed
      request for the corpus is never noticed ([load_error_stuck]).

    ** Bounds and fuel

    Every regular expression of the program is matched by structural
    recursion on the pattern and the input ([star_m] consumes a character
    per iteration).  The global [replace] advances one character per
    round at least, so [gsub_at] runs [gsub_go] with fuel
    [S (length input)], and [gsub_go_fuel] shows that any larger fuel
    gives the same result.  Counts and indices are [nat]; JS numbers
    ([max], [min], [timeout]) are exact rationals, which the program never
    computes with beyond comparisons; the only arithmetic on them is the
    rounding of [Number], written with the widths of binary64 (53-bit
    significand, exponents from -1074, overflow at [2^1024]).
    Number::toString searches the digit count from 1 up to 17 (enough for
    every double); an integer below [2^53] prints as its decimal digits
    directly, which is what the search gives for it.

    ** Not modelled

    The HTML page is not in the repository: the number fields are
    modelled as holding any string, before the settings page is first
    shown they are empty and the boxes unchecked; an [<input
    type=number>] would only restrict the strings the user can type.
    The sign of a zero is not kept (the program only compares and floors
    its numbers).  The HTTP exchange of [getFile] is the environment: its
    outcome arrives as the [Loaded] event (any response, whose status the
    code does not read) or the [LoadError] event.  The timeout delay is
    not modelled (the callback runs at a later [Fire] event).  Characters
    outside Latin-1 and regular expression syntax the program never
    writes are outside the model. *)

From stdpp Require Export base list strings sets sorting.
From Stdlib Require Export Ascii QArith Qround Lia.

(** [QArith] opens [Q_scope]; arithmetic of this development is on [nat]. *)
Open Scope nat_scope.

Declare Scope deng_scope.
Delimit Scope deng_scope with deng.

(** ** Text

    A JavaScript string is a sequence of UTF-16 code units.  The glossary
    (German/English) lives in the Latin-1 range, so a code unit is modelled
    as an 8-bit [ascii] read as a Latin-1 code point, and a string as
    [list ascii]. *)

Abbreviation text := (list ascii).

Notation "⟪ s ⟫" := (String.list_ascii_of_string s%string)
  (at level 0, s at level 0, format "⟪ s ⟫") : deng_scope.

Open Scope deng_scope.

Definition code (c : ascii) : nat := nat_of_ascii c.

Definition in_range (lo hi : nat) (c : ascii) : bool :=
  (lo <=? code c) && (code c <=? hi).

(** [c] is the character [d] (as a class predicate). *)
Definition is_char (d : ascii) (c : ascii) : bool := bool_decide (c = d).

(** The double quote, which a string literal of this file cannot spell. *)
Definition dquote : ascii := ascii_of_nat 34.

(** JS [\w]: [[A-Za-z0-9_]] (without the [u] flag the [i] flag adds nothing). *)
Definition is_word (c : ascii) : bool :=
  in_range 48 57 c || in_range 65 90 c || in_range 97 122 c || (code c =? 95).

(** JS [\s] on Latin-1: TAB, LF, VT, FF, CR, SPACE and NO-BREAK SPACE. *)
Definition is_space (c : ascii) : bool :=
  in_range 9 13 c || (code c =? 32) || (code c =? 160).

(** ECMAScript Canonicalize for the [i] flag without [u]: the upper-case
    form of the code unit.  On Latin-1, [a-z] and [U+00E0..U+00FE] except
    the division sign map 32 down; [U+00FF] and [U+00B5] map outside
    Latin-1 to code units no other Latin-1 unit maps to, and [U+00DF]
    upper-cases to two units and stays itself, so leaving them unchanged
    gives the same equivalence classes. *)
Definition canon (c : ascii) : ascii :=
  if in_range 97 122 c || (in_range 224 254 c && negb (code c =? 247))
  then ascii_of_nat (code c - 32) else c.

(** Character comparison of a regular expression with flag [ic]. *)
Definition char_eq (ic : bool) (c d : ascii) : bool :=
  if ic then bool_decide (canon c = canon d) else bool_decide (c = d).

(** ** [String.prototype.split] and [Array.prototype.join]

    [s.split(sep)] for a non-empty separator string.  ECMAScript scans for
    the leftmost occurrence of [sep] after the end of the previous one; all
    occurrences have the length of [sep], so the leftmost one is also the
    first to end, which is what [split_go] finds by testing, character by
    character, whether the current piece (kept reversed) ends with [sep]. *)
Fixpoint split_go (sep cur s : text) : list text :=
  match s with
  | [] => [rev cur]
  | c :: s' =>
      if bool_decide (rev sep `prefix_of` c :: cur)
      then rev (drop (length sep) (c :: cur)) :: split_go sep [] s'
      else split_go sep (c :: cur) s'
  end.

Definition split (sep s : text) : list text := split_go sep [] s.

(** [parts.join(sep)] *)
Fixpoint join (sep : text) (parts : list text) : text :=
  match parts with
  | [] => []
  | [p] => p
  | p :: ps => p ++ sep ++ join sep ps
  end.

(** The separators of the entry grammar: between the two language sides,
    and between the sub-entries of a side. *)
Definition sides_sep : text := ⟪" :: "⟫.
Definition subs_sep : text := ⟪" | "⟫.

Lemma split_go_not_nil sep cur s : split_go sep cur s ≠ [].
Proof.
  revert cur; induction s as [|c s IH]; intros cur; simpl; [done|].
  case_bool_decide; [done|apply IH].
Qed.

Lemma join_cons sep p ps : ps ≠ [] → join sep (p :: ps) = p ++ sep ++ join sep ps.
Proof. by destruct ps. Qed.

Lemma join_split_go sep cur s : join sep (split_go sep cur s) = rev cur ++ s.
Proof.
  revert cur; induction s as [|c s IH]; intros cur; simpl; [by rewrite app_nil_r|].
  case_bool_decide as Hp.
  - destruct Hp as [rest Hrest].
    rewrite join_cons by apply split_go_not_nil. rewrite IH, Hrest.
    rewrite drop_app_length' by (by rewrite length_rev). simpl.
    replace (rev cur ++ c :: s) with (rev (c :: cur) ++ s) by (simpl; by rewrite <-app_assoc).
    rewrite Hrest, rev_app_distr, rev_involutive. by rewrite <-app_assoc.
  - rewrite IH. simpl. by rewrite <-app_assoc.
Qed.

(** Splitting loses nothing: joining the pieces gives the text back. *)
Lemma join_split sep s : join sep (split sep s) = s.
Proof. apply join_split_go. Qed.

Lemma split_not_nil sep s : split sep s ≠ [].
Proof. apply split_go_not_nil. Qed.

Lemma elem_of_rev {A} (x : A) (l : list A) : x ∈ rev l ↔ x ∈ l.
Proof. rewrite !list_elem_of_In. symmetry. apply in_rev. Qed.

Lemma split_go_char_free c cur s :
  c ∉ cur → Forall (λ p, c ∉ p) (split_go [c] cur s).
Proof.
  revert cur; induction s as [|c' s IH]; intros cur Hcur; simpl.
  - constructor; [by rewrite elem_of_rev|constructor].
  - case_bool_decide as Hp.
    + destruct Hp as [k Hk]. simpl in Hk. injection Hk as -> ->.
      constructor; [simpl; by rewrite elem_of_rev|]. apply IH. apply not_elem_of_nil.
    + apply IH. rewrite elem_of_cons. intros [->|?]; [|done].
      apply Hp. by exists cur.
Qed.

(** Splitting at one character gives pieces without that character. *)
Lemma split_char_free c s p : p ∈ split [c] s → c ∉ p.
Proof.
  intros Hp. eapply (Forall_forall (λ p, c ∉ p)); [|exact Hp].
  apply split_go_char_free, not_elem_of_nil.
Qed.

(** ** Results: JavaScript exceptions as values *)

Inductive js_error : Type :=
  | TypeError        (** a property read on [undefined] *)
  | RangeError       (** an invalid array length *)
  | SyntaxError.     (** an invalid regular expression source *)

#[export] Instance js_error_eq_dec : EqDecision js_error.
Proof. solve_decision. Defined.

Inductive result (A : Type) : Type :=
  | Ok (a : A)
  | Throw (e : js_error).
Arguments Ok {A} a.
Arguments Throw {A} e.

#[export] Instance result_ret : MRet result := λ A a, Ok a.
#[export] Instance result_bind : MBind result :=
  λ A B f c, match c with Ok a => f a | Throw e => Throw e end.

Lemma result_bind_Ok {A B} (c : result A) (f : A → result B) (b : B) :
  (c ≫= f) = Ok b ↔ ∃ a, c = Ok a ∧ f a = Ok b.
Proof.
  destruct c as [a'|e]; simpl; split.
  - eauto.
  - by intros (? & [= ->] & ?).
  - done.
  - by intros (? & ? & _).
Qed.

Lemma result_bind_Ok_l {A B} (a : A) (f : A → result B) : (Ok a ≫= f) = f a.
Proof. reflexivity. Qed.

Lemma result_bind_ret {A B} (a : A) (f : A → result B) : (mret a ≫= f) = f a.
Proof. reflexivity. Qed.

(** [Array.prototype.map] with a callback that may throw: the elements are
    visited left to right and the first exception propagates. *)
Lemma mapM_result_Ok {A B} (f : A → result B) (l : list A) (l' : list B) :
  mapM f l = Ok l' ↔ Forall2 (λ a b, f a = Ok b) l l'.
Proof.
  revert l'; induction l as [|a l IH]; intros l'; simpl.
  - split; [intros [= <-]; constructor | inversion 1; reflexivity].
  - split.
    + destruct (f a) eqn:Hf; simpl; [|done].
      destruct (mapM f l) eqn:Hm; simpl; [|done].
      intros [= <-]. constructor; [done|]. by apply IH.
    + inversion 1 as [|?? b bs Hb Hbs]; subst. rewrite Hb. simpl.
      apply IH in Hbs. by rewrite Hbs.
Qed.

Lemma mapM_result_map {A B} (f : A → B) (l : list A) :
  mapM (λ a, Ok (f a)) l = Ok (map f l).
Proof. induction l as [|a l IH]; simpl; [done|]. by rewrite IH. Qed.

Lemma mapM_result_Throw_inv {A B} (f : A → result B) (l : list A) (e : js_error) :
  mapM f l = Throw e → ∃ x, x ∈ l ∧ f x = Throw e.
Proof.
  induction l as [|a l IH]; simpl; [done|].
  destruct (f a) eqn:Ha; simpl; [|intros [= ->]; exists a; by split; [left|]].
  destruct (mapM f l); simpl; [done|]. intros [= ->].
  destruct IH as (x & ? & ?); [done|]. exists x. split; [by right|done].
Qed.

(** When every exception the callback raises is [e], [Array.prototype.map]
    raises [e] exactly when the callback raises on some element. *)
Lemma mapM_result_Throw {A B} (f : A → result B) (l : list A) (e : js_error) :
  (∀ x e', f x = Throw e' → e' = e) →
  mapM f l = Throw e ↔ ∃ x, x ∈ l ∧ f x = Throw e.
Proof.
  intros Hf. induction l as [|a l IH]; simpl.
  - split; [done|]. intros (x & Hx & _). by apply elem_of_nil in Hx.
  - setoid_rewrite elem_of_cons.
    destruct (f a) as [b|e'] eqn:Ha; simpl.
    + destruct (mapM f l) as [bs|e''] eqn:Hm; simpl.
      * split; [done|]. intros (x & [->|Hx] & Hx'); [congruence|].
        assert (Ok bs = Throw e) by (apply IH; eauto). congruence.
      * rewrite IH. split; [intros (x & ? & ?); eauto|].
        intros (x & [->|?] & ?); [congruence|eauto].
    + apply Hf in Ha as He. subst e'. split; [eauto|done].
Qed.

(** ** JavaScript numbers

    The numeric options ([max], [min], [timeout]) are JS numbers: finite
    values are rationals (every double is one), plus NaN and the two
    infinities.  After a JSON round trip ([getOptions] clones through
    [JSON.parse(JSON.stringify(...))]) a non-finite number is [null], so
    the fields also hold [Null].  Comparisons follow the Abstract
    Relational Comparison after ToNumber ([null] is 0); anything with NaN
    is false. *)

Inductive number : Type :=
  | NaN
  | PosInf
  | NegInf
  | Fin (q : Q)
  | Null.

Definition num_of_nat (n : nat) : number := Fin (inject_Z (Z.of_nat n)).

(** ToNumber *)
Definition to_number (x : number) : number := match x with Null => Fin 0 | _ => x end.

(** [x < y] *)
Definition num_lt (x y : number) : bool :=
  match to_number x, to_number y with
  | Fin a, Fin b => negb (Qle_bool b a)
  | NegInf, (Fin _ | PosInf) => true
  | Fin _, PosInf => true
  | _, _ => false
  end.

(** [x <= y] *)
Definition num_le (x y : number) : bool :=
  match to_number x, to_number y with
  | Fin a, Fin b => Qle_bool a b
  | NegInf, (Fin _ | PosInf | NegInf) => true
  | (Fin _ | PosInf), PosInf => true
  | _, _ => false
  end.

(** [isNaN(x)] *)
Definition num_is_nan (x : number) : bool :=
  match to_number x with NaN => true | _ => false end.

(** [Math.floor(x) === x]: false for NaN (NaN is not equal to itself) and
    for [null] ([Math.floor(null)] is the number 0), true for the
    infinities. *)
Definition num_is_integral (x : number) : bool :=
  match x with
  | NaN | Null => false
  | PosInf | NegInf => true
  | Fin q => Qeq_bool (inject_Z (Qfloor q)) q
  end.

(** ToBoolean, as in [if (options.timeout)] *)
Definition num_truthy (x : number) : bool :=
  match x with
  | NaN | Null => false
  | PosInf | NegInf => true
  | Fin q => negb (Qeq_bool q 0)
  end.

(** What [JSON.parse(JSON.stringify(x))] gives back for a number. *)
Definition json_number (x : number) : number :=
  match x with Fin q => Fin q | _ => Null end.

Lemma num_lt_of_nat (a b : nat) : num_lt (num_of_nat a) (num_of_nat b) = (a <? b)%nat.
Proof.
  unfold num_lt, num_of_nat. simpl.
  destruct (Qle_bool (inject_Z (Z.of_nat b)) (inject_Z (Z.of_nat a))) eqn:E;
    [apply Qle_bool_iff in E|];
  destruct (Nat.ltb_spec a b); try done.
  - rewrite <-Zle_Qle in E. lia.
  - exfalso. apply not_true_iff_false in E. apply E, Qle_bool_iff.
    rewrite <-Zle_Qle. lia.
Qed.

(** ** Shared automation *)

Create HintDb deng discriminated.
Create Rewrite HintDb deng_rw.
#[export] Hint Resolve mapM_result_map : deng.
#[export] Hint Rewrite num_lt_of_nat @result_bind_ret : deng_rw.

(** Destruct a successful [≫=] chain in a hypothesis. *)
Ltac inv_bind :=
  repeat match goal with
  | H : (_ ≫= _) = Ok _ |- _ =>
      apply result_bind_Ok in H; destruct H as (? & ? & H)
  end.
