(* ===== verification/Regex.v ===== *)
(** * Regex: the fragment of ECMAScript regular expressions that deng.js uses

    Every [RegExp] literal and every [new RegExp] of [src/res/deng.js] is
    built from literal characters, character classes, the greedy [*] on a
    class, [\b], [^], [$], concatenation and alternation.  The matcher
    below follows ECMAScript's own formulation (22.2.2, "Matcher" and
    "MatcherContinuation"): a pattern is run against a position with a
    continuation, alternatives and greedy iterations are tried in order and
    backtracked into when the continuation fails.  A position is a zipper:
    the consumed prefix reversed (for the look-behind of [\b] and [^]) and
    the remaining input.

    On top of the matcher: [exec] and [test] of a regular expression
    without the [g] flag (the only way deng.js calls them, so [lastIndex]
    stays 0), and [String.prototype.replace] with and without [g].  The
    theorems show the backtracking matcher sound and complete for a
    relational semantics [RMatch], [exec] leftmost, and the global replace
    independent of its fuel. *)

From S2P Require Import Prelude.

Module Regex.

Inductive regex : Type :=
  | REps                              (** the empty pattern *)
  | RChar (c : ascii)                 (** a character, or an identity escape [\c] *)
  | RClass (p : ascii → bool)         (** a class: [[...]], [[^...]], [\S], [\s] *)
  | RStar (p : ascii → bool)          (** a class under the greedy [*] *)
  | RBound                            (** [\b] *)
  | RBegin                            (** [^] (no [m] flag) *)
  | REnd                              (** [$] (no [m] flag) *)
  | RSeq (r1 r2 : regex)              (** concatenation *)
  | RAlt (r1 r2 : regex).             (** [r1|r2] *)

(** [(?:r)?], greedy *)
Definition ROpt (r : regex) : regex := RAlt r REps.

(** [[...]+] *)
Definition RPlus (p : ascii → bool) : regex := RSeq (RClass p) (RStar p).

(** A run of literal characters. *)
Fixpoint RStr (w : text) : regex :=
  match w with
  | [] => REps
  | c :: w => RSeq (RChar c) (RStr w)
  end.

(** [\b] holds between a word and a non-word character, the ends of the
    input counting as non-word (IsWordChar of -1 and of the length). *)
Definition word_left (bef : text) : bool :=
  match bef with c :: _ => is_word c | [] => false end.
Definition word_right (aft : text) : bool :=
  match aft with c :: _ => is_word c | [] => false end.
Definition at_boundary (bef aft : text) : bool :=
  xorb (word_left bef) (word_right aft).

(** ** The backtracking matcher

    A class is matched by the predicate whatever the [i] flag: the classes
    deng.js uses under [i] ([\S]) are closed under [canon], where the
    ECMAScript rule "some member canonicalises like the character" is the
    predicate itself. *)

Section Matcher.
Context {R : Type}.
Variable ic : bool.

(** [p*], greedy: one more iteration first, then the continuation. *)
Fixpoint star_m (p : ascii → bool) (bef aft : text)
    (k : text → text → option R) : option R :=
  match aft with
  | c :: aft' =>
      if p c then
        match star_m p (c :: bef) aft' k with
        | Some x => Some x
        | None => k bef aft
        end
      else k bef aft
  | [] => k bef []
  end.

Fixpoint m (r : regex) (bef aft : text) (k : text → text → option R) : option R :=
  match r with
  | REps => k bef aft
  | RChar c =>
      match aft with
      | d :: aft' => if char_eq ic c d then k (d :: bef) aft' else None
      | [] => None
      end
  | RClass p =>
      match aft with
      | d :: aft' => if p d then k (d :: bef) aft' else None
      | [] => None
      end
  | RStar p => star_m p bef aft k
  | RBound => if at_boundary bef aft then k bef aft else None
  | RBegin => match bef with [] => k bef aft | _ :: _ => None end
  | REnd => match aft with [] => k bef aft | _ :: _ => None end
  | RSeq r1 r2 => m r1 bef aft (λ b a, m r2 b a k)
  | RAlt r1 r2 =>
      match m r1 bef aft k with
      | Some x => Some x
      | None => m r2 bef aft k
      end
  end.
End Matcher.

(** ** RegExp objects *)

Record jsregexp : Type := JSRegExp {
  re_source : regex;
  re_global : bool;       (** flag [g] *)
  re_ignoreCase : bool    (** flag [i] *)
}.

(** The match of the whole pattern at one position: the zipper where it ends. *)
Definition match_at (re : jsregexp) (bef aft : text) : option (text * text) :=
  m (re_ignoreCase re) (re_source re) bef aft (λ b a, Some (b, a)).

(** RegExpBuiltinExec from [lastIndex = 0]: the first position where the
    pattern matches, as [(index, index + match[0].length)]. *)
Fixpoint exec_from (re : jsregexp) (bef aft : text) : option (nat * nat) :=
  match match_at re bef aft with
  | Some (b, _) => Some (length bef, length b)
  | None =>
      match aft with
      | c :: aft' => exec_from re (c :: bef) aft'
      | [] => None
      end
  end.

Definition exec (re : jsregexp) (s : text) : option (nat * nat) := exec_from re [] s.

(** [re.test(s)] *)
Definition test (re : jsregexp) (s : text) : bool :=
  match exec re s with Some _ => true | None => false end.

(** The replacement is given as a function of the matched text: each call
    site writes out what its replacement string ([''], [' '], ['\\$1'],
    ['<mark>$1</mark>'], ...) denotes.

    With [g]: every match from left to right; after an empty match the next
    character is copied and the search resumes one further (the
    AdvanceStringIndex step).  Each round consumes a character or stops, so
    [S (length aft)] rounds suffice ([gsub_go_fuel] below). *)
Fixpoint gsub_go (fuel : nat) (re : jsregexp) (f : text → text) (bef aft : text) : text :=
  match fuel with
  | O => aft
  | S fuel =>
      match match_at re bef aft with
      | Some (b, a) =>
          if bool_decide (length a < length aft)
          then f (take (length aft - length a) aft) ++ gsub_go fuel re f b a
          else f [] ++ match aft with
                       | c :: aft' => c :: gsub_go fuel re f (c :: bef) aft'
                       | [] => []
                       end
      | None =>
          match aft with
          | c :: aft' => c :: gsub_go fuel re f (c :: bef) aft'
          | [] => []
          end
      end
  end.

Definition gsub_at (re : jsregexp) (f : text → text) (bef aft : text) : text :=
  gsub_go (S (length aft)) re f bef aft.

(** Without [g]: the first match only. *)
Definition replace_first (re : jsregexp) (f : text → text) (s : text) : text :=
  match exec re s with
  | Some (i, j) => take i s ++ f (take (j - i) (drop i s)) ++ drop j s
  | None => s
  end.

(** [s.replace(re, replacement)] *)
Definition replace (re : jsregexp) (f : text → text) (s : text) : text :=
  if re_global re then gsub_at re f [] s else replace_first re f s.

(** ** Relational semantics

    [RMatch ic r bef aft b a]: the pattern [r] can match from the position
    [(bef, aft)] to the position [(b, a)].  It forgets the order in which
    the matcher tries alternatives, so it says which matches exist, not
    which one is found. *)

Inductive RMatch (ic : bool) : regex → text → text → text → text → Prop :=
  | RM_eps bef aft : RMatch ic REps bef aft bef aft
  | RM_char c d bef aft :
      char_eq ic c d = true → RMatch ic (RChar c) bef (d :: aft) (d :: bef) aft
  | RM_class p d bef aft :
      p d = true → RMatch ic (RClass p) bef (d :: aft) (d :: bef) aft
  | RM_star_nil p bef aft : RMatch ic (RStar p) bef aft bef aft
  | RM_star_cons p d bef aft b a :
      p d = true → RMatch ic (RStar p) (d :: bef) aft b a →
      RMatch ic (RStar p) bef (d :: aft) b a
  | RM_bound bef aft : at_boundary bef aft = true → RMatch ic RBound bef aft bef aft
  | RM_begin aft : RMatch ic RBegin [] aft [] aft
  | RM_end bef : RMatch ic REnd bef [] bef []
  | RM_seq r1 r2 bef aft b1 a1 b2 a2 :
      RMatch ic r1 bef aft b1 a1 → RMatch ic r2 b1 a1 b2 a2 →
      RMatch ic (RSeq r1 r2) bef aft b2 a2
  | RM_alt_l r1 r2 bef aft b a :
      RMatch ic r1 bef aft b a → RMatch ic (RAlt r1 r2) bef aft b a
  | RM_alt_r r1 r2 bef aft b a :
      RMatch ic r2 bef aft b a → RMatch ic (RAlt r1 r2) bef aft b a.

#[export] Hint Constructors RMatch : deng.

(** A match consumes a piece [w] of the input and moves it to the left. *)
Lemma RMatch_zipper ic r bef aft b a :
  RMatch ic r bef aft b a → ∃ w, aft = w ++ a ∧ b = rev w ++ bef.
Proof.
  induction 1 as [| c d | p d | | p d ?????? IH | | | | ???????? _ IH1 _ IH2 | | ].
  all: try by exists [].
  all: try by exists [d].
  - destruct IH as (w & -> & ->). exists (d :: w). simpl. by rewrite <-app_assoc.
  - destruct IH1 as (w1 & -> & ->), IH2 as (w2 & -> & ->). exists (w1 ++ w2).
    by rewrite rev_app_distr, <-!app_assoc.
  - done.
  - done.
Qed.

(** Inversion of [RMatch], one constructor at a time. *)
Section RMatchInv.
Variable ic : bool.

Lemma RMatch_eps bef aft b a : RMatch ic REps bef aft b a ↔ b = bef ∧ a = aft.
Proof. split; [by inversion 1|intros [-> ->]; constructor]. Qed.

Lemma RMatch_begin bef aft b a : RMatch ic RBegin bef aft b a ↔ bef = [] ∧ b = [] ∧ a = aft.
Proof. split; [by inversion 1|intros (-> & -> & ->); constructor]. Qed.

Lemma RMatch_end bef aft b a : RMatch ic REnd bef aft b a ↔ aft = [] ∧ b = bef ∧ a = [].
Proof. split; [by inversion 1|intros (-> & -> & ->); constructor]. Qed.

Lemma RMatch_seq r1 r2 bef aft b a :
  RMatch ic (RSeq r1 r2) bef aft b a ↔
  ∃ b1 a1, RMatch ic r1 bef aft b1 a1 ∧ RMatch ic r2 b1 a1 b a.
Proof. split; [inversion 1; eauto|intros (? & ? & ? & ?); eauto with deng]. Qed.

Lemma RMatch_alt r1 r2 bef aft b a :
  RMatch ic (RAlt r1 r2) bef aft b a ↔ RMatch ic r1 bef aft b a ∨ RMatch ic r2 bef aft b a.
Proof. split; [inversion 1; eauto|intros [?|?]; eauto with deng]. Qed.

Lemma RMatch_char c bef aft b a :
  RMatch ic (RChar c) bef aft b a ↔ ∃ d, aft = d :: a ∧ b = d :: bef ∧ char_eq ic c d = true.
Proof. split; [inversion 1; eauto|intros (? & -> & -> & ?); eauto with deng]. Qed.

Lemma RMatch_bound bef aft b a :
  RMatch ic RBound bef aft b a ↔ at_boundary bef aft = true ∧ b = bef ∧ a = aft.
Proof. split; [by inversion 1|intros (? & -> & ->); eauto with deng]. Qed.

Lemma RMatch_star_inv r bef aft b a :
  RMatch ic r bef aft b a → ∀ p, r = RStar p →
  ∃ u, aft = u ++ a ∧ b = rev u ++ bef ∧ Forall (λ x, p x = true) u.
Proof.
  induction 1 as [| | | q bef aft | q d bef aft b a Hd _ IH | | | | | |];
    intros p0 Hr; try done.
  - exists []. by simplify_eq.
  - injection Hr as <-. destruct (IH q eq_refl) as (u & -> & -> & Hu).
    exists (d :: u). simpl. rewrite <-app_assoc. auto.
Qed.

(** The greedy star on a class matches any run of characters of the class. *)
Lemma RMatch_star p bef aft b a :
  RMatch ic (RStar p) bef aft b a ↔
  ∃ u, aft = u ++ a ∧ b = rev u ++ bef ∧ Forall (λ x, p x = true) u.
Proof.
  split; [intros H; by eapply RMatch_star_inv|].
  intros (u & -> & -> & Hu). revert bef. induction Hu as [|x u Hx _ IH]; intros bef.
  - constructor.
  - simpl. rewrite <-app_assoc. simpl. econstructor; [done|]. apply IH.
Qed.
End RMatchInv.

(** Without the [i] flag a run of characters matches itself only. *)
Lemma RMatch_str w bef aft b a :
  RMatch false (RStr w) bef aft b a ↔ aft = w ++ a ∧ b = rev w ++ bef.
Proof.
  revert bef aft; induction w as [|c w IH]; intros bef aft; simpl.
  - rewrite RMatch_eps. naive_solver.
  - rewrite RMatch_seq. setoid_rewrite RMatch_char. setoid_rewrite IH.
    unfold char_eq. setoid_rewrite bool_decide_eq_true. split.
    + intros (b1 & a1 & (d & -> & -> & <-) & -> & ->). by rewrite <-app_assoc.
    + intros [-> ->]. exists (c :: bef), (w ++ a). rewrite <-app_assoc. naive_solver.
Qed.

(** ** Patterns that consume characters of a class

    Every match of [r] consumes a non-empty text whose characters satisfy
    [p]: a character outside [p] is never part of a match. *)
Definition consumes_in (ic : bool) (r : regex) (p : ascii → bool) : Prop :=
  ∀ bef aft b a, RMatch ic r bef aft b a → ∃ w, aft = w ++ a ∧ w ≠ [] ∧ Forall (λ x, p x = true) w.

Lemma consumes_class ic p : consumes_in ic (RClass p) p.
Proof. intros bef aft b a H. inversion H; subst. exists [d]. by repeat constructor. Qed.

Lemma consumes_plus ic p : consumes_in ic (RPlus p) p.
Proof.
  intros bef aft b a (b1 & a1 & H1 & H2)%RMatch_seq. inversion H1; subst.
  apply RMatch_star in H2 as (u & -> & _ & Hu). exists (d :: u). by repeat constructor.
Qed.

Lemma consumes_begin ic r p : consumes_in ic r p → consumes_in ic (RSeq RBegin r) p.
Proof.
  intros Hr bef aft b a (b1 & a1 & (_ & -> & ->)%RMatch_begin & H)%RMatch_seq. by eapply Hr.
Qed.

Lemma consumes_end ic r p : consumes_in ic r p → consumes_in ic (RSeq r REnd) p.
Proof.
  intros Hr bef aft b a (b1 & a1 & H & (-> & -> & ->)%RMatch_end)%RMatch_seq. by eapply Hr.
Qed.

Lemma consumes_alt ic r1 r2 p :
  consumes_in ic r1 p → consumes_in ic r2 p → consumes_in ic (RAlt r1 r2) p.
Proof. intros H1 H2 bef aft b a [H|H]%RMatch_alt; [by eapply H1|by eapply H2]. Qed.

Lemma consumes_str w p : w ≠ [] → Forall (λ x, p x = true) w → consumes_in false (RStr w) p.
Proof. intros Hw Hp bef aft b a [-> _]%RMatch_str. eauto. Qed.

Lemma consumes_char c p : p c = true → consumes_in false (RChar c) p.
Proof.
  intros Hc bef aft b a (d & -> & _ & Hd)%RMatch_char. unfold char_eq in Hd.
  apply bool_decide_eq_true in Hd as <-. exists [c]. by repeat constructor.
Qed.

(** A text that ends with [c] splits after a piece without [c] before a
    rest that still ends with [c]. *)
Lemma app_snoc_split {A} (v w a : list A) c : v ++ [c] = w ++ a → c ∉ w → ∃ a', a = a' ++ [c].
Proof.
  intros Hv Hc. destruct a as [|x a] using rev_ind.
  - rewrite app_nil_r in Hv. destruct Hc. rewrite <-Hv. apply elem_of_app. right. by left.
  - rewrite app_assoc in Hv. apply app_inj_tail in Hv as [_ ->]. eauto.
Qed.

Section MatcherCorrect.
Context {R : Type}.
Variable ic : bool.
Implicit Types (k : text → text → option R) (x : R).

Lemma star_m_sound p bef aft k x :
  star_m p bef aft k = Some x → ∃ b a, RMatch ic (RStar p) bef aft b a ∧ k b a = Some x.
Proof.
  revert bef; induction aft as [|c aft IH]; intros bef; simpl.
  - intros Hk. eauto with deng.
  - destruct (p c) eqn:Hp; [|eauto with deng].
    destruct (star_m p (c :: bef) aft k) as [y|] eqn:Hs; [|eauto with deng].
    intros [= <-]. destruct (IH _ Hs) as (b & a & ? & ?). eauto with deng.
Qed.

(** Soundness: what the matcher returns comes from a real match. *)
Lemma m_sound r bef aft k x :
  m ic r bef aft k = Some x → ∃ b a, RMatch ic r bef aft b a ∧ k b a = Some x.
Proof.
  revert bef aft k x; induction r as [| | | | | | |r1 IH1 r2 IH2|r1 IH1 r2 IH2];
    intros bef aft k x; simpl.
  - eauto with deng.
  - destruct aft as [|d aft]; [done|].
    destruct (char_eq ic c d) eqn:?; [eauto with deng|done].
  - destruct aft as [|d aft]; [done|].
    destruct (p d) eqn:?; [eauto with deng|done].
  - apply star_m_sound.
  - destruct (at_boundary bef aft) eqn:?; [eauto with deng|done].
  - destruct bef; [eauto with deng|done].
  - destruct aft; [eauto with deng|done].
  - intros (b1 & a1 & ? & (b & a & ? & ?)%IH2)%IH1. eauto with deng.
  - destruct (m ic r1 bef aft k) eqn:E.
    + intros [= <-]. destruct (IH1 _ _ _ _ E) as (b & a & ? & ?). eauto with deng.
    + intros (b & a & ? & ?)%IH2. eauto with deng.
Qed.

Lemma star_m_fallback p bef aft k x : k bef aft = Some x → is_Some (star_m p bef aft k).
Proof.
  intros Hk. destruct aft as [|c aft]; simpl; [eauto|].
  destruct (p c); [|eauto]. destruct (star_m _ _ _ _); eauto.
Qed.

(** Completeness: if some match lets the continuation succeed, the
    backtracking search finds one (not necessarily the same). *)
Lemma m_complete r bef aft b a :
  RMatch ic r bef aft b a → ∀ k x, k b a = Some x → is_Some (m ic r bef aft k).
Proof.
  induction 1 as [ | ???? Hc | ???? Hp | | ?????? Hp _ IH | ?? Hb | | | ???????? _ IH1 _ IH2
                 | ?????? _ IH | ?????? _ IH ]; intros k x Hk; simpl.
  - eauto.
  - rewrite Hc. eauto.
  - rewrite Hp. eauto.
  - by apply (star_m_fallback _ _ _ _ x).
  - rewrite Hp. destruct (IH k x Hk) as [y Hy]. simpl in Hy. rewrite Hy. eauto.
  - rewrite Hb. eauto.
  - eauto.
  - eauto.
  - destruct (IH2 k x Hk) as [y Hy]. exact (IH1 _ y Hy).
  - destruct (IH k x Hk) as [y ->]. eauto.
  - destruct (m ic r1 bef aft k); [eauto|]. exact (IH k x Hk).
Qed.
End MatcherCorrect.

(** ** [exec], [test] and [replace] against the relational semantics *)

Section Exec.
Variable re : jsregexp.
Abbreviation ic := (re_ignoreCase re).
Abbreviation src := (re_source re).

Lemma match_at_sound bef aft b a :
  match_at re bef aft = Some (b, a) → RMatch ic src bef aft b a.
Proof. unfold match_at. by intros (b' & a' & ? & [= -> ->])%m_sound. Qed.

Lemma match_at_complete bef aft b a :
  RMatch ic src bef aft b a → is_Some (match_at re bef aft).
Proof. intros H. exact (m_complete _ _ _ _ _ _ H _ (b, a) eq_refl). Qed.

Lemma match_at_None bef aft :
  match_at re bef aft = None ↔ ∀ b a, ¬ RMatch ic src bef aft b a.
Proof.
  split.
  - intros E b a (? & E')%match_at_complete. congruence.
  - intros H. destruct (match_at re bef aft) as [[b a]|] eqn:E; [|done].
    by apply match_at_sound, H in E.
Qed.

Lemma match_at_zipper bef aft b a :
  match_at re bef aft = Some (b, a) → ∃ w, aft = w ++ a ∧ b = rev w ++ bef.
Proof. intros ?%match_at_sound. by eapply RMatch_zipper. Qed.

Lemma exec_from_Some bef aft i j :
  exec_from re bef aft = Some (i, j) →
  ∃ u w a, aft = u ++ w ++ a ∧ i = length bef + length u ∧ j = i + length w ∧
    match_at re (rev u ++ bef) (w ++ a) = Some (rev w ++ rev u ++ bef, a) ∧
    ∀ u' v', aft = u' ++ v' → length u' < length u → match_at re (rev u' ++ bef) v' = None.
Proof.
  revert bef; induction aft as [|c aft IH]; intros bef; simpl;
    destruct (match_at re bef _) as [[b a]|] eqn:E; try done.
  - intros [= <- <-]. destruct (match_at_zipper _ _ _ _ E) as (w & Hw & ->).
    exists [], w, a. rewrite length_app, length_rev in *. simpl. rewrite <-Hw.
    split_and!; [done|lia|lia|done|]. simpl; lia.
  - intros [= <- <-]. destruct (match_at_zipper _ _ _ _ E) as (w & Hw & ->).
    exists [], w, a. rewrite length_app, length_rev. simpl. rewrite <-Hw.
    split_and!; [done|lia|lia|done|]. simpl; lia.
  - intros (u & w & a & -> & -> & -> & Hm & Hl)%IH.
    exists (c :: u), w, a. simpl. rewrite <-!app_assoc. simpl.
    split_and!; [done|lia|lia|done|].
    intros [|c' u'] v' Hs Hlt; simpl in *; [by simplify_eq|].
    injection Hs as -> Hs. rewrite <-app_assoc. apply Hl; [done|lia].
Qed.

Lemma exec_from_None bef aft :
  exec_from re bef aft = None →
  ∀ u v, aft = u ++ v → match_at re (rev u ++ bef) v = None.
Proof.
  revert bef; induction aft as [|c aft IH]; intros bef; simpl;
    destruct (match_at re bef _) as [[b a]|] eqn:E; try done.
  - intros _ [|??] [|??]; done.
  - intros Hn [|c' u] v Hs; simpl in *; [by simplify_eq|].
    injection Hs as -> Hs. rewrite <-app_assoc. by apply IH.
Qed.

Lemma take_drop_split (s u w a : text) :
  s = u ++ w ++ a →
  take (length u) s = u ∧ drop (length u) s = w ++ a ∧
  take (length u + length w) s = u ++ w ∧ drop (length u + length w) s = a.
Proof.
  intros ->. rewrite take_app_length, drop_app_length, app_assoc.
  rewrite <-length_app, take_app_length, drop_app_length. done.
Qed.

(** [exec] returns a real match, and the leftmost one: no match of the
    pattern starts before it. *)
Lemma exec_sound s i j :
  exec re s = Some (i, j) →
  i ≤ j ≤ length s ∧
  RMatch ic src (rev (take i s)) (drop i s) (rev (take j s)) (drop j s) ∧
  ∀ i', i' < i → ∀ b a, ¬ RMatch ic src (rev (take i' s)) (drop i' s) b a.
Proof.
  unfold exec. intros (u & w & a & Hs & -> & -> & Hm & Hl)%exec_from_Some.
  destruct (take_drop_split _ _ _ _ Hs) as (H1 & H2 & H3 & H4). simpl.
  rewrite H1, H2, H3, H4, rev_app_distr. rewrite !app_nil_r in Hm.
  split_and!.
  - lia.
  - rewrite Hs, !length_app. lia.
  - by apply match_at_sound.
  - intros i' Hi' b a'. apply match_at_None.
    rewrite <-(app_nil_r (rev (take i' s))). apply Hl; [by rewrite take_drop|].
    rewrite length_take. lia.
Qed.

(** If the pattern can match somewhere, [exec] finds a match, starting
    no later. *)
Theorem exec_complete s i b a :
  i ≤ length s → RMatch ic src (rev (take i s)) (drop i s) b a →
  ∃ i' j, exec re s = Some (i', j) ∧ i' ≤ i.
Proof.
  intros Hi Hm. destruct (exec re s) as [[i' j]|] eqn:E.
  - exists i', j. split; [done|].
    destruct (Nat.le_gt_cases i' i) as [|Hlt]; [done|].
    exfalso. destruct (exec_sound _ _ _ E) as (_ & _ & Hl). by eapply Hl.
  - exfalso. apply match_at_complete in Hm as [? Hm].
    rewrite <-(app_nil_r (rev (take i s))) in Hm.
    rewrite (exec_from_None _ _ E (take i s) (drop i s)) in Hm; [done|].
    by rewrite take_drop.
Qed.

(** [re.test(s)] holds exactly when the pattern matches at some position. *)
Theorem test_spec s :
  test re s = true ↔
  ∃ i b a, i ≤ length s ∧ RMatch ic src (rev (take i s)) (drop i s) b a.
Proof.
  unfold test. split.
  - destruct (exec re s) as [[i j]|] eqn:E; [|done]. intros _.
    destruct (exec_sound _ _ _ E) as ((? & ?) & ? & _). exists i, (rev (take j s)), (drop j s).
    split; [lia|done].
  - intros (i & b & a & Hi & Hm). by destruct (exec_complete _ _ _ _ Hi Hm) as (? & ? & -> & _).
Qed.

(** The global replace does not depend on its fuel once it exceeds the
    length of the input: each round consumes a character or stops. *)
Lemma gsub_go_fuel f n1 n2 bef aft :
  length aft < n1 → length aft < n2 →
  gsub_go n1 re f bef aft = gsub_go n2 re f bef aft.
Proof.
  revert n2 bef aft; induction n1 as [|n1 IH]; intros [|n2] bef aft H1 H2; try lia.
  simpl. destruct (match_at re bef aft) as [[b a]|] eqn:E.
  - destruct (match_at_zipper _ _ _ _ E) as (w & -> & ->).
    rewrite length_app in *. case_bool_decide.
    + f_equal. apply IH; lia.
    + destruct w; [|simpl in *; lia]. simpl. destruct a; [done|].
      do 2 f_equal. apply IH; simpl in *; lia.
  - destruct aft; [done|]. f_equal. apply IH; simpl in *; lia.
Qed.

(** The defining equation of the global replace, without fuel. *)
Lemma gsub_at_step f bef aft :
  gsub_at re f bef aft =
    match match_at re bef aft with
    | Some (b, a) =>
        if bool_decide (length a < length aft)
        then f (take (length aft - length a) aft) ++ gsub_at re f b a
        else f [] ++ match aft with
                     | c :: aft' => c :: gsub_at re f (c :: bef) aft'
                     | [] => []
                     end
    | None =>
        match aft with
        | c :: aft' => c :: gsub_at re f (c :: bef) aft'
        | [] => []
        end
    end.
Proof.
  unfold gsub_at at 1. simpl.
  destruct (match_at re bef aft) as [[b a]|] eqn:E.
  - case_bool_decide.
    + f_equal. apply gsub_go_fuel; lia.
    + destruct aft; [done|]. by do 2 f_equal.
  - destruct aft; [done|]. by f_equal.
Qed.

(** A pattern that is one class replaces every character of the class. *)
Lemma gsub_class p f bef aft :
  re_source re = RClass p →
  gsub_at re f bef aft = flat_map (λ c, if p c then f [c] else [c]) aft.
Proof.
  intros Hsrc. revert bef; induction aft as [|c aft IH]; intros bef;
    rewrite gsub_at_step; unfold match_at; rewrite Hsrc; simpl; [done|].
  destruct (p c).
  - rewrite bool_decide_true by lia. rewrite Nat.sub_succ_l, Nat.sub_diag by lia.
    simpl. by rewrite IH.
  - by rewrite IH.
Qed.
(** What a replace leaves: a property of characters that the input and
    every replacement text have holds of the output. *)
Lemma gsub_go_Forall (Q : ascii → Prop) f n bef aft :
  Forall Q aft → (∀ w, Forall Q (f w)) → Forall Q (gsub_go n re f bef aft).
Proof.
  intros Haft Hf. revert bef aft Haft; induction n as [|n IH]; intros bef aft Haft; simpl; [done|].
  destruct (match_at re bef aft) as [[b a]|] eqn:E.
  - destruct (match_at_zipper _ _ _ _ E) as (w & Ew & _).
    assert (Forall Q a) as Ha by (rewrite Ew, Forall_app in Haft; by destruct Haft).
    case_bool_decide; apply Forall_app; (split; [done|]); [by apply IH|].
    destruct aft as [|c aft']; [done|]. apply Forall_cons in Haft as [? ?].
    constructor; [done|by apply IH].
  - destruct aft as [|c aft']; [done|]. apply Forall_cons in Haft as [? ?].
    constructor; [done|by apply IH].
Qed.

(** What a global replace removes: when every character with [P] starts a
    match that consumes it, and no replacement text has [P], no character
    of the output has [P]. *)
Lemma gsub_go_removes (P : ascii → Prop) f n bef aft :
  length aft < n →
  (∀ bef c aft', P c → ∃ b a, match_at re bef (c :: aft') = Some (b, a) ∧ length a < S (length aft')) →
  (∀ w, Forall (λ c, ¬ P c) (f w)) →
  Forall (λ c, ¬ P c) (gsub_go n re f bef aft).
Proof.
  intros Hn Hm Hf. revert bef aft Hn; induction n as [|n IH]; intros bef aft Hn; [lia|]. simpl.
  destruct (match_at re bef aft) as [[b a]|] eqn:E.
  - case_bool_decide as Hlt; apply Forall_app; (split; [done|]); [apply IH; lia|].
    destruct aft as [|c aft']; [done|]. constructor; [|apply IH; simpl in *; lia].
    intros Hc. destruct (Hm bef c aft' Hc) as (b' & a' & E' & Hl).
    rewrite E in E'. injection E' as <- <-. simpl in Hlt. lia.
  - destruct aft as [|c aft']; [done|]. constructor; [|apply IH; simpl in *; lia].
    intros Hc. destruct (Hm bef c aft' Hc) as (? & ? & E' & _). congruence.
Qed.

Lemma replace_Forall (Q : ascii → Prop) f s :
  Forall Q s → (∀ w, Forall Q (f w)) → Forall Q (replace re f s).
Proof.
  intros Hs Hf. unfold replace, gsub_at, replace_first.
  destruct (re_global re); [by apply gsub_go_Forall|].
  destruct (exec re s) as [[i j]|]; [|done].
  rewrite !Forall_app. split_and!; [by apply Forall_take|done|by apply Forall_drop].
Qed.

Lemma replace_removes (P : ascii → Prop) f s :
  re_global re = true →
  (∀ bef c aft', P c → ∃ b a, match_at re bef (c :: aft') = Some (b, a) ∧ length a < S (length aft')) →
  (∀ w, Forall (λ c, ¬ P c) (f w)) →
  Forall (λ c, ¬ P c) (replace re f s).
Proof. intros Hg Hm Hf. unfold replace, gsub_at. rewrite Hg. apply gsub_go_removes; [lia|done|done]. Qed.

(** A character that no match consumes stays the last one of the text. *)
Lemma gsub_go_nil p f n bef : consumes_in ic src p → gsub_go n re f bef [] = [].
Proof.
  intros Hc. destruct n; simpl; [done|].
  destruct (match_at re bef []) as [[b a]|] eqn:E; [|done]. exfalso.
  apply match_at_sound in E. destruct (Hc _ _ _ _ E) as ([|x w] & Hw & Hne & _); done.
Qed.

Lemma consumed_not (p : ascii → bool) (c : ascii) (w : text) : Forall (λ x, p x = true) w → p c = false → c ∉ w.
Proof. intros Hp Hc Hin. rewrite Forall_forall in Hp. specialize (Hp c Hin). congruence. Qed.

Lemma gsub_go_snoc p c f n bef v :
  consumes_in ic src p → p c = false → length (v ++ [c]) < n →
  ∃ t, gsub_go n re f bef (v ++ [c]) = t ++ [c].
Proof.
  intros Hc Hpc. revert bef v; induction n as [|n IH]; intros bef v Hn; [simpl in Hn; lia|]. simpl.
  destruct (match_at re bef (v ++ [c])) as [[b a]|] eqn:E.
  - apply match_at_sound in E. destruct (Hc _ _ _ _ E) as (w & Hw & Hne & Hp).
    destruct (app_snoc_split _ _ _ _ Hw (consumed_not _ _ _ Hp Hpc)) as [a' ->].
    assert (length (a' ++ [c]) < length (v ++ [c])) as Hl.
    { rewrite Hw, (length_app w). destruct w; [done|simpl; lia]. }
    rewrite bool_decide_true by done.
    destruct (IH b a') as [t ->]; [lia|]. eexists. by rewrite app_assoc.
  - destruct v as [|d v]; simpl.
    + exists []. by rewrite (gsub_go_nil p).
    + destruct (IH (d :: bef) v) as [t ->]; [simpl in Hn; lia|]. by exists (d :: t).
Qed.

Lemma replace_snoc p c f v :
  consumes_in ic src p → p c = false → ∃ t, replace re f (v ++ [c]) = t ++ [c].
Proof.
  intros Hc Hpc. unfold replace, gsub_at. destruct (re_global re); [apply (gsub_go_snoc p); auto|].
  unfold replace_first. destruct (exec re (v ++ [c])) as [[i j]|] eqn:E; [|by exists v].
  destruct (exec_sound _ _ _ E) as (Hij & Hm & _).
  destruct (Hc _ _ _ _ Hm) as (w & Hw & Hne & Hp).
  rewrite length_app in Hij. simpl in Hij.
  destruct (decide (i ≤ length v)) as [Hi|Hi].
  - rewrite drop_app_le in Hw by done.
    destruct (app_snoc_split _ _ _ _ Hw (consumed_not _ _ _ Hp Hpc)) as [a' Ha'].
    rewrite Ha'. eexists. by rewrite !app_assoc.
  - rewrite drop_ge in Hw by (rewrite length_app; simpl; lia). by destruct w.
Qed.

(** A pattern [c+] matches, and consumes, every character of its class. *)
Lemma match_at_plus p c bef aft :
  re_source re = RPlus p → p c = true →
  ∃ b a, match_at re bef (c :: aft) = Some (b, a) ∧ length a < S (length aft).
Proof.
  intros Hsrc Hp. unfold match_at. rewrite Hsrc. simpl. rewrite Hp.
  destruct (star_m_fallback p (c :: bef) aft (λ b a, Some (b, a)) (c :: bef, aft) eq_refl)
    as [[b a] Hs].
  exists b, a. split; [done|].
  destruct (star_m_sound ic p _ _ _ _ Hs) as (b' & a' & Hm & [= <- <-]).
  destruct (RMatch_zipper _ _ _ _ _ _ Hm) as (w & -> & _). rewrite length_app. lia.
Qed.

(** [exec]: a result is a real match and the
    leftmost one; no result means the pattern matches nowhere. *)
Theorem exec_spec s :
  match exec re s with
  | Some (i, j) =>
      i ≤ j ≤ length s ∧
      RMatch ic src (rev (take i s)) (drop i s) (rev (take j s)) (drop j s) ∧
      ∀ i', i' < i → ∀ b a, ¬ RMatch ic src (rev (take i' s)) (drop i' s) b a
  | None => ∀ i b a, i ≤ length s → ¬ RMatch ic src (rev (take i s)) (drop i s) b a
  end.
Proof.
  destruct (exec re s) as [[i j]|] eqn:E; [by apply exec_sound|].
  intros i b a Hi Hm. destruct (exec_complete _ _ _ _ Hi Hm) as (? & ? & E' & _). congruence.
Qed.

(** [s.replace(re, f)] with [g] terminates within its fuel: every fuel
    larger than the input gives the same text. *)
Theorem replace_fuel f s n :
  re_global re = true → length s < n → gsub_go n re f [] s = replace re f s.
Proof.
  intros Hg Hn. unfold replace, gsub_at. rewrite Hg. apply gsub_go_fuel; lia.
Qed.
End Exec.

Lemma replace_global re f s : re_global re = true → replace re f s = gsub_at re f [] s.
Proof. unfold replace. by intros ->. Qed.

(** ** Witnesses *)

Lemma replace_fuel_witness :
  re_global (JSRegExp (RPlus is_space) true false) = true ∧ length ⟪"a  b"⟫ < 9 ∧
  gsub_go 9 (JSRegExp (RPlus is_space) true false) (λ _, [" "%char]) [] ⟪"a  b"⟫ =
  replace (JSRegExp (RPlus is_space) true false) (λ _, [" "%char]) ⟪"a  b"⟫.
Proof.
  assert (re_global (JSRegExp (RPlus is_space) true false) = true) as H1 by reflexivity.
  assert (length ⟪"a  b"⟫ < 9) as H2 by (simpl; lia).
  split; [exact H1|]. split; [exact H2|]. exact (replace_fuel _ _ _ _ H1 H2).
Defined.

End Regex.
