(* ===== verification/Options.v ===== *)
(** * Options: the settings object of deng.js

    [loadOptions] (its default), [saveConfig] (the validation of the numeric
    fields) and the record every search reads.  The fields keep the names
    of the JS object, prefixed with [opt_] ([end] is a keyword). *)

From S2P Require Import Prelude.

Module Options.

Record options : Type := Options {
  opt_start : bool;
  opt_end : bool;
  opt_ignoreCase : bool;
  opt_max : number;
  opt_timeout : number;
  opt_min : number
}.

(** The default of [loadOptions] when nothing (or no valid JSON) is stored:
    [{start: false, end: true, ignoreCase: true, max: 100, timeout: 2000, min: 3}]. *)
Definition default_options : options :=
  Options false true true (num_of_nat 100) (num_of_nat 2000) (num_of_nat 3).

(** The guard of [saveConfig] for [max] and [min]:
    [isNaN(x) || x <= 0 || Math.floor(x) !== x]. *)
Definition bad_count (x : number) : bool :=
  num_is_nan x || num_le x (Fin 0) || negb (num_is_integral x).

(** The guard for [timeout]: [isNaN(x) || x < 0 || Math.floor(x) !== x]. *)
Definition bad_timeout (x : number) : bool :=
  num_is_nan x || num_lt x (Fin 0) || negb (num_is_integral x).

(** [saveConfig]: [form] holds the values read from the settings page
    (checkboxes, and [Number(...)] of the number inputs); [old] is
    [getOptions()].  An invalid number falls back to the old value. *)
Definition saveConfig (form old : options) : options :=
  {| opt_start := opt_start form;
     opt_end := opt_end form;
     opt_ignoreCase := opt_ignoreCase form;
     opt_max := if bad_count (opt_max form) then opt_max old else opt_max form;
     opt_timeout := if bad_timeout (opt_timeout form) then opt_timeout old else opt_timeout form;
     opt_min := if bad_count (opt_min form) then opt_min old else opt_min form |}.

(** Options as [saveConfig] lets them through. *)
Definition valid_options (o : options) : bool :=
  negb (bad_count (opt_max o)) && negb (bad_count (opt_min o)) &&
  negb (bad_timeout (opt_timeout o)).

(** ** Theorems *)

(** A field of [saveConfig] passes its guard when the old value does. *)
Lemma saveConfig_field (bad : number → bool) x old :
  bad old = false → bad (if bad x then old else x) = false.
Proof. by destruct (bad x) eqn:E. Qed.

(** Saving the options themselves changes nothing when they pass the guards. *)
Lemma saveConfig_same o : valid_options o = true → saveConfig o o = o.
Proof.
  unfold valid_options, saveConfig. rewrite !andb_true_iff, !negb_true_iff.
  intros [[-> ->] ->]. by destruct o.
Qed.

(** ** What the guards accept

    Independently of how the guards are written: [max] and [min] keep a
    typed value that is a positive integer or [Infinity], [timeout] one
    that is a non-negative integer or [Infinity]; NaN, [-Infinity],
    fractions and (for [max] and [min]) 0 fall back to the old value. *)
Definition count_ok (x : number) : Prop :=
  match x with
  | Fin q => (0 < q)%Q ∧ ∃ z : Z, (q == inject_Z z)%Q
  | PosInf => True
  | _ => False
  end.

Definition timeout_ok (x : number) : Prop :=
  match x with
  | Fin q => (0 <= q)%Q ∧ ∃ z : Z, (q == inject_Z z)%Q
  | PosInf => True
  | _ => False
  end.

Lemma integral_Q q : Qeq_bool (inject_Z (Qfloor q)) q = true ↔ ∃ z : Z, (q == inject_Z z)%Q.
Proof.
  rewrite Qeq_bool_iff. split; [intros H; exists (Qfloor q); by rewrite H|].
  intros [z Hz]. rewrite (Qfloor_comp _ _ Hz), Qfloor_Z. by rewrite Hz.
Qed.

Lemma bad_count_spec x : bad_count x = false ↔ count_ok x.
Proof.
  destruct x as [| | |q|]; unfold bad_count, num_le; simpl; try (split; intros; done).
  rewrite !orb_false_iff, negb_false_iff, integral_Q.
  split; intros [H Hz]; split; try done.
  - apply Qnot_le_lt. intros Hq. apply Qle_bool_iff in Hq. congruence.
  - apply not_true_iff_false. rewrite Qle_bool_iff. intros Hq. by apply (Qlt_not_le _ _ H).
Qed.

Lemma bad_timeout_spec x : bad_timeout x = false ↔ timeout_ok x.
Proof.
  destruct x as [| | |q|]; unfold bad_timeout, num_lt; simpl; try (split; intros; done).
  rewrite orb_false_iff, !negb_false_iff, integral_Q, Qle_bool_iff. done.
Qed.

(** C25: [saveConfig] takes the checkboxes as they are; it keeps a typed
    [max] or [min] exactly when it is a positive integer or [Infinity], and
    a typed [timeout] exactly when it is a non-negative integer or
    [Infinity]; any other value falls back to the old setting. *)
Theorem saveConfig_spec form old :
  let r := saveConfig form old in
  opt_start r = opt_start form ∧ opt_end r = opt_end form ∧
  opt_ignoreCase r = opt_ignoreCase form ∧
  (count_ok (opt_max form) → opt_max r = opt_max form) ∧
  (¬ count_ok (opt_max form) → opt_max r = opt_max old) ∧
  (timeout_ok (opt_timeout form) → opt_timeout r = opt_timeout form) ∧
  (¬ timeout_ok (opt_timeout form) → opt_timeout r = opt_timeout old) ∧
  (count_ok (opt_min form) → opt_min r = opt_min form) ∧
  (¬ count_ok (opt_min form) → opt_min r = opt_min old).
Proof.
  simpl. rewrite <-!bad_count_spec, <-!bad_timeout_spec.
  split_and!; try done; intros H; [rewrite H|destruct (bad_count _); [done|by destruct H]
    |rewrite H|destruct (bad_timeout _); [done|by destruct H]
    |rewrite H|destruct (bad_count _); [done|by destruct H]]; done.
Qed.

Lemma saveConfig_spec_witness :
  let form := Options true false false PosInf (Fin 0) (Fin (1 # 2)) in
  count_ok (opt_max form) ∧ opt_max (saveConfig form default_options) = PosInf ∧
  timeout_ok (opt_timeout form) ∧ opt_timeout (saveConfig form default_options) = Fin 0 ∧
  ¬ count_ok (opt_min form) ∧ opt_min (saveConfig form default_options) = num_of_nat 3.
Proof.
  intros form.
  assert (count_ok (opt_max form)) as H1 by exact I.
  assert (timeout_ok (opt_timeout form)) as H2.
  { split; [apply Qle_refl|]. by exists 0%Z. }
  assert (¬ count_ok (opt_min form)) as H3.
  { intros Hc%bad_count_spec. vm_compute in Hc. discriminate. }
  destruct (saveConfig_spec form default_options) as (_ & _ & _ & Hm & _ & Ht & _ & _ & Hn).
  split_and!; [exact H1|exact (Hm H1)|exact H2|exact (Ht H2)|exact H3|exact (Hn H3)].
Defined.

End Options.
