(* ===== verification/Form.v ===== *)
(** * Form: the settings page of deng.js

    [showConfig] writes the options into the form (checkboxes get the
    booleans, the three number fields get [ToString] of the numbers) and
    [saveConfig] reads them back ([checked], and [Number(input.value)]),
    before the guards of [Options.saveConfig].  The two conversions are
    ECMAScript builtins and are modelled from the language specification:
    [Number] is StringToNumber (the StringNumericLiteral grammar, then the
    exact value rounded to binary64, ties to even, overflow to an
    infinity), [number_toString] is Number::toString (shortest digits). *)

From Stdlib Require DecimalN DecimalPos Qcanon.
From Stdlib Require Import Qabs.
From S2P Require Import Prelude Options.

Module Form.
Import Options.

Local Open Scope Z_scope.

(** ** Digits *)

(** The value of a digit in base [base] (2, 8, 10 or 16; hex letters in
    either case). *)
Definition digit_value (base : Z) (c : ascii) : option Z :=
  let v := if in_range 48 57 c then Some (Z.of_nat (code c) - 48)
           else if in_range 97 102 c then Some (Z.of_nat (code c) - 87)
           else if in_range 65 70 c then Some (Z.of_nat (code c) - 55)
           else None in
  match v with Some d => if d <? base then Some d else None | None => None end.

(** The longest run of digits at the head of [s]: [(acc * base^k + v, k, rest)]
    where the run has [k] digits of value [v]. *)
Fixpoint digits_acc (base acc : Z) (k : nat) (s : text) : Z * nat * text :=
  match s with
  | c :: s' =>
      match digit_value base c with
      | Some d => digits_acc base (acc * base + d) (S k) s'
      | None => (acc, k, s)
      end
  | [] => (acc, k, [])
  end.

(** ** StringToNumber

    A literal of the grammar: [Infinity] with its sign, or the integer [m]
    and the decimal exponent [e] of the value [m * 10^e] (the sign of a
    zero is not kept: deng.js compares and floors its numbers only). *)
Inductive literal : Type :=
  | LInf (neg : bool)
  | LFin (m e : Z).

Definition literal_neg (l : literal) : literal :=
  match l with LInf b => LInf (negb b) | LFin m e => LFin (- m) e end.

(** The SignedInteger of an ExponentPart (after the [e] or [E]). *)
Definition parse_exponent (s : text) : option (Z * text) :=
  let '(sg, s1) := match s with
                   | c :: r => if (c =? "+")%char then (1, r)
                               else if (c =? "-")%char then (-1, r) else (1, s)
                   | [] => (1, s)
                   end in
  match digits_acc 10 0 0 s1 with
  | (v, O, _) => None
  | (v, _, r) => Some (sg * v, r)
  end.

Definition infinity_text : text := ⟪"Infinity"⟫.

(** StrUnsignedDecimalLiteral: [Infinity], or DecimalDigits with an
    optional fraction (at least one digit before or after the point) and
    an optional ExponentPart.  Returns the literal and the unread rest. *)
Definition parse_unsigned (s : text) : option (literal * text) :=
  if bool_decide (take 8 s = infinity_text) then Some (LInf false, drop 8 s) else
  let '(i, ni, r1) := digits_acc 10 0 0 s in
  let '(m, nf, r2) := match r1 with
                      | c :: r => if (c =? ".")%char then digits_acc 10 i 0 r else (i, O, r1)
                      | [] => (i, O, r1)
                      end in
  if (ni + nf =? 0)%nat then None else
  match r2 with
  | c :: r => if (c =? "e")%char || (c =? "E")%char then
                match parse_exponent r with
                | Some (x, r3) => Some (LFin m (x - Z.of_nat nf), r3)
                | None => None
                end
              else Some (LFin m (- Z.of_nat nf), r2)
  | [] => Some (LFin m (- Z.of_nat nf), [])
  end.

(** StrDecimalLiteral: an optional sign, then the unsigned literal. *)
Definition parse_decimal (s : text) : option (literal * text) :=
  match s with
  | c :: r =>
      if (c =? "+")%char then parse_unsigned r
      else if (c =? "-")%char then option_map (λ p, (literal_neg p.1, p.2)) (parse_unsigned r)
      else parse_unsigned s
  | [] => parse_unsigned s
  end.

(** The base of a NonDecimalIntegerLiteral prefix [0x], [0o], [0b]. *)
Definition radix_prefix (c : ascii) : option Z :=
  if (c =? "x")%char || (c =? "X")%char then Some 16
  else if (c =? "o")%char || (c =? "O")%char then Some 8
  else if (c =? "b")%char || (c =? "B")%char then Some 2
  else None.

Fixpoint drop_while (f : ascii → bool) (s : text) : text :=
  match s with c :: s' => if f c then drop_while f s' else s | [] => [] end.

(** StrWhiteSpace is WhiteSpace and LineTerminator; on Latin-1 these are
    the characters of [is_space]. *)
Definition trim (s : text) : text :=
  rev (drop_while is_space (rev (drop_while is_space s))).

(** The literal a whole (trimmed) string denotes, or [None] for NaN.
    The empty string is 0. *)
Definition parse_literal (s : text) : option literal :=
  let decimal_literal := match parse_decimal s with Some (l, []) => Some l | _ => None end in
  match s with
  | [] => Some (LFin 0 0)
  | z :: c :: r =>
      match (if (z =? "0")%char then radix_prefix c else None) with
      | Some base =>
          match digits_acc base 0 0 r with
          | (v, S _, []) => Some (LFin v 0)
          | _ => None
          end
      | None => decimal_literal
      end
  | _ => decimal_literal
  end.

(** ** Rounding to binary64

    [div_rne a b] is [a / b] rounded to the nearest integer, ties to even
    ([b > 0]). *)
Definition div_rne (a b : Z) : Z :=
  let q := a / b in
  match Z.compare (2 * (a mod b)) b with
  | Lt => q
  | Gt => q + 1
  | Eq => if Z.even q then q else q + 1
  end.

(** [a / b] over [2^k], as a fraction of integers. *)
Definition scale2 (a b k : Z) : Z * Z :=
  (a * 2 ^ Z.max 0 (- k), b * 2 ^ Z.max 0 k).

(** [floor(log2(a / b))] for [a, b > 0]: the difference of the integer
    logarithms is the answer or one more. *)
Definition ilog2_q (a b : Z) : Z :=
  let k := Z.log2 a - Z.log2 b in
  let '(n, d) := scale2 a b k in
  if n <? d then k - 1 else k.

(** The rational [m * 2^e], in lowest terms. *)
Definition q_of_scaled (m e : Z) : Q :=
  if 0 <=? e then inject_Z (m * 2 ^ e) else Qred (m # Z.to_pos (2 ^ (- e))).

(** The double nearest to [a / b] ([a, b > 0]): 53 significant bits, the
    exponent of the last bit at least -1074 (subnormals), ties to even;
    a result of [2^1024] or more is [Infinity]. *)
Definition round_pos (a b : Z) : number :=
  let e := Z.max (ilog2_q a b - 52) (-1074) in
  let '(n, d) := scale2 a b e in
  let m := div_rne n d in
  if m =? 0 then Fin 0
  else if 1024 <=? Z.log2 m + e then PosInf
  else Fin (q_of_scaled m e).

Definition num_neg (x : number) : number :=
  match x with
  | Fin q => Fin (- q)
  | PosInf => NegInf
  | NegInf => PosInf
  | x => x
  end.

(** The double nearest to a rational (RoundMVResult). *)
Definition round_double (q : Q) : number :=
  match Qnum q with
  | Z0 => Fin 0
  | Zpos a => round_pos (Zpos a) (Zpos (Qden q))
  | Zneg a => num_neg (round_pos (Zpos a) (Zpos (Qden q)))
  end.

(** The rational [s * 10^j]. *)
Definition q_pow10 (s j : Z) : Q :=
  if 0 <=? j then inject_Z (s * 10 ^ j) else s # Z.to_pos (10 ^ (- j)).

(** The mathematical value of a literal, rounded (RoundMVResult). *)
Definition literal_value (l : literal) : number :=
  match l with
  | LInf neg => if neg then NegInf else PosInf
  | LFin m e => round_double (q_pow10 m e)
  end.

(** [Number(s)] on a string: StringToNumber. *)
Definition Number (s : text) : number :=
  match parse_literal (trim s) with Some l => literal_value l | None => NaN end.

(** ** Number::toString (radix 10) *)

Definition digit_char (d : nat) : ascii := ascii_of_nat (48 + d).

(** The characters of a [Decimal.uint] (most significant digit first). *)
Fixpoint uint_text (d : Decimal.uint) : text :=
  match d with
  | Decimal.Nil => []
  | Decimal.D0 d => digit_char 0 :: uint_text d
  | Decimal.D1 d => digit_char 1 :: uint_text d
  | Decimal.D2 d => digit_char 2 :: uint_text d
  | Decimal.D3 d => digit_char 3 :: uint_text d
  | Decimal.D4 d => digit_char 4 :: uint_text d
  | Decimal.D5 d => digit_char 5 :: uint_text d
  | Decimal.D6 d => digit_char 6 :: uint_text d
  | Decimal.D7 d => digit_char 7 :: uint_text d
  | Decimal.D8 d => digit_char 8 :: uint_text d
  | Decimal.D9 d => digit_char 9 :: uint_text d
  end.

(** The decimal digits of a natural number, without leading zeros. *)
Definition decimal (n : Z) : text := uint_text (N.to_uint (Z.to_N n)).

(** [a / b] over [10^k], as a fraction of integers. *)
Definition scale10 (a b k : Z) : Z * Z :=
  (a * 10 ^ Z.max 0 (- k), b * 10 ^ Z.max 0 k).

(** [floor(log10(a / b))] for [a, b > 0]. *)
Definition ilog10_q (a b : Z) : Z :=
  let k := Z.of_nat (length (decimal a)) - Z.of_nat (length (decimal b)) in
  let '(n, d) := scale10 a b k in
  if n <? d then k - 1 else k.

(** Step 5 of Number::toString for [x = a / b > 0] with [k] digits: [n] is
    [floor(log10 x) + 1] and [s] the [k]-digit integer nearest to
    [x / 10^(n-k)] (ties to even); a rounding up to [10^k] moves to the
    next power of ten. *)
Definition candidate (a b k : Z) : Z * Z :=
  let n := ilog10_q a b + 1 in
  let '(num, den) := scale10 a b (n - k) in
  let s := div_rne num den in
  if s =? 10 ^ k then (10 ^ (k - 1), n + 1) else (s, n).

(** The smallest [k] whose candidate rounds back to [x]; the search gives
    up after [fuel] more digits with the last candidate (17 digits always
    suffice for a double). *)
Fixpoint shortest (fuel : nat) (a b k : Z) : Z * Z * Z :=
  let '(s, n) := candidate a b k in
  match fuel with
  | O => (s, k, n)
  | S fuel' =>
      match round_double (q_pow10 s (n - k)) with
      | Fin y => if Qeq_bool y (a # Z.to_pos b) then (s, k, n) else shortest fuel' a b (k + 1)
      | _ => shortest fuel' a b (k + 1)
      end
  end.

Definition zeros (n : Z) : text := replicate (Z.to_nat n) "0"%char.

(** Steps 6 to 10: the layout of the digits [s] ([k] of them) with the
    decimal point after [n] digits. *)
Definition layout (s k n : Z) : text :=
  let ds := decimal s in
  let exp := (if 0 <=? n - 1 then ⟪"e+"⟫ else ⟪"e-"⟫) ++ decimal (Z.abs (n - 1)) in
  if (k <=? n) && (n <=? 21) then ds ++ zeros (n - k)
  else if (0 <? n) && (n <=? 21) then take (Z.to_nat n) ds ++ ⟪"."⟫ ++ drop (Z.to_nat n) ds
  else if (-6 <? n) && (n <=? 0) then ⟪"0."⟫ ++ zeros (- n) ++ ds
  else if k =? 1 then ds ++ exp
  else take 1 ds ++ ⟪"."⟫ ++ drop 1 ds ++ exp.

(** Number::toString of [a / b > 0].  An integer below [2^53] prints as
    its decimal digits: every integer [s * 10^(n-k)] that rounds to it is
    itself (doubles there are at most 1 apart), so step 6 gives exactly
    these digits; other values go through the search. *)
Definition pos_toString (q : Q) : text :=
  let a := Qnum q in let b := Zpos (Qden q) in
  if (b =? 1) && (a <? 2 ^ 53) then decimal a
  else let '(s, k, n) := shortest 17 a b 1 in layout s k n.

Definition number_toString (x : number) : text :=
  match x with
  | NaN | Null => ⟪"NaN"⟫
  | PosInf => infinity_text
  | NegInf => ⟪"-"⟫ ++ infinity_text
  | Fin q =>
      match Qnum q with
      | Z0 => ⟪"0"⟫
      | Zpos _ => pos_toString (Qred q)
      | Zneg _ => ⟪"-"⟫ ++ pos_toString (Qred (- q))
      end
  end.

(** ** The settings form *)

(** The six fields of the settings page: the three checkboxes
    ([checked]) and the three number fields ([value], a string). *)
Record form : Type := Fields {
  f_start : bool;          (** [options-start] *)
  f_end : bool;            (** [options-end] *)
  f_ignoreCase : bool;     (** [options-ignoreCase] *)
  f_max : text;            (** [options-max] *)
  f_timeout : text;        (** [options-timeout] *)
  f_min : text             (** [options-min] *)
}.

(** [input.value = x] for a number [x]: the string ToString([x]); [null]
    becomes the empty string (the [value] attribute is
    [LegacyNullToEmptyString]). *)
Definition field_value (x : number) : text :=
  match x with Null => [] | _ => number_toString x end.

(** [showConfig()]: the form filled from [getOptions()]. *)
Definition showConfig (o : options) : form :=
  {| f_start := opt_start o; f_end := opt_end o; f_ignoreCase := opt_ignoreCase o;
     f_max := field_value (opt_max o); f_timeout := field_value (opt_timeout o);
     f_min := field_value (opt_min o) |}.

(** The object literal of [saveConfig()]: the checkboxes, and [Number(...)]
    of the three number fields, before the guards. *)
Definition readForm (f : form) : options :=
  {| opt_start := f_start f; opt_end := f_end f; opt_ignoreCase := f_ignoreCase f;
     opt_max := Number (f_max f); opt_timeout := Number (f_timeout f);
     opt_min := Number (f_min f) |}.

(** The fields before the settings page is first shown: empty number
    fields and unchecked boxes. *)
Definition blank_form : form := Fields false false false [] [] [].

(** ** Safe integers

    A number that is an integer in [[0, 2^53)] written in lowest terms:
    what the guards of [saveConfig] let through from a field holding a
    number below [2^53]. *)
Definition safe_int (x : number) : bool :=
  match x with
  | Fin q => (Qden q =? 1)%positive && (0 <=? Qnum q) && (Qnum q <? 2 ^ 53)
  | _ => false
  end.

(** A value read from a field that is NaN or of magnitude below [2^53]. *)
Definition small_number (x : number) : bool :=
  match x with
  | Fin q => Z.abs (Qnum q) <? 2 ^ 53 * Zpos (Qden q)
  | NaN | Null => true
  | PosInf | NegInf => false
  end.

(** ** Digit runs *)

(** The value of a run of digits appended to [acc]. *)
Definition digits_value (base acc : Z) (xs : text) : Z :=
  foldl (λ a c, a * base + default 0 (digit_value base c)) acc xs.

Definition is_digit (base : Z) (c : ascii) : Prop := is_Some (digit_value base c).

Lemma digits_acc_app base acc j xs ys :
  Forall (is_digit base) xs →
  digits_acc base acc j (xs ++ ys) =
    digits_acc base (digits_value base acc xs) (j + length xs) ys.
Proof.
  revert acc j. induction xs as [|c xs IH]; intros acc j Hd; simpl; [by rewrite Nat.add_0_r|].
  apply Forall_cons in Hd as [[d Hc] Hd]. rewrite Hc, IH by done.
  by rewrite Nat.add_succ_r.
Qed.

(** A run ends at the end of the text or at a character that is not a digit. *)
Lemma digits_acc_stop base acc j ys :
  head ys ≫= digit_value base = None → digits_acc base acc j ys = (acc, j, ys).
Proof. destruct ys as [|c ys]; simpl; [done|]. by intros ->. Qed.

Lemma digits_acc_all base acc j xs :
  Forall (is_digit base) xs → digits_acc base acc j xs = (digits_value base acc xs, (j + length xs)%nat, []).
Proof.
  intros Hd. rewrite <-(app_nil_r xs) at 1. rewrite digits_acc_app by done.
  by apply digits_acc_stop.
Qed.

Lemma digit_value_code base c d :
  digit_value base c = Some d → (48 <= code c <= 57 ∨ 65 <= code c <= 70 ∨ 97 <= code c <= 102)%nat.
Proof.
  unfold digit_value, in_range.
  repeat (case_match; rewrite ?andb_true_iff, ?andb_false_iff, ?Nat.leb_le, ?Nat.leb_gt in *);
    try done; lia.
Qed.

Lemma digit_not_space base c : is_digit base c → is_space c = false.
Proof.
  intros [d Hd]. apply digit_value_code in Hd. unfold is_space, in_range.
  apply orb_false_iff; split; [apply orb_false_iff; split|].
  - apply andb_false_iff. rewrite !Nat.leb_gt. lia.
  - apply Nat.eqb_neq. lia.
  - apply Nat.eqb_neq. lia.
Qed.

Lemma drop_while_keep (f : ascii → bool) xs :
  head xs ≫= (λ c, Some (f c)) ≠ Some true → drop_while f xs = xs.
Proof. destruct xs as [|c xs]; simpl; [done|]. by destruct (f c). Qed.

(** A text without white space has nothing to trim. *)
Lemma trim_nospace xs : Forall (λ c, is_space c = false) xs → trim xs = xs.
Proof.
  intros Hd. unfold trim.
  assert (∀ ys, Forall (λ c, is_space c = false) ys → drop_while is_space ys = ys) as Hk.
  { intros [|c ys] Hy; [done|]. apply drop_while_keep. simpl.
    apply Forall_cons in Hy as [Hc _]. by rewrite Hc. }
  rewrite (Hk xs Hd), (Hk (rev xs)) by (by apply Forall_rev). apply rev_involutive.
Qed.

(** ** Decimal digits of a natural number *)

Lemma uint_text_digits d : Forall (is_digit 10) (uint_text d).
Proof. induction d; simpl; constructor; try done; eexists; reflexivity. Qed.

Lemma uint_text_acc d (acc : positive) :
  Zpos (Pos.of_uint_acc d acc) = digits_value 10 (Zpos acc) (uint_text d).
Proof.
  revert acc. induction d; intros acc; simpl; rewrite ?IHd; f_equal;
    unfold code, digit_char; rewrite ?nat_ascii_embedding by lia; lia.
Qed.

Lemma uint_text_value d : Z.of_N (Pos.of_uint d) = digits_value 10 0 (uint_text d).
Proof. induction d; simpl; rewrite ?uint_text_acc; done. Qed.

Lemma decimal_digits z : Forall (is_digit 10) (decimal z).
Proof. apply uint_text_digits. Qed.

Lemma decimal_value z : 0 <= z → digits_value 10 0 (decimal z) = z.
Proof.
  intros Hz. unfold decimal. rewrite <-uint_text_value.
  change (Z.of_N (N.of_uint (N.to_uint (Z.to_N z))) = z). rewrite DecimalN.Unsigned.of_to. lia.
Qed.

Lemma decimal_not_nil z : decimal z ≠ [].
Proof.
  unfold decimal. destruct (Z.to_N z) as [|p]; [done|]. simpl.
  pose proof (DecimalPos.Unsigned.to_uint_nonnil p) as Hn.
  destruct (Pos.to_uint p); simpl; congruence.
Qed.

(** ** Rounding of integers *)

Lemma Qred_inject_Z z : Qred (inject_Z z) = inject_Z z.
Proof. apply Qcanon.Qred_identity. simpl. apply Z.gcd_1_r. Qed.

(** [m * 2^e] written back as an integer when [m] carries the [2^-e]. *)
Lemma q_of_scaled_int z j : 0 <= j → q_of_scaled (z * 2 ^ j) (- j) = inject_Z z.
Proof.
  intros Hj. unfold q_of_scaled. destruct (Z.leb_spec 0 (- j)).
  - assert (j = 0) as -> by lia. by rewrite !Z.mul_1_r.
  - assert (0 < 2 ^ j) by (apply Z.pow_pos_nonneg; lia).
    rewrite Z.opp_involutive, <-Qred_inject_Z. apply Qred_complete. unfold Qeq, inject_Z; simpl. rewrite Z2Pos.id by lia. lia.
Qed.

(** An integer below [2^53] is a double: rounding leaves it. *)
Lemma round_pos_int z : 0 < z < 2 ^ 53 → round_pos z 1 = Fin (inject_Z z).
Proof.
  intros Hz. set (L := Z.log2 z).
  assert (0 <= L) by apply Z.log2_nonneg.
  assert (2 ^ L <= z) by (apply Z.log2_spec; lia).
  assert (L < 53) by (apply Z.log2_lt_pow2; lia).
  assert (ilog2_q z 1 = L) as HL.
  { unfold ilog2_q, scale2. change (Z.log2 1) with 0. rewrite Z.sub_0_r. fold L.
    rewrite (Z.max_l 0 (- L)), (Z.max_r 0 L), Z.pow_0_r, Z.mul_1_r, Z.mul_1_l by lia.
    destruct (Z.ltb_spec z (2 ^ L)); lia. }
  unfold round_pos. rewrite HL, Z.max_l by lia.
  unfold scale2. rewrite (Z.max_l 0 (L - 52)), (Z.max_r 0 (- (L - 52))), Z.pow_0_r, Z.mul_1_l
    by lia.
  unfold div_rne. rewrite Z.div_1_r, Z.mod_1_r. simpl Z.compare.
  assert (0 < 2 ^ (- (L - 52))) by (apply Z.pow_pos_nonneg; lia).
  rewrite (proj2 (Z.eqb_neq _ 0)) by nia.
  rewrite Z.log2_mul_pow2 by lia. fold L.
  rewrite (proj2 (Z.leb_gt 1024 _)) by lia.
  f_equal. rewrite <-(Z.opp_involutive (L - 52)) at 2. apply q_of_scaled_int. lia.
Qed.

(** ** Parsing printed literals *)

Ltac not_digit := let H := fresh in intros [? H]; vm_compute in H; discriminate H.

Lemma digit_eqb c d : is_digit 10 c → ¬ is_digit 10 d → (c =? d)%char = false.
Proof. intros Hc Hd. destruct (Ascii.eqb_spec c d); [subst; contradiction|done]. Qed.

Lemma digits_value_app base acc xs ys :
  digits_value base acc (xs ++ ys) = digits_value base (digits_value base acc xs) ys.
Proof. apply foldl_app. Qed.

Lemma digits_value_zeros acc j : digits_value 10 acc (zeros j) = acc * 10 ^ Z.max 0 j.
Proof.
  unfold zeros. rewrite <-(Z2Nat.id (Z.max 0 j)) by lia. rewrite Z2Nat.inj_max. simpl.
  generalize (Z.to_nat j) as n. intros n. revert acc. induction n as [|n IH]; intros acc; simpl.
  - lia.
  - change (Z.of_nat (code "0") - 48) with 0. rewrite IH, Nat2Z.inj_succ, Z.pow_succ_r by lia. lia.
Qed.

Lemma zeros_digits j : Forall (is_digit 10) (zeros j).
Proof. apply Forall_forall. intros c [-> _]%elem_of_replicate. eexists; reflexivity. Qed.

(** The ExponentPart of a printed number: [e], its sign, its digits. *)
Definition exp_text (ex : option (bool * text)) : text :=
  match ex with
  | Some (neg, xs) => "e"%char :: (if neg then "-" else "+")%char :: xs
  | None => []
  end.

Definition exp_value (ex : option (bool * text)) : Z :=
  match ex with
  | Some (neg, xs) => (if neg then -1 else 1) * digits_value 10 0 xs
  | None => 0
  end.

Definition exp_ok (ex : option (bool * text)) : Prop :=
  match ex with Some (_, xs) => Forall (is_digit 10) xs ∧ xs ≠ [] | None => True end.

Lemma exp_text_stop ex : head (exp_text ex) ≫= digit_value 10 = None.
Proof. by destruct ex as [[[] xs]|]. Qed.

Lemma parse_exponent_ok (neg : bool) xs :
  Forall (is_digit 10) xs → xs ≠ [] →
  parse_exponent ((if neg then "-" else "+")%char :: xs) =
    Some ((if neg then -1 else 1) * digits_value 10 0 xs, []).
Proof.
  intros Hd Hne. unfold parse_exponent.
  destruct neg; simpl; rewrite digits_acc_all by done; simpl; by destruct xs.
Qed.

(** An unsigned decimal literal: integer digits [ip], an optional point
    with fraction digits [fp], an optional exponent. *)
Lemma parse_unsigned_lit ip (dot : bool) fp ex :
  Forall (is_digit 10) ip → ip ≠ [] → Forall (is_digit 10) fp → (dot = false → fp = []) →
  exp_ok ex →
  parse_unsigned (ip ++ (if dot then "."%char :: fp else []) ++ exp_text ex) =
    Some (LFin (digits_value 10 (digits_value 10 0 ip) fp) (exp_value ex - Z.of_nat (length fp)), []).
Proof.
  intros Hip Hne Hfp Hdot Hex. unfold parse_unsigned.
  rewrite bool_decide_false.
  2:{ destruct ip as [|c ip]; [done|]. intros Hi. injection Hi as Hc _.
      apply Forall_cons in Hip as [Hc' _]. rewrite Hc in Hc'. revert Hc'. not_digit. }
  rewrite digits_acc_app by done.
  destruct dot.
  - rewrite digits_acc_stop by done. simpl.
    rewrite digits_acc_app, digits_acc_stop by (done || apply exp_text_stop).
    rewrite (proj2 (Nat.eqb_neq _ 0)) by (destruct ip; simpl; [done|lia]).
    destruct ex as [[neg xs]|]; simpl; [|repeat f_equal; try lia].
    destruct Hex as [Hxs Hxne]. rewrite parse_exponent_ok by done. repeat f_equal.
  - rewrite Hdot by done. simpl. rewrite digits_acc_stop by apply exp_text_stop.
    assert ((length ip + 0 =? 0)%nat = false) as Hl by (destruct ip; simpl; [done|lia]).
    destruct ex as [[neg xs]|]; simpl; rewrite Hl; [|repeat f_equal; try lia].
    destruct Hex as [Hxs Hxne]. rewrite parse_exponent_ok by done. repeat f_equal; try lia.
Qed.

Lemma radix_prefix_digit c : is_digit 10 c → radix_prefix c = None.
Proof.
  intros Hc. unfold radix_prefix.
  rewrite !(digit_eqb c) by (done || not_digit). reflexivity.
Qed.

Lemma digits_nospace xs : Forall (is_digit 10) xs → Forall (λ c, is_space c = false) xs.
Proof. intros H. eapply Forall_impl; [exact H|]. intros c. apply digit_not_space. Qed.

(** A text that starts with a digit and is not a [0x], [0o] or [0b]
    prefix is a decimal literal. *)
Lemma parse_literal_dec c rest :
  is_digit 10 c → head rest ≫= radix_prefix = None →
  parse_literal (c :: rest) = match parse_unsigned (c :: rest) with Some (l, []) => Some l | _ => None end.
Proof.
  intros Hc Hr.
  assert (parse_decimal (c :: rest) = parse_unsigned (c :: rest)) as Hd.
  { simpl. by rewrite (digit_eqb c "+"), (digit_eqb c "-") by (done || not_digit). }
  unfold parse_literal. rewrite Hd. destruct rest as [|c' r]; [done|].
  simpl in Hr. rewrite Hr. by destruct (c =? "0")%char.
Qed.

(** [Number] of a printed unsigned literal is its value, rounded. *)
Lemma Number_lit ip (dot : bool) fp ex :
  Forall (is_digit 10) ip → ip ≠ [] → Forall (is_digit 10) fp → (dot = false → fp = []) →
  exp_ok ex →
  Number (ip ++ (if dot then "."%char :: fp else []) ++ exp_text ex) =
    round_double (q_pow10 (digits_value 10 (digits_value 10 0 ip) fp)
                          (exp_value ex - Z.of_nat (length fp))).
Proof.
  intros Hip Hne Hfp Hdot Hex. unfold Number.
  rewrite trim_nospace.
  2:{ apply Forall_app; split; [by apply digits_nospace|]. apply Forall_app; split.
      - destruct dot; [|done]. constructor; [done|]. by apply digits_nospace.
      - destruct ex as [[[] xs]|]; simpl; [..|done]; repeat constructor;
          apply digits_nospace, Hex. }
  destruct ip as [|c ip]; [done|]. apply Forall_cons in Hip as [Hc Hip'].
  assert (head (ip ++ (if dot then "."%char :: fp else []) ++ exp_text ex) ≫= radix_prefix = None)
    as Hr.
  { destruct ip as [|c' ip]; [|apply Forall_cons in Hip' as [Hc' _]; by apply radix_prefix_digit].
    destruct dot; [done|]. by destruct ex as [[[] ?]|]. }
  rewrite <-app_comm_cons, parse_literal_dec by done.
  rewrite app_comm_cons, (parse_unsigned_lit (c :: ip)) by (done || by constructor). done.
Qed.

Lemma round_double_int z : 0 <= z < 2 ^ 53 → round_double (inject_Z z) = Fin (inject_Z z).
Proof.
  intros Hz. destruct z as [|p|p]; [done| |lia].
  apply round_pos_int. lia.
Qed.

Lemma Number_decimal z : 0 <= z < 2 ^ 53 → Number (decimal z) = Fin (inject_Z z).
Proof.
  intros Hz. pose proof (Number_lit (decimal z) false [] None) as H.
  simpl in H. rewrite app_nil_r in H. rewrite H; auto using decimal_digits, decimal_not_nil.
  rewrite decimal_value by lia. unfold q_pow10. simpl. rewrite Z.mul_1_r.
  by apply round_double_int.
Qed.

Lemma decimal_value_pos s : 0 < s → digits_value 10 0 (decimal s) = s.
Proof. intros. apply decimal_value. lia. Qed.

Ltac lit_side :=
  repeat split; try done;
  repeat (apply Forall_app; split); auto using decimal_digits, zeros_digits, Forall_take, Forall_drop;
  try (let H := fresh in intros H; apply app_eq_nil in H as [H _]; exact (decimal_not_nil _ H));
  try (constructor; [eexists; reflexivity|constructor]); try apply decimal_not_nil.

(** Every layout of Number::toString reads back as [s * 10^(n-k)]: the
    digits, the point and the exponent of steps 6 to 10 are a
    StrDecimalLiteral of that value. *)
Lemma layout_value s k n :
  0 < s → k = Z.of_nat (length (decimal s)) →
  Number (layout s k n) = round_double (q_pow10 s (n - k)).
Proof.
  intros Hs Hk. pose proof (decimal_not_nil s) as Hne.
  assert (1 <= k) by (destruct (decimal s); simpl in *; [done|lia]).
  unfold layout.
  destruct ((k <=? n) && (n <=? 21)) eqn:H1; [apply andb_true_iff in H1|].
  { (* digits and trailing zeros *)
    pose proof (Number_lit ((decimal s) ++ zeros (n - k)) false [] None) as E. simpl in E.
    rewrite app_nil_r in E. rewrite E by lit_side.
    rewrite digits_value_app, digits_value_zeros, decimal_value_pos by done.
    unfold q_pow10. rewrite Z.max_r by lia. simpl. rewrite Z.mul_1_r.
    rewrite (proj2 (Z.leb_le 0 (n - k))) by lia. done. }
  apply andb_false_iff in H1. rewrite !Z.leb_gt in H1.
  destruct ((0 <? n) && (n <=? 21)) eqn:H2; [apply andb_true_iff in H2|].
  { (* a point inside the digits *)
    rewrite Z.ltb_lt, Z.leb_le in H2.
    pose proof (Number_lit (take (Z.to_nat n) (decimal s)) true (drop (Z.to_nat n) (decimal s)) None) as E.
    simpl in E. rewrite app_nil_r in E. cbn [String.list_ascii_of_string app].
    rewrite E by (lit_side; intros Ht; apply (f_equal length) in Ht;
                  rewrite length_take in Ht; cbn [length] in Ht; lia).
    rewrite <-digits_value_app, take_drop, decimal_value_pos, length_drop by done.
    f_equal. f_equal. lia. }
  apply andb_false_iff in H2. rewrite Z.ltb_ge, Z.leb_gt in H2.
  destruct ((-6 <? n) && (n <=? 0)) eqn:H3; [apply andb_true_iff in H3|].
  { (* leading zeros after [0.] *)
    rewrite Z.ltb_lt, Z.leb_le in H3.
    pose proof (Number_lit ["0"%char] true (zeros (- n) ++ (decimal s)) None) as E.
    simpl in E. rewrite app_nil_r in E. cbn [String.list_ascii_of_string app]. rewrite E by lit_side.
    change (0 * 10 + (Z.of_nat (code "0") - 48)) with 0.
    rewrite digits_value_app, digits_value_zeros, decimal_value_pos, length_app by done.
    unfold zeros. rewrite length_replicate. f_equal. f_equal. lia. }
  (* exponent notation *)
  set (ex := Some (negb (0 <=? n - 1), decimal (Z.abs (n - 1)))).
  assert ((if 0 <=? n - 1 then ⟪"e+"⟫ else ⟪"e-"⟫) ++ decimal (Z.abs (n - 1)) = exp_text ex) as Ee
    by (subst ex; by destruct (0 <=? n - 1)).
  assert (exp_value ex = n - 1) as Ev.
  { subst ex. simpl. rewrite decimal_value by lia. destruct (Z.leb_spec 0 (n - 1)); simpl; lia. }
  assert (exp_ok ex) as Eok by (split; auto using decimal_digits, decimal_not_nil).
  rewrite Ee. destruct (Z.eqb_spec k 1) as [->|Hk1].
  - pose proof (Number_lit (decimal s) false [] ex) as E. cbv iota beta in E.
    rewrite app_nil_l in E. rewrite E by lit_side.
    change (digits_value 10 (digits_value 10 0 (decimal s)) []) with (digits_value 10 0 (decimal s)).
    rewrite decimal_value_pos, Ev by done. f_equal. f_equal. simpl. lia.
  - pose proof (Number_lit (take 1 (decimal s)) true (drop 1 (decimal s)) ex) as E.
    cbv iota beta in E. rewrite <-app_comm_cons in E. cbn [String.list_ascii_of_string app].
    rewrite E by (lit_side; intros Ht; apply (f_equal length) in Ht;
                  rewrite length_take in Ht; cbn [length] in Ht; lia).
    rewrite <-digits_value_app, take_drop, decimal_value_pos, length_drop, Ev by done.
    f_equal. f_equal. lia.
Qed.

(** ** What [Number] returns *)

(** A value [Number] can return: never [null]; a finite value is in
    lowest terms and below [2^1024] in magnitude. *)
Definition double_value (x : number) : Prop :=
  match x with
  | Fin q => Qred q = q ∧ (Qabs q < inject_Z (2 ^ 1024))%Q
  | Null => False
  | _ => True
  end.

Lemma q_of_scaled_canonical m e : Qred (q_of_scaled m e) = q_of_scaled m e.
Proof. unfold q_of_scaled. case_match; [apply Qred_inject_Z|apply Qcanon.Qred_involutive]. Qed.

(** [m * 2^e] below [2^1024] when [m]'s leading bit is below bit [1024 - e]. *)
Lemma q_of_scaled_bound m e :
  0 < m → Z.log2 m + e < 1024 → (Qabs (q_of_scaled m e) < inject_Z (2 ^ 1024))%Q.
Proof.
  intros Hm He. assert (m < 2 ^ (Z.log2 m + 1)) by (apply Z.log2_spec; lia).
  unfold q_of_scaled. destruct (Z.leb_spec 0 e).
  - assert (0 <= m * 2 ^ e) by (apply Z.mul_nonneg_nonneg; lia).
    unfold Qabs, inject_Z, Qlt; simpl. rewrite Z.abs_eq by lia.
    assert (2 ^ (Z.log2 m + 1) * 2 ^ e <= 2 ^ 1024).
    { rewrite <-Z.pow_add_r by (pose proof (Z.log2_nonneg m); lia).
      apply Z.pow_le_mono_r; lia. }
    assert (0 < 2 ^ e) by (apply Z.pow_pos_nonneg; lia). nia.
  - assert (0 < 2 ^ (- e)) by (apply Z.pow_pos_nonneg; lia).
    rewrite (Qabs_wd _ _ (Qred_correct _)).
    unfold Qabs, Qlt; simpl. rewrite Z2Pos.id, Z.abs_eq by lia.
    assert (2 ^ (Z.log2 m + 1) <= 2 ^ 1024 * 2 ^ (- e)).
    { rewrite <-Z.pow_add_r by (pose proof (Z.log2_nonneg m); lia).
      apply Z.pow_le_mono_r; lia. }
    nia.
Qed.

Lemma round_pos_double a b : 0 < a → 0 < b → double_value (round_pos a b).
Proof.
  intros Ha Hb. unfold round_pos.
  set (e := Z.max (ilog2_q a b - 52) (-1074)).
  unfold scale2. set (n := a * 2 ^ Z.max 0 (- e)). set (d := b * 2 ^ Z.max 0 e).
  assert (0 < n) by (apply Z.mul_pos_pos; [done|apply Z.pow_pos_nonneg; lia]).
  assert (0 < d) by (apply Z.mul_pos_pos; [done|apply Z.pow_pos_nonneg; lia]).
  assert (0 <= div_rne n d).
  { unfold div_rne. pose proof (Z.div_pos n d). repeat case_match; lia. }
  destruct (Z.eqb_spec (div_rne n d) 0); [done|].
  destruct (Z.leb_spec 1024 (Z.log2 (div_rne n d) + e)); [done|].
  split; [apply q_of_scaled_canonical|apply q_of_scaled_bound; lia].
Qed.

Lemma round_double_double q : double_value (round_double q).
Proof.
  unfold round_double. destruct (Qnum q) as [|a|a]; [split; done| |].
  - apply round_pos_double; lia.
  - pose proof (round_pos_double (Zpos a) (Zpos (Qden q))) as H.
    destruct (round_pos _ _) as [| | |r|]; simpl in *; try done; [|apply H; lia].
    destruct H as [Hr Hb]; [lia|lia|]. split; [by rewrite Qred_opp, Hr|].
    eapply Qle_lt_trans; [apply Qle_lteq; right; apply Qabs_opp|exact Hb].
Qed.

Lemma Number_double s : double_value (Number s).
Proof.
  unfold Number. destruct (parse_literal (trim s)) as [[[]|m e]|]; simpl; try done.
  apply round_double_double.
Qed.

(** An integral value in lowest terms has denominator 1. *)
Lemma integral_den q :
  Qred q = q → Qeq_bool (inject_Z (Qfloor q)) q = true → Qden q = 1%positive.
Proof.
  intros Hr Hi. apply Qeq_bool_iff in Hi. unfold Qeq in Hi. simpl in Hi.
  pose proof (gcd_Qred q) as Hg. rewrite Hr in Hg.
  rewrite Z.mul_1_r in Hi. rewrite <-Hi, Z.gcd_comm, Z.mul_comm, Z.gcd_mul_diag_l in Hg by lia.
  by injection Hg.
Qed.

(** [ToString] then [Number] gives a safe integer back. *)
Lemma field_value_safe x : safe_int x = true → Number (field_value x) = x.
Proof.
  destruct x as [| | |[num den]|]; try discriminate. cbn [safe_int Qnum Qden].
  intros [[Hd%Pos.eqb_eq H0%Z.leb_le]%andb_true_iff H53%Z.ltb_lt]%andb_true_iff. subst den.
  destruct num as [|p|p]; [reflexivity| |lia].
  unfold field_value, number_toString. cbn [Qnum].
  change (Zpos p # 1) with (inject_Z (Zpos p)). rewrite Qred_inject_Z.
  unfold pos_toString. cbn [inject_Z Qnum Qden].
  replace ((Zpos 1 =? 1) && (Zpos p <? 2 ^ 53)) with true by (symmetry; apply Z.ltb_lt; lia).
  cbv iota. apply Number_decimal. lia.
Qed.

(** ** Theorems *)

(** C23: Showing the settings page and reading it back unchanged gives the
    options back when every number is a safe integer: [showConfig] prints
    it with ToString and [Number] parses the digits to the same double. *)
Theorem showConfig_roundtrip o :
  safe_int (opt_max o) && safe_int (opt_timeout o) && safe_int (opt_min o) = true →
  readForm (showConfig o) = o.
Proof.
  intros [[Hm Ht]%andb_true_iff Hn]%andb_true_iff.
  destruct o; unfold readForm, showConfig; simpl in *. by rewrite !field_value_safe.
Qed.

(** C26: A number field whose text is not a StringNumericLiteral reads as
    NaN and keeps the old value; an empty field reads as 0, which keeps
    the old [max] and [min] but sets [timeout] to 0. *)
Theorem readForm_invalid f old :
  let o := saveConfig (readForm f) old in
  (parse_literal (trim (f_max f)) = None → opt_max o = opt_max old) ∧
  (parse_literal (trim (f_timeout f)) = None → opt_timeout o = opt_timeout old) ∧
  (parse_literal (trim (f_min f)) = None → opt_min o = opt_min old) ∧
  (f_max f = [] → opt_max o = opt_max old) ∧
  (f_min f = [] → opt_min o = opt_min old) ∧
  (f_timeout f = [] → opt_timeout o = Fin 0).
Proof.
  unfold saveConfig, readForm, Number; simpl.
  split_and!; intros H; rewrite ?H; reflexivity.
Qed.

(** ** Witnesses *)

Lemma showConfig_roundtrip_witness :
  safe_int (opt_max default_options) && safe_int (opt_timeout default_options) &&
  safe_int (opt_min default_options) = true ∧
  readForm (showConfig default_options) = default_options.
Proof.
  assert (safe_int (opt_max default_options) && safe_int (opt_timeout default_options) &&
          safe_int (opt_min default_options) = true) as H by reflexivity.
  split; [exact H|]. exact (showConfig_roundtrip _ H).
Defined.

Definition typo_form : form := Fields true true false ⟪"1O0"⟫ [] ⟪"0x"⟫.

Lemma readForm_invalid_witness :
  parse_literal (trim (f_max typo_form)) = None ∧
  opt_max (saveConfig (readForm typo_form) default_options) = opt_max default_options ∧
  opt_timeout (saveConfig (readForm typo_form) default_options) = Fin 0.
Proof.
  assert (parse_literal (trim (f_max typo_form)) = None) as H by reflexivity.
  destruct (readForm_invalid typo_form default_options) as (Hm & _ & _ & _ & _ & Ht).
  split_and!; [exact H|exact (Hm H)|exact (Ht eq_refl)].
Defined.

End Form.
