(* ===== verification/Query.v ===== *)
(** * Query: the query compiler [makeRE] and [escapeRE] of deng.js

    [makeRE(search, options)] normalises the query with five [replace]
    calls, reads the anchors off a trailing space and the [*] wildcards,
    rejects a query shorter than [options.min] (returns [false], here
    [Ok None]), escapes the query and turns the escaped [\*] into [\S*],
    and builds [new RegExp('(' + start + search + end + ')', flags)].

    Every regular expression literal of the function is written out as a
    [Regex.regex].  The anchors [start] and [end] are fixed source strings
    of the code and are given by their parsed form; the query part is the
    only source text built at run time, so it is parsed by [parse_body],
    the RegExp constructor on the fragment that escaping produces.  The
    outer capturing group spans the whole pattern, so [match[1]] is the
    whole match. *)

From S2P Require Import Prelude Regex Options.
Import Regex Options.

Module Query.

(** ** The regular expressions of [makeRE] *)

Definition is_one_of (cs : text) (c : ascii) : bool := bool_decide (c ∈ cs).

(** [/[<>\[\]{}]/g] *)
Definition re_markup : jsregexp :=
  JSRegExp (RClass (is_one_of ⟪"<>[]{}"⟫)) true false.

(** [/::|\|/g] *)
Definition re_separators : jsregexp :=
  JSRegExp (RAlt (RStr ⟪"::"⟫) (RChar "|")) true false.

(** [/\s+/g] *)
Definition re_spaces : jsregexp := JSRegExp (RPlus is_space) true false.

(** [/^[ ,;:+']+/] *)
Definition re_leading : jsregexp :=
  JSRegExp (RSeq RBegin (RPlus (is_one_of ⟪" ,;:+'"⟫))) false false.

(** [/[ ,:-;']+$/]: the class holds the range [:-;], that is [:] and [;]. *)
Definition trailing_class (c : ascii) : bool :=
  is_char " " c || is_char "," c || in_range 58 59 c || is_char "'" c.
Definition re_trailing : jsregexp :=
  JSRegExp (RSeq (RPlus trailing_class) REnd) false false.

(** [/([\\{}()|.?*+\-\^$\[\]])/g] of [escapeRE] *)
Definition is_special (c : ascii) : bool := is_one_of ⟪"\{}()|.?*+-^$[]"⟫ c.
Definition re_special : jsregexp := JSRegExp (RClass is_special) true false.

(** [/\\\*/g] *)
Definition re_escaped_star : jsregexp := JSRegExp (RStr ⟪"\*"⟫) true false.

(** ** The pattern pieces *)

(** [start] with [options.start]: [(?:^| \| | :: |; )(?:to )?] *)
Definition start_anchor : regex :=
  RSeq (RAlt RBegin (RAlt (RStr ⟪" | "⟫) (RAlt (RStr ⟪" :: "⟫) (RStr ⟪"; "⟫))))
       (ROpt (RStr ⟪"to "⟫)).

(** [\S] *)
Definition not_space (c : ascii) : bool := negb (is_space c).

(** ECMAScript SyntaxCharacter: [^ $ \ . * + ? ( ) [ ] { } |]. *)
Definition is_syntax (c : ascii) : bool := is_one_of ⟪"^$\.*+?()[]{}|"⟫ c.

(** The RegExp constructor on the query part of the source: identity
    escapes [\c] of the characters [escapeRE] escapes, the class escape
    [\S] under [*], and plain characters.  Anything else is outside the
    fragment and refused ([None]). *)
Fixpoint parse_body (s : text) : option regex :=
  match s with
  | [] => Some REps
  | c :: rest =>
      if bool_decide (c = "\"%char) then
        match rest with
        | d :: rest' =>
            if bool_decide (d = "S"%char) then
              match rest' with
              | e :: rest'' =>
                  if bool_decide (e = "*"%char)
                  then RSeq (RStar not_space) <$> parse_body rest'' else None
              | [] => None
              end
            else if is_special d then RSeq (RChar d) <$> parse_body rest'
            else None
        | [] => None
        end
      else if is_syntax c then None
      else RSeq (RChar c) <$> parse_body rest
  end.

(** ** [escapeRE] and [makeRE] *)

(** [escapeRE(pattern)]: [pattern.replace(/([\\{}()|.?*+\-\^$\[\]])/g, '\\$1')] *)
Definition escapeRE (pattern : text) : text :=
  replace re_special (λ w, "\"%char :: w) pattern.

(** Lines 38-41: the four normalising replaces. *)
Definition normalize (search : text) : text :=
  let search := replace re_markup (λ _, []) search in
  let search := replace re_separators (λ _, [" "%char]) search in
  let search := replace re_spaces (λ _, [" "%char]) search in
  replace re_trailing (λ _, [" "%char]) (replace re_leading (λ _, []) search).

(** Lines 42-53: the anchors after the trailing space and the wildcards. *)
Definition anchors (start end_ : regex) (search : text) : regex * regex * text :=
  let '(end_, search) :=
    if bool_decide (last search = Some " "%char) then (RBound, removelast search)
    else (end_, search) in
  let '(start, search) :=
    if bool_decide (head search = Some "*"%char) then (REps, drop 1 search)
    else (start, search) in
  let '(end_, search) :=
    if bool_decide (last search = Some "*"%char) then (REps, removelast search)
    else (end_, search) in
  (start, end_, search).

Definition makeRE (search : text) (o : options) : result (option jsregexp) :=
  let start := if opt_start o then start_anchor else RBound in
  let end_ := if opt_end o then RBound else REps in
  let '(start, end_, search) := anchors start end_ (normalize search) in
  if num_lt (num_of_nat (length search)) (opt_min o) then Ok None
  else
    let search := escapeRE search in
    let search := replace re_escaped_star (λ _, ⟪"\S*"⟫) search in
    match parse_body search with
    | Some body => Ok (Some (JSRegExp (RSeq start (RSeq body end_)) false (opt_ignoreCase o)))
    | None => Throw SyntaxError
    end.

(** ** What the compiled query part means *)

(** The pattern the query [s] should become: [*] is [\S*], every other
    character stands for itself. *)
Definition glob_atom (c : ascii) : regex :=
  if bool_decide (c = "*"%char) then RStar not_space else RChar c.
Definition body_of (s : text) : regex := foldr (λ c r, RSeq (glob_atom c) r) REps s.

(** The text of the query after lines 38-53, the one [options.min] is
    compared with and which is escaped. *)
Definition query_text (search : text) : text := (anchors REps REps (normalize search)).2.

(** ** The abstract specification of a query

    What a user means by a query [s] of the search box: [w] matches [s]
    when each character of [s] matches one character of [w] (up to case
    under [ignoreCase]), and each [*] matches a run of non-space
    characters. *)
Fixpoint glob (ic : bool) (s w : text) : Prop :=
  match s with
  | [] => w = []
  | c :: s' =>
      if bool_decide (c = "*"%char)
      then ∃ u v, w = u ++ v ∧ Forall (λ x, not_space x = true) u ∧ glob ic s' v
      else ∃ d v, w = d :: v ∧ char_eq ic c d = true ∧ glob ic s' v
  end.

(** ** Lemmas *)

(** One character as [escapeRE] writes it. *)
Definition esc (c : ascii) : text := if is_special c then ["\"%char; c] else [c].
(** ... and after [\*] has become [\S*]. *)
Definition esc_star (c : ascii) : text :=
  if bool_decide (c = "*"%char) then ⟪"\S*"⟫ else esc c.

Lemma escapeRE_flat_map s : escapeRE s = flat_map esc s.
Proof.
  unfold escapeRE, replace. simpl. rewrite (gsub_class _ is_special); [|done].
  apply flat_map_ext. intros c. unfold esc. by destruct (is_special c).
Qed.

Lemma syntax_special c : is_syntax c = true → is_special c = true.
Proof.
  destruct c as [[] [] [] [] [] [] [] []]; vm_compute; congruence.
Qed.

Lemma special_backslash : is_special "\"%char = true.
Proof. reflexivity. Qed.
Lemma special_star : is_special "*"%char = true.
Proof. reflexivity. Qed.
Lemma not_special_S : is_special "S"%char = false.
Proof. reflexivity. Qed.

(** An escaped text never starts with [*]: the star is escaped. *)
Lemma esc_head s : head (flat_map esc s) ≠ Some "*"%char.
Proof.
  destruct s as [|c s]; [done|]. simpl. unfold esc.
  destruct (is_special c) eqn:E; simpl; [done|].
  intros [= ->]. by rewrite special_star in E.
Qed.

Lemma match_at_escaped_star_hit bef rest :
  match_at re_escaped_star bef ("\"%char :: "*"%char :: rest) =
    Some ("*"%char :: "\"%char :: bef, rest).
Proof. reflexivity. Qed.

Lemma match_at_escaped_star_miss bef x rest :
  (x ≠ "\"%char ∨ head rest ≠ Some "*"%char) →
  match_at re_escaped_star bef (x :: rest) = None.
Proof.
  intros Hx. unfold match_at. simpl. unfold char_eq.
  case_bool_decide as E1; [subst x|done].
  destruct rest as [|y rest]; [done|]. simpl in Hx.
  case_bool_decide; [subst y|done]. destruct Hx; congruence.
Qed.

Lemma esc_special c : is_special c = true → esc c = ["\"%char; c].
Proof. unfold esc. by intros ->. Qed.
Lemma esc_plain c : is_special c = false → esc c = [c].
Proof. unfold esc. by intros ->. Qed.

(** [replace(/\\\*/g, '\\S*')] on an escaped text rewrites exactly the
    escaped stars. *)
Lemma gsub_escaped_star bef s :
  gsub_at re_escaped_star (λ _, ⟪"\S*"⟫) bef (flat_map esc s) = flat_map esc_star s.
Proof.
  revert bef; induction s as [|c s IH]; intros bef; [done|].
  simpl. unfold esc_star at 1.
  case_bool_decide as Hc.
  - subst c. rewrite esc_special by done. simpl.
    rewrite gsub_at_step, match_at_escaped_star_hit.
    rewrite bool_decide_true by (simpl; lia).
    replace (length (flat_map esc s) + 2 - length (flat_map esc s)) with 2 by lia.
    simpl. by rewrite IH.
  - destruct (is_special c) eqn:Hs.
    + rewrite esc_special by done. simpl.
      rewrite gsub_at_step, match_at_escaped_star_miss by (right; simpl; congruence).
      f_equal. rewrite gsub_at_step, match_at_escaped_star_miss.
      * f_equal. apply IH.
      * destruct (decide (c = "\"%char)); [right; apply esc_head|by left].
    + rewrite esc_plain by done. simpl.
      rewrite gsub_at_step, match_at_escaped_star_miss.
      * f_equal. apply IH.
      * left. intros ->. by rewrite special_backslash in Hs.
Qed.

Lemma body_of_cons c s : body_of (c :: s) = RSeq (glob_atom c) (body_of s).
Proof. reflexivity. Qed.

Lemma parse_esc_star s : parse_body (flat_map esc_star s) = Some (body_of s).
Proof.
  induction s as [|c s IH]; [done|].
  rewrite body_of_cons. cbn [flat_map]. unfold esc_star at 1, glob_atom.
  case_bool_decide as Hc.
  - simpl. by rewrite IH.
  - destruct (is_special c) eqn:Hs.
    + rewrite esc_special by done. simpl.
      rewrite bool_decide_false by (intros ->; by rewrite not_special_S in Hs).
      by rewrite Hs, IH.
    + rewrite esc_plain by done. simpl.
      rewrite bool_decide_false by (intros ->; by rewrite special_backslash in Hs).
      destruct (is_syntax c) eqn:Hy; [by rewrite syntax_special in Hs|].
      by rewrite IH.
Qed.

(** Round trip of the escaping: escaping the query, rewriting [\*] to [\S*] and
    parsing the source gives back the query as a pattern, every character
    literal except [*]. *)
Theorem escape_roundtrip s :
  parse_body (replace re_escaped_star (λ _, ⟪"\S*"⟫) (escapeRE s)) = Some (body_of s).
Proof.
  rewrite escapeRE_flat_map. unfold replace. simpl.
  rewrite gsub_escaped_star. apply parse_esc_star.
Qed.

Lemma anchors_text start end_ s : (anchors start end_ s).2 = (anchors REps REps s).2.
Proof.
  unfold anchors. by repeat (case_bool_decide; simpl).
Qed.

(** [makeRE] as one equation, without the parse of the source. *)
Lemma makeRE_eq q o :
  makeRE q o =
    let '(start, end_, s) :=
      anchors (if opt_start o then start_anchor else RBound)
              (if opt_end o then RBound else REps) (normalize q) in
    if num_lt (num_of_nat (length s)) (opt_min o) then Ok None
    else Ok (Some (JSRegExp (RSeq start (RSeq (body_of s) end_)) false (opt_ignoreCase o))).
Proof.
  unfold makeRE. destruct (anchors _ _ _) as [[st en] s].
  destruct (num_lt _ _); [done|]. by rewrite escape_roundtrip.
Qed.

(** C1: [makeRE] never throws: it rejects a query whose normalised text
    [query_text q] is shorter than [options.min], and otherwise builds the
    pattern [start · body_of (query_text q) · end], in which every
    character of the text stands for itself and [*] for [\S*], with the
    [i] flag of the options and no [g] flag. *)
Theorem makeRE_spec q o :
  ∃ start end_,
    makeRE q o =
      if num_lt (num_of_nat (length (query_text q))) (opt_min o) then Ok None
      else Ok (Some (JSRegExp (RSeq start (RSeq (body_of (query_text q)) end_))
                              false (opt_ignoreCase o))).
Proof.
  rewrite makeRE_eq. unfold query_text.
  rewrite <-(anchors_text (if opt_start o then start_anchor else RBound)
                          (if opt_end o then RBound else REps)).
  destruct (anchors _ _ _) as [[st en] s]. by exists st, en.
Qed.

(** [makeRE] returns [false] exactly for a query whose normalised text is
    shorter than [options.min]. *)
Theorem makeRE_rejects q o :
  makeRE q o = Ok None ↔ num_lt (num_of_nat (length (query_text q))) (opt_min o) = true.
Proof.
  rewrite makeRE_eq. unfold query_text.
  rewrite <-(anchors_text (if opt_start o then start_anchor else RBound)
                          (if opt_end o then RBound else REps)).
  destruct (anchors _ _ _) as [[st en] s]. cbn [snd].
  destruct (num_lt (num_of_nat (length s)) (opt_min o)); split; intros; congruence.
Qed.

(** ** The normalised query *)

(** C12: The normalised query holds no markup bracket [<>[]{}], no bar and no
    white space other than the plain space: the first replace deletes the
    brackets, the second turns every bar into a space, the third every run
    of white space, and the trims only delete characters or write a
    space. *)
Theorem normalize_clean q :
  Forall (λ c, is_one_of ⟪"<>[]{}"⟫ c = false ∧ c ≠ "|"%char ∧ (is_space c = true → c = " "%char))
         (normalize q).
Proof.
  unfold normalize.
  set (s1 := replace re_markup (λ _, []) q).
  assert (Forall (λ c, is_one_of ⟪"<>[]{}"⟫ c = false) s1) as H1.
  { unfold s1. rewrite replace_global, (gsub_class _ (is_one_of ⟪"<>[]{}"⟫)) by reflexivity.
    induction q as [|c q IH]; simpl; [constructor|].
    destruct (is_one_of _ c) eqn:E; simpl; [done|by constructor]. }
  set (s2 := replace re_separators (λ _, [" "%char]) s1).
  assert (Forall (λ c, is_one_of ⟪"<>[]{}"⟫ c = false ∧ c ≠ "|"%char) s2) as H2.
  { apply Forall_and. split; [apply replace_Forall; [done|by repeat constructor]|].
    apply (replace_removes _ (λ c, c = "|"%char)); [done| |intros _; by repeat constructor].
    intros bef c aft' ->. eexists _, _. split; [reflexivity|simpl; lia]. }
  set (s3 := replace re_spaces (λ _, [" "%char]) s2).
  assert (Forall (λ c, (is_one_of ⟪"<>[]{}"⟫ c = false ∧ c ≠ "|"%char) ∧
                       ¬ (is_space c = true ∧ c ≠ " "%char)) s3) as H3.
  { apply Forall_and. split; [apply replace_Forall; [done|by repeat constructor]|].
    apply replace_removes; [done| |intros _; repeat constructor; by intros [_ ?]].
    intros bef c aft' [Hs _]. by apply (match_at_plus re_spaces is_space). }
  apply replace_Forall; [apply replace_Forall; [|by constructor]|].
  - apply (Forall_impl _ _ _ H3). intros c [[? ?] Hs]. split_and!; [done|done|].
    intros ?. destruct (decide (c = " "%char)); [done|]. by destruct Hs.
  - intros _. repeat constructor. discriminate.
Qed.

(** ** Refinement of the glob specification *)

(** The compiled query part matches exactly the texts the query means. *)
Lemma RMatch_body_of ic s bef aft b a :
  RMatch ic (body_of s) bef aft b a ↔
  ∃ w, aft = w ++ a ∧ b = rev w ++ bef ∧ glob ic s w.
Proof.
  revert bef aft; induction s as [|c s IH]; intros bef aft; simpl.
  - rewrite RMatch_eps. split; [intros [-> ->]; by exists []|].
    by intros (w & -> & -> & ->).
  - rewrite RMatch_seq. unfold glob_atom. setoid_rewrite IH.
    case_bool_decide.
    + setoid_rewrite RMatch_star. split.
      * intros (b1 & a1 & (u & -> & -> & Hu) & w & -> & -> & Hw).
        exists (u ++ w). rewrite rev_app_distr, <-!app_assoc. eauto 10.
      * intros (w & -> & -> & u & v & -> & Hu & Hv).
        exists (rev u ++ bef), (v ++ a). rewrite rev_app_distr, <-!app_assoc. eauto 10.
    + setoid_rewrite RMatch_char. split.
      * intros (b1 & a1 & (d & -> & -> & Hd) & w & -> & -> & Hw).
        exists (d :: w). simpl. rewrite <-app_assoc. eauto 10.
      * intros (w & -> & -> & d & v & -> & Hd & Hv).
        exists (d :: bef), (v ++ a). simpl. rewrite <-app_assoc. eauto 10.
Qed.

(** The anchors [makeRE] can choose with [start] off consume no text. *)
Definition empty_anchor (r : regex) : Prop := r = RBound ∨ r = REps.

Lemma RMatch_empty_anchor ic r bef aft b a :
  empty_anchor r → RMatch ic r bef aft b a → b = bef ∧ a = aft.
Proof. intros [-> | ->]; [rewrite RMatch_bound|rewrite RMatch_eps]; naive_solver. Qed.

Lemma anchors_empty start end_ s :
  empty_anchor start → empty_anchor end_ →
  empty_anchor (anchors start end_ s).1.1 ∧ empty_anchor (anchors start end_ s).1.2.
Proof.
  intros Hs He. unfold anchors, empty_anchor in *.
  repeat (case_bool_decide; simpl); auto.
Qed.

Lemma drop_app_take {A} (s w t : list A) i j :
  i ≤ j ≤ length s → drop i s = w ++ t → t = drop j s → take (j - i) (drop i s) = w.
Proof.
  intros Hij Hd Ht. apply (f_equal length) in Hd as Hl.
  rewrite length_drop, length_app, Ht, length_drop in Hl.
  rewrite Hd, take_app_length'; [done|lia].
Qed.

(** Whether an anchor that [makeRE] chooses with [start] off holds at
    position [i] of [s]: [\b] needs a word boundary, the empty anchor holds
    everywhere. *)
Definition anchor_holds (r : regex) (s : text) (i : nat) : bool :=
  match r with RBound => at_boundary (rev (take i s)) (drop i s) | _ => true end.

(** The anchors of the compiled query [q] hold around [s[i..j]]. *)
Definition anchors_hold (q : text) (o : options) (s : text) (i j : nat) : bool :=
  let '(st, en, _) := anchors RBound (if opt_end o then RBound else REps) (normalize q) in
  anchor_holds st s i && anchor_holds en s j.

Lemma RMatch_anchor_holds ic r s i :
  empty_anchor r → anchor_holds r s i = true →
  RMatch ic r (rev (take i s)) (drop i s) (rev (take i s)) (drop i s).
Proof. intros [-> | ->] H; by constructor. Qed.

Lemma RMatch_anchor_inv ic r s i b a :
  empty_anchor r → RMatch ic r (rev (take i s)) (drop i s) b a →
  b = rev (take i s) ∧ a = drop i s ∧ anchor_holds r s i = true.
Proof. intros [-> | ->] H; inversion H; subst; auto. Qed.

(** The piece [s[i..j]] between its context. *)
Lemma take_drop_piece {A} (s : list A) i j :
  i ≤ j ≤ length s →
  drop i s = take (j - i) (drop i s) ++ drop j s ∧
  rev (take (j - i) (drop i s)) ++ rev (take i s) = rev (take j s).
Proof.
  intros Hij. split.
  - rewrite <-(take_drop (j - i) (drop i s)) at 1. rewrite drop_drop.
    by replace (i + (j - i)) with j by lia.
  - rewrite <-rev_app_distr, take_take_drop. by replace (i + (j - i)) with j by lia.
Qed.

(** What a query means in a text: a piece of it that the glob
    specification of the query text accepts, with the anchors holding
    around it. *)
Definition occurs (q : text) (o : options) (s : text) : Prop :=
  ∃ i j, i ≤ j ≤ length s ∧ anchors_hold q o s i j = true ∧
    glob (opt_ignoreCase o) (query_text q) (take (j - i) (drop i s)).

(** Switching [end] off only weakens the end anchor: what a query means
    with [end] on it also means with [end] off. *)
Lemma anchors_hold_end_off q o o' s i j :
  opt_end o' = false → anchors_hold q o s i j = true → anchors_hold q o' s i j = true.
Proof.
  intros He'. unfold anchors_hold, anchors. rewrite He'.
  repeat (case_bool_decide; simpl); destruct (opt_end o); simpl; rewrite ?andb_true_r; auto.
  all: intros []%andb_true_iff; auto.
Qed.

Lemma occurs_end_off q o o' s :
  opt_end o' = false → opt_ignoreCase o' = opt_ignoreCase o → occurs q o s → occurs q o' s.
Proof.
  intros He Hi (i & j & Hij & Ha & Hg). exists i, j. rewrite Hi.
  eauto using anchors_hold_end_off.
Qed.

(** A query compiled with [start] off. *)
Section Compiled.
Variables (q : text) (o : options) (re : jsregexp).
Hypothesis Hstart : opt_start o = false.
Hypothesis Hcompiled : makeRE q o = Ok (Some re).

(** The pattern is the body of the query text between two anchors that
    consume nothing. *)
Lemma compiled_shape :
  ∃ st en, empty_anchor st ∧ empty_anchor en ∧
    re_source re = RSeq st (RSeq (body_of (query_text q)) en) ∧
    re_ignoreCase re = opt_ignoreCase o ∧
    ∀ s i j, anchors_hold q o s i j = anchor_holds st s i && anchor_holds en s j.
Proof.
  pose proof Hcompiled as Hre. rewrite makeRE_eq, Hstart in Hre.
  unfold query_text, anchors_hold.
  rewrite <-(anchors_text RBound (if opt_end o then RBound else REps)).
  destruct (anchors_empty RBound (if opt_end o then RBound else REps) (normalize q))
    as [Ha1 Ha2]; [by left|destruct (opt_end o); [left|right]; done|].
  destruct (anchors _ _ _) as [[st en] t]. simpl in *.
  destruct (num_lt _ _); [done|]. injection Hre as <-. by exists st, en.
Qed.

Lemma compiled_sound s i j :
  exec re s = Some (i, j) →
  i ≤ j ≤ length s ∧ anchors_hold q o s i j = true ∧
  glob (opt_ignoreCase o) (query_text q) (take (j - i) (drop i s)).
Proof.
  destruct compiled_shape as (st & en & Hst & Hen & Hsrc & Hic & Hah).
  intros He. destruct (exec_sound _ _ _ _ He) as (Hij & Hm & _).
  rewrite Hsrc, Hic in Hm. rewrite Hah.
  apply RMatch_seq in Hm as (b1 & a1 & H1 & Hm).
  apply RMatch_anchor_inv in H1 as (-> & -> & ->); [|done].
  apply RMatch_seq in Hm as (b2 & a2 & H2 & H3).
  destruct (RMatch_empty_anchor _ _ _ _ _ _ Hen H3) as [Hb Ha].
  rewrite <-Hb, <-Ha in H3. apply RMatch_anchor_inv in H3 as (_ & _ & ->); [|done].
  apply RMatch_body_of in H2 as (w & Hd & _ & Hw). rewrite <-Ha in Hd.
  by rewrite (drop_app_take s w (drop j s) i j).
Qed.

Lemma compiled_complete s i j :
  i ≤ j ≤ length s → anchors_hold q o s i j = true →
  glob (opt_ignoreCase o) (query_text q) (take (j - i) (drop i s)) →
  ∃ i' j', exec re s = Some (i', j') ∧ i' ≤ i.
Proof.
  destruct compiled_shape as (st & en & Hst & Hen & Hsrc & Hic & Hah).
  rewrite Hah. intros Hij [Hs He]%andb_true_iff Hg.
  destruct (take_drop_piece s i j Hij) as [Hd Hr].
  apply (exec_complete _ s i (rev (take j s)) (drop j s)); [lia|]. rewrite Hsrc, Hic.
  apply RM_seq with (rev (take i s)) (drop i s); [by apply RMatch_anchor_holds|].
  apply RM_seq with (rev (take j s)) (drop j s); [|by apply RMatch_anchor_holds].
  apply RMatch_body_of. by exists (take (j - i) (drop i s)).
Qed.

(** [re.test(s)] decides whether the query occurs in [s]. *)
Lemma compiled_test s : test re s = true ↔ occurs q o s.
Proof.
  unfold test, occurs. split.
  - destruct (exec re s) as [[i j]|] eqn:He; [|done]. intros _.
    exists i, j. by apply compiled_sound.
  - intros (i & j & Hij & Ha & Hg).
    by destruct (compiled_complete s i j Hij Ha Hg) as (? & ? & -> & _).
Qed.

End Compiled.

(** The pattern [makeRE] builds for a query under the default options (the
    concrete inputs of the examples of this development use it; the
    fallback is never taken for a query of at least three characters). *)
Definition default_re (q : text) : jsregexp :=
  match makeRE q default_options with
  | Ok (Some re) => re
  | _ => JSRegExp REps false false
  end.

(** [makeRE] with the default options, then [test]: [None] when the query
    is rejected. *)
Definition query_test (q s : text) : option bool :=
  match makeRE q default_options with
  | Ok (Some re) => Some (test re s)
  | _ => None
  end.

(** C2: With [start] off, the compiled query finds exactly what the query
    means.  Soundness: every match [exec] finds is a text the glob
    specification of the query text accepts (with case folding under
    [ignoreCase]), and the chosen anchors ([\b] at a word boundary) hold
    around it.  Completeness: wherever a piece of the text is such a text
    with the anchors holding around it, [exec] finds a match that starts
    there or earlier. *)
Theorem makeRE_glob q o re :
  opt_start o = false → makeRE q o = Ok (Some re) →
  (∀ s i j, exec re s = Some (i, j) →
     anchors_hold q o s i j = true ∧
     glob (opt_ignoreCase o) (query_text q) (take (j - i) (drop i s))) ∧
  (∀ s i j, i ≤ j ≤ length s → anchors_hold q o s i j = true →
     glob (opt_ignoreCase o) (query_text q) (take (j - i) (drop i s)) →
     ∃ i' j', exec re s = Some (i', j') ∧ i' ≤ i).
Proof.
  intros Hst Hre. split; [|by apply compiled_complete].
  intros s i j He. by apply (compiled_sound q o re Hst Hre) in He as (_ & ? & ?).
Qed.

(** Wildcards: [foo*] matches [foobar]; [foo] under the default end
    anchor does not; [* mouse] drops the start anchor and finds
    [little mouse] inside an entry; [ab] is shorter than [min = 3]. *)
Example wildcard_examples :
  query_test ⟪"foo*"⟫ ⟪"foobar"⟫ = Some true ∧
  query_test ⟪"foo"⟫ ⟪"foobar"⟫ = Some false ∧
  query_test ⟪"* mouse"⟫ ⟪"Maeuschen :: little mouse"⟫ = Some true ∧
  query_test ⟪"ab"⟫ ⟪"ab"⟫ = None.
Proof. vm_compute. auto. Qed.

(** C32: The trailing class [[ ,:-;']] of line 41 is the range from [:] to
    [;], not a hyphen: for every query that ends with [-], the hyphen
    survives all five replaces and the anchor logic, and the text [makeRE]
    compiles ends with it (the hyphen is then matched literally). *)
Theorem trailing_dash_kept q :
  last (query_text (q ++ ["-"%char])) = Some "-"%char.
Proof.
  unfold query_text, normalize.
  destruct (replace_snoc re_markup (is_one_of ⟪"<>[]{}"⟫) "-" (λ _, []) q) as [t1 ->];
    [apply consumes_class|done|].
  destruct (replace_snoc re_separators (is_one_of ⟪":|"⟫) "-" (λ _, [" "%char]) t1) as [t2 ->];
    [apply consumes_alt; [apply consumes_str; [done|by repeat constructor]|by apply consumes_char]|done|].
  destruct (replace_snoc re_spaces is_space "-" (λ _, [" "%char]) t2) as [t3 ->];
    [apply consumes_plus|done|].
  destruct (replace_snoc re_leading (is_one_of ⟪" ,;:+'"⟫) "-" (λ _, []) t3) as [t4 ->];
    [apply consumes_begin, consumes_plus|done|].
  destruct (replace_snoc re_trailing trailing_class "-" (λ _, [" "%char]) t4) as [t5 ->];
    [apply consumes_end, consumes_plus|done|].
  unfold anchors. rewrite last_snoc, bool_decide_false by done.
  destruct t5 as [|x t5]; [reflexivity|]. cbn [head app].
  case_bool_decide; [cbn [drop]; rewrite drop_0|rewrite app_comm_cons];
    rewrite last_snoc, bool_decide_false by done; cbn [snd]; apply last_snoc.
Qed.

Lemma num_lt_null n : num_lt (num_of_nat n) Null = false.
Proof.
  unfold num_lt, num_of_nat. simpl. apply negb_false_iff, Qle_bool_iff.
  change 0%Q with (inject_Z 0). rewrite <-Zle_Qle. lia.
Qed.

(** C29: With [min = null] (what [getOptions] returns after [min] was set to
    [Infinity]) [makeRE] rejects no query, not even the empty one. *)
Theorem makeRE_min_null q o : opt_min o = Null → ∃ re, makeRE q o = Ok (Some re).
Proof.
  intros Hmin. rewrite makeRE_eq, Hmin. destruct (anchors _ _ _) as [[st en] s].
  rewrite num_lt_null. eauto.
Qed.

Lemma makeRE_min_null_witness :
  opt_min (Options false true true (num_of_nat 100) (num_of_nat 2000) Null) = Null ∧
  ∃ re, makeRE [] (Options false true true (num_of_nat 100) (num_of_nat 2000) Null) = Ok (Some re).
Proof. split; [reflexivity|]. by apply makeRE_min_null. Defined.

Lemma makeRE_glob_witness :
  opt_start default_options = false ∧
  makeRE ⟪"f*r"⟫ default_options = Ok (Some (default_re ⟪"f*r"⟫)) ∧
  exec (default_re ⟪"f*r"⟫) ⟪"Foobar baz"⟫ = Some (0, 6) ∧
  glob true (query_text ⟪"f*r"⟫) (take (6 - 0) (drop 0 ⟪"Foobar baz"⟫)) ∧
  anchors_hold ⟪"f*r"⟫ default_options ⟪"Foobar baz"⟫ 0 6 = true ∧
  ∃ i' j', exec (default_re ⟪"f*r"⟫) ⟪"Foobar baz"⟫ = Some (i', j') ∧ i' ≤ 0.
Proof.
  assert (makeRE ⟪"f*r"⟫ default_options = Ok (Some (default_re ⟪"f*r"⟫))) as H1
    by (vm_compute; reflexivity).
  assert (exec (default_re ⟪"f*r"⟫) ⟪"Foobar baz"⟫ = Some (0, 6)) as H2
    by (vm_compute; reflexivity).
  assert (anchors_hold ⟪"f*r"⟫ default_options ⟪"Foobar baz"⟫ 0 6 = true) as H3
    by (vm_compute; reflexivity).
  pose proof (makeRE_glob _ default_options _ eq_refl H1) as [Hs Hc].
  pose proof (Hs _ _ _ H2) as [_ Hg].
  split_and!; [reflexivity|exact H1|exact H2|exact Hg|exact H3|].
  apply (Hc _ 0 6); [simpl; lia|exact H3|exact Hg].
Defined.

End Query.
