(* ===== verification/Weight.v ===== *)
(** * Weight: the scorer [getWeight] of deng.js

    [getWeight(entry, search)] removes the annotations [(...)], [[...]],
    [{...}], [<...>] and double spaces from the entry, looks for the first
    match of the compiled query, and adds up: 1 for a match, 4 when the
    match begins a unit (start of the entry, or after [" | "], [" :: "] or
    ["; "], optionally followed by ["to "]), 2 when it ends one (end of the
    entry, or before a separator), 1 when the query also matches the first
    sub-entry of either side (the headword).  The headword test reads
    [parts[1]], which is [undefined] for an entry without [" :: "]: the
    TypeError is modelled as [Throw TypeError]. *)

From S2P Require Import Prelude Regex Options Query.
Import Regex Options Query.

Module Weight.

(** ** The regular expressions of [getWeight] *)

(** [o[^c]*c] *)
Definition bracket (o c : ascii) : regex :=
  RSeq (RChar o) (RSeq (RStar (λ x, negb (is_char c x))) (RChar c)).

(** [/\([^)]*\)|\[[^\]]*\]|\{[^}]*\}|<[^>]*>/g] *)
Definition re_annotation : jsregexp :=
  JSRegExp (RAlt (bracket "(" ")") (RAlt (bracket "[" "]")
           (RAlt (bracket "{" "}") (bracket "<" ">")))) true false.

(** [/ {2,}/g] *)
Definition re_double_space : jsregexp :=
  JSRegExp (RSeq (RChar " ") (RPlus (is_char " "))) true false.

(** [(?: \| | :: |; )] *)
Definition separator : regex :=
  RAlt (RStr ⟪" | "⟫) (RAlt (RStr ⟪" :: "⟫) (RStr ⟪"; "⟫)).

(** [/(?: \| | :: |; )(?:to )?$/] *)
Definition re_unit_start : jsregexp :=
  JSRegExp (RSeq separator (RSeq (ROpt (RStr ⟪"to "⟫)) REnd)) false false.

(** [/^(?: \| | :: |; )/] *)
Definition re_unit_end : jsregexp := JSRegExp (RSeq RBegin separator) false false.

(** ** [getWeight] *)

(** Line 102: the entry without annotations and double spaces. *)
Definition clean (entry : text) : text :=
  replace re_double_space (λ _, [" "%char]) (replace re_annotation (λ _, []) entry).

(** [l[0]] of a [split] result (never empty, [split_not_nil]). *)
Definition first (l : list text) : text := default [] (l !! 0).

Definition getWeight (entry : text) (search : jsregexp) : result nat :=
  let entry := clean entry in
  match exec search entry with
  | None => Ok 0
  | Some (index, last) =>
      (* match.index and match.index + match[1].length *)
      let weight := 1 in
      let weight :=
        if bool_decide (index = 0) || test re_unit_start (take index entry)
        then weight + 4 else weight in
      let weight :=
        if bool_decide (last = length entry) || test re_unit_end (drop last entry)
        then weight + 2 else weight in
      let parts := split sides_sep entry in
      if test search (first (split subs_sep (first parts))) then Ok (weight + 1)
      else
        match parts !! 1 with
        | Some part1 =>
            if test search (first (split subs_sep part1)) then Ok (weight + 1) else Ok weight
        | None => Throw TypeError
        end
  end.

(** ** The boundary tests as plain conditions *)

Definition separators : list text := [⟪" | "⟫; ⟪" :: "⟫; ⟪"; "⟫].

(** The text before the match ends a separator, optionally followed by
    ["to "]. *)
Definition begins_unit (pre : text) : Prop :=
  ∃ sep, sep ∈ separators ∧ (sep `suffix_of` pre ∨ (sep ++ ⟪"to "⟫) `suffix_of` pre).

(** The text after the match starts with a separator. *)
Definition ends_unit (post : text) : Prop :=
  ∃ sep, sep ∈ separators ∧ sep `prefix_of` post.

#[export] Instance begins_unit_dec pre : Decision (begins_unit pre).
Proof.
  refine (cast_if (decide (Exists (λ sep, sep `suffix_of` pre ∨ (sep ++ ⟪"to "⟫) `suffix_of` pre)
                                  separators)));
    unfold begins_unit; rewrite Exists_exists in *; naive_solver.
Defined.

#[export] Instance ends_unit_dec post : Decision (ends_unit post).
Proof.
  refine (cast_if (decide (Exists (λ sep, sep `prefix_of` post) separators)));
    unfold ends_unit; rewrite Exists_exists in *; naive_solver.
Defined.

(** The first sub-entry of a side of the entry (the headword of side 0
    and its translation on side 1) matches the query. *)
Definition headword (re : jsregexp) (entry : text) : Prop :=
  ∃ k side, k < 2 ∧ split sides_sep entry !! k = Some side ∧
            test re (first (split subs_sep side)) = true.

(** The relevance model of the spec (section 4.3), as an abstract
    specification: no match weighs 0; a match weighs 1, plus 4 when it
    begins a unit, plus 2 when it ends one, plus 1 when the query matches
    a headword. *)
Definition weight_spec (entry : text) (re : jsregexp) (w : nat) : Prop :=
  let e := clean entry in
  match exec re e with
  | None => w = 0
  | Some (i, j) =>
      (w = 1 + (if bool_decide (i = 0 ∨ begins_unit (take i e)) then 4 else 0)
             + (if bool_decide (j = length e ∨ ends_unit (drop j e)) then 2 else 0)
             + 1 ∧ headword re e) ∨
      (w = 1 + (if bool_decide (i = 0 ∨ begins_unit (take i e)) then 4 else 0)
             + (if bool_decide (j = length e ∨ ends_unit (drop j e)) then 2 else 0)
       ∧ ¬ headword re e)
  end.

Lemma RMatch_separator bef aft b a :
  RMatch false separator bef aft b a ↔
  ∃ sep, sep ∈ separators ∧ aft = sep ++ a ∧ b = rev sep ++ bef.
Proof.
  unfold separator, separators. rewrite !RMatch_alt, !RMatch_str. split.
  - intros [H|[H|H]]; eexists; (split; [|exact H]); set_solver.
  - intros (sep & Hsep & H).
    repeat (apply elem_of_cons in Hsep as [->|Hsep]; [tauto|]).
    by apply elem_of_nil in Hsep.
Qed.

(** A match at position [i] of [s], [i] counted from the start. *)
Lemma suffix_at (s t : text) :
  t `suffix_of` s ↔ ∃ i, i ≤ length s ∧ drop i s = t.
Proof.
  split.
  - intros [k ->]. exists (length k). rewrite drop_app_length, length_app. split; [lia|done].
  - intros (i & _ & <-). exists (take i s). by rewrite take_drop.
Qed.

(** [/(?: \| | :: |; )(?:to )?$/.test(pre)] holds exactly when [pre] ends
    with a separator, or a separator and ["to "]. *)
Lemma unit_start_spec pre : test re_unit_start pre = true ↔ begins_unit pre.
Proof.
  rewrite test_spec. unfold begins_unit, re_unit_start. cbn [re_source re_ignoreCase].
  setoid_rewrite suffix_at.
  setoid_rewrite RMatch_seq. setoid_rewrite RMatch_separator.
  setoid_rewrite RMatch_seq. unfold ROpt. setoid_rewrite RMatch_alt.
  setoid_rewrite RMatch_str. setoid_rewrite RMatch_eps. setoid_rewrite RMatch_end.
  split.
  - intros (i & b & a & Hi & b1 & a1 & (sep & Hsep & Hd & ->) & b2 & a2 &
            [[-> ->]|[-> ->]] & -> & -> & ->).
    + exists sep. split; [done|right]. exists i. by rewrite Hd, app_nil_r.
    + exists sep. split; [done|left]. exists i. by rewrite Hd, app_nil_r.
  - intros (sep & Hsep & [(i & Hi & Hd)|(i & Hi & Hd)]).
    + exists i. eexists _, []. split; [done|].
      eexists _, []. split; [exists sep; rewrite Hd, app_nil_r; by split|].
      eexists _, []. split; [by right|]. done.
    + exists i. eexists _, []. split; [done|].
      eexists _, ⟪"to "⟫. split; [exists sep; by rewrite Hd|].
      eexists _, []. split; [left; by split|]. done.
Qed.

(** [/^(?: \| | :: |; )/.test(post)] holds exactly when [post] starts with
    a separator. *)
Lemma unit_end_spec post : test re_unit_end post = true ↔ ends_unit post.
Proof.
  rewrite test_spec. unfold ends_unit, re_unit_end. cbn [re_source re_ignoreCase].
  setoid_rewrite RMatch_seq. setoid_rewrite RMatch_begin. setoid_rewrite RMatch_separator.
  split.
  - intros (i & b & a & Hi & b1 & a1 & (Hb & -> & ->) & sep & Hsep & Hd & ->).
    exists sep. split; [done|]. exists a.
    destruct i; [by rewrite <-Hd|]. destruct post; [simpl in Hi; lia|].
    exfalso. apply (f_equal length) in Hb. simpl in Hb. rewrite length_app in Hb.
    simpl in Hb. lia.
  - intros (sep & Hsep & [k ->]). exists 0. eexists _, k. split; [lia|].
    eexists [], _. split; [done|]. exists sep. done.
Qed.

(** ** Weights and errors *)

Lemma split_second_None sep t : split sep t !! 1 = None ↔ split sep t = [t].
Proof.
  split; [|by intros ->].
  pose proof (join_split sep t) as Hj. pose proof (split_not_nil sep t) as Hn.
  destruct (split sep t) as [|p [|p' ps]]; simpl in *; [done| |done].
  by intros _; subst.
Qed.

Lemma first_single (t : text) : first [t] = t.
Proof. reflexivity. Qed.

(** C5: A weight is at most 8 (1 + 4 + 2 + 1), and it is 0 exactly when the
    compiled query does not match the cleaned entry.  The bound is reached:
    the headword [gehen] of [gehen :: go] starts the entry, ends before
    [" :: "], and is the first sub-entry. *)
Theorem getWeight_bounds :
  (∀ entry re w, getWeight entry re = Ok w →
     w ≤ 8 ∧ (w = 0 ↔ exec re (clean entry) = None)) ∧
  getWeight ⟪"gehen :: go"⟫ (default_re ⟪"gehen"⟫) = Ok 8.
Proof.
  split; [|vm_compute; reflexivity]. intros entry re w.
  unfold getWeight. destruct (exec re (clean entry)) as [[i j]|].
  - intros H. repeat case_match; simplify_eq; (split; [lia|split; intros; [lia|congruence]]).
  - intros H. simplify_eq. split; [lia|split; intros; reflexivity].
Qed.

(** C16: [getWeight] throws exactly when the query matches the cleaned entry,
    the entry has no [" :: "] (so [parts[1]] is [undefined]), and the
    query misses the first sub-entry of the whole line. *)
Theorem getWeight_throws entry re err :
  getWeight entry re = Throw err ↔
  err = TypeError ∧ is_Some (exec re (clean entry)) ∧
  split sides_sep (clean entry) = [clean entry] ∧
  test re (first (split subs_sep (clean entry))) = false.
Proof.
  unfold getWeight. destruct (exec re (clean entry)) as [[i j]|]; [|naive_solver].
  destruct (split sides_sep (clean entry) !! 1) as [p1|] eqn:E1.
  - split; [by repeat case_match|]. intros (_ & _ & E2 & _). by rewrite E2 in E1.
  - apply split_second_None in E1 as E2. rewrite E2, first_single.
    destruct (test re (first (split subs_sep (clean entry)))); naive_solver.
Qed.

Lemma getWeight_TypeError entry search e : getWeight entry search = Throw e → e = TypeError.
Proof. unfold getWeight. by repeat case_match; intros [= <-]. Qed.

(** ** Termination of [clean] *)

(** ** [getWeight] implements the relevance model *)

Lemma start_bonus_iff i e :
  (bool_decide (i = 0) || test re_unit_start (take i e)) =
  bool_decide (i = 0 ∨ begins_unit (take i e)).
Proof.
  apply Bool.eq_iff_eq_true. rewrite orb_true_iff, !bool_decide_eq_true, unit_start_spec.
  done.
Qed.

Lemma end_bonus_iff j e :
  (bool_decide (j = length e) || test re_unit_end (drop j e)) =
  bool_decide (j = length e ∨ ends_unit (drop j e)).
Proof.
  apply Bool.eq_iff_eq_true. rewrite orb_true_iff, !bool_decide_eq_true, unit_end_spec.
  done.
Qed.

Lemma split_first sep t : split sep t !! 0 = Some (first (split sep t)).
Proof. pose proof (split_not_nil sep t). unfold first. by destruct (split sep t). Qed.

Lemma headword_iff re e :
  headword re e ↔
  test re (first (split subs_sep (first (split sides_sep e)))) = true ∨
  ∃ p1, split sides_sep e !! 1 = Some p1 ∧ test re (first (split subs_sep p1)) = true.
Proof.
  unfold headword. split.
  - intros ([|[|k]] & side & Hk & Hs & Ht); [|by eauto|lia].
    left. rewrite split_first in Hs. by injection Hs as ->.
  - intros [H|(p1 & H1 & H)]; [exists 0, (first (split sides_sep e))|exists 1, p1];
      rewrite ?split_first; auto.
Qed.

(** C6: Where [getWeight] returns, it returns the weight of the relevance
    model: 0 without a match, otherwise 1 + 4 (the match begins a unit)
    + 2 (it ends one) + 1 (the query matches a headword). *)
Theorem getWeight_refines entry re w :
  getWeight entry re = Ok w → weight_spec entry re w.
Proof.
  unfold getWeight, weight_spec. destruct (exec re (clean entry)) as [[i j]|]; [|congruence].
  rewrite start_bonus_iff, end_bonus_iff, headword_iff.
  set (b4 := if bool_decide _ then _ else _). set (b2 := if bool_decide _ then _ else _).
  destruct (test re (first (split subs_sep (first (split sides_sep (clean entry)))))) eqn:E0.
  - intros [= <-]. left. split; [|by left]. subst b4 b2. repeat case_bool_decide; simpl; lia.
  - destruct (split sides_sep (clean entry) !! 1) as [p1|] eqn:E1; [|done].
    destruct (test re (first (split subs_sep p1))) eqn:E2; intros [= <-].
    + left. split; [|right; eauto]. subst b4 b2. repeat case_bool_decide; simpl; lia.
    + right. split; [subst b4 b2; repeat case_bool_decide; simpl; lia|].
      intros [?|(p1' & H1 & H2)]; [congruence|]. simplify_eq. congruence.
Qed.

(** ** Examples *)

Lemma getWeight_bounds_witness :
  getWeight ⟪"gehen :: go"⟫ (default_re ⟪"gehen"⟫) = Ok 8 ∧
  (8 ≤ 8 ∧ (8 = 0 ↔ exec (default_re ⟪"gehen"⟫) (clean ⟪"gehen :: go"⟫) = None)).
Proof.
  split; [vm_compute; reflexivity|].
  apply (proj1 getWeight_bounds ⟪"gehen :: go"⟫ (default_re ⟪"gehen"⟫) 8). vm_compute. reflexivity.
Defined.

Lemma getWeight_refines_witness :
  getWeight ⟪"laufen | gehen :: run | walk"⟫ (default_re ⟪"gehen"⟫) = Ok 7 ∧
  weight_spec ⟪"laufen | gehen :: run | walk"⟫ (default_re ⟪"gehen"⟫) 7.
Proof.
  assert (getWeight ⟪"laufen | gehen :: run | walk"⟫ (default_re ⟪"gehen"⟫) = Ok 7) as H
    by (vm_compute; reflexivity).
  split; [exact H|]. exact (getWeight_refines _ _ _ H).
Defined.

End Weight.
