(* ===== verification/Format.v ===== *)
(** * Format: [formatEntry] and [formatLine] of deng.js

    [formatLine(line, highlight)] splits an entry at [" :: "] into its two
    sides and each side at [" | "] into sub-entries, pairs the [i]-th
    sub-entry of side 0 with [line[1][i]], and, when the first pair does
    not match the query, keeps only the first pair and the matching ones
    and marks the rows open.  Each row gets the class [only-line],
    [main-line] or [sub-line], and its two cells are rendered by
    [formatEntry], which escapes [&], wraps [<...>] in [<small>],
    [[...]] and [{...}] in [<i>], and the first match of the query in
    [<mark>].

    JavaScript values that may be [undefined] are [option text]:
    [line[1][i]] is [undefined] when side 1 has fewer sub-entries, a test
    on it converts it to the string ["undefined"], and [formatEntry] on it
    reads [undefined.replace] and throws.  [line[1]] itself is [undefined]
    for an entry without [" :: "]. *)

From S2P Require Import Prelude Regex Options Query.
Import Regex Options Query.

Module Format.

(** ** [contains] and [formatEntry] *)

(** [ToString] of a value that is a string or [undefined]. *)
Definition js_string (v : option text) : text := default ⟪"undefined"⟫ v.

(** [contains(text, re)]: [re.test(text)]. *)
Definition contains (v : option text) (re : jsregexp) : bool := test re (js_string v).

(** [/&/g] *)
Definition re_amp : jsregexp := JSRegExp (RChar "&") true false.

(** [/<(...)>/g] with the group [[^<>]*]: group 1 is the match without the brackets. *)
Definition re_angle : jsregexp :=
  JSRegExp (RSeq (RChar "<") (RSeq (RStar (λ c, negb (is_char "<" c || is_char ">" c)))
                                   (RChar ">"))) true false.

(** [/(\[[^\[\]]+\]|\{[^\{\}]+\})/g]; its group 1 is the whole match. *)
Definition re_optional : jsregexp :=
  JSRegExp (RAlt (RSeq (RChar "[") (RSeq (RPlus (λ c, negb (is_char "[" c || is_char "]" c)))
                                         (RChar "]")))
                 (RSeq (RChar "{") (RSeq (RPlus (λ c, negb (is_char "{" c || is_char "}" c)))
                                         (RChar "}")))) true false.

(** The text between the first and the last character of a match. *)
Definition inner (w : text) : text := removelast (drop 1 w).

Definition formatEntry (entry : option text) (highlight : jsregexp) : result text :=
  match entry with
  | None => Throw TypeError
  | Some entry =>
      let entry := replace re_amp (λ _, ⟪"&amp;"⟫) entry in
      let entry := replace re_angle (λ w, ⟪"<small>&lt;"⟫ ++ inner w ++ ⟪"&gt;</small>"⟫) entry in
      let entry := replace re_optional (λ w, ⟪"<i>"⟫ ++ w ++ ⟪"</i>"⟫) entry in
      Ok (replace highlight (λ w, ⟪"<mark>"⟫ ++ w ++ ⟪"</mark>"⟫) entry)
  end.

(** ** [formatLine] *)

(** [Array.prototype.filter] with a callback that reads the index. *)
Fixpoint ifilter_go {A} (p : nat → A → bool) (i : nat) (l : list A) : list A :=
  match l with
  | [] => []
  | x :: l => if p i x then x :: ifilter_go p (S i) l else ifilter_go p (S i) l
  end.
Definition ifilter {A} (p : nat → A → bool) (l : list A) : list A := ifilter_go p 0 l.

(** Lines 76-81: the aligned pairs [[side0[i], side1[i]]]. *)
Definition line_pairs (line : text) : result (list (text * option text)) :=
  let parts := map (split subs_sep) (split sides_sep line) in
  let side0 := default [] (parts !! 0) in
  match parts !! 1 with
  | Some side1 => Ok (imap (λ i l, (l, side1 !! i)) side0)
  | None => match side0 with [] => Ok [] | _ :: _ => Throw TypeError end
  end.

(** Lines 82-87: whether the line opens, and the pairs that are shown.
    [line[0][0]] on an empty [line] reads a property of [undefined]. *)
Definition visible_pairs (pairs : list (text * option text)) (highlight : jsregexp)
    : result (bool * list (text * option text)) :=
  match pairs with
  | [] => Throw TypeError
  | (l0, r0) :: _ =>
      if negb (contains (Some l0) highlight) && negb (contains r0 highlight) then
        Ok (true, ifilter (λ i l, bool_decide (i = 0) || contains (Some l.1) highlight
                                                    || contains l.2 highlight) pairs)
      else Ok (false, pairs)
  end.

(** Lines 89-93: the class of row [i] of [n]. *)
Definition row_class (open : bool) (n i : nat) : text :=
  let cls := if bool_decide (i = 0)
             then (if bool_decide (n = 1) then ⟪"only-line"⟫ else ⟪"main-line"⟫)
             else ⟪"sub-line"⟫ in
  cls ++ ⟪" "⟫ ++ (if open then ⟪"open"⟫ else ⟪"closed"⟫).

(** Lines 94-96 *)
Definition render_row (cls : text) (l : text * option text) (highlight : jsregexp) : result text :=
  de ← formatEntry (Some l.1) highlight;
  en ← formatEntry l.2 highlight;
  Ok (⟪"<tr class="⟫ ++ [dquote] ++ cls ++ [dquote] ++ ⟪">"⟫ ++
      ⟪"<td lang="⟫ ++ [dquote] ++ ⟪"de"⟫ ++ [dquote] ++ ⟪">"⟫ ++ de ++ ⟪"</td>"⟫ ++
      ⟪"<td lang="⟫ ++ [dquote] ++ ⟪"en"⟫ ++ [dquote] ++ ⟪">"⟫ ++ en ++ ⟪"</td></tr>"⟫).

Definition formatLine (line : text) (highlight : jsregexp) : result text :=
  pairs ← line_pairs line;
  match visible_pairs pairs highlight with
  | Throw e => Throw e
  | Ok (open, shown) =>
      rows ← mapM (λ '(i, l), render_row (row_class open (length shown) i) l highlight)
                  (imap pair shown);
      Ok (mjoin rows)
  end.

(** ** Lemmas *)

Lemma ifilter_go_shift {A} (p : nat → A → bool) (q : A → bool) i l :
  (∀ j y, p (S j) y = q y) → ifilter_go p (S i) l = filter q l.
Proof.
  intros Hpq. revert i; induction l as [|x l IH]; intros i; [done|]. simpl.
  rewrite filter_cons, Hpq. destruct (q x); simpl; by rewrite IH.
Qed.

(** A filter that always keeps index 0 keeps the head, then filters. *)
Lemma ifilter_first {A} (p : nat → A → bool) (q : A → bool) x l :
  p 0 x = true → (∀ j y, p (S j) y = q y) → ifilter p (x :: l) = x :: filter q l.
Proof. intros H0 Hpq. unfold ifilter. simpl. rewrite H0. by rewrite (ifilter_go_shift _ q). Qed.

Definition pair_matches (re : jsregexp) (l : text * option text) : bool :=
  contains (Some l.1) re || contains l.2 re.

(** ** Which sub-lines are shown *)

Lemma visible_pairs_cons p0 ps re :
  visible_pairs (p0 :: ps) re =
    Ok (if pair_matches re p0 then (false, p0 :: ps)
        else (true, p0 :: filter (pair_matches re) ps)).
Proof.
  destruct p0 as [l0 r0]. unfold visible_pairs, pair_matches. simpl.
  destruct (contains (Some l0) re), (contains r0 re); simpl; try done.
  rewrite (ifilter_first _ (λ l, contains (Some l.1) re || contains l.2 re)); [done..|].
  intros j y. reflexivity.
Qed.

(** C11: When the first pair (the headword) matches, every pair is shown and
    the line is closed; otherwise the line is open and shows the first
    pair and, in order, the other pairs that match.  Without any pair the
    read of [line[0][0]] throws. *)
Theorem visible_pairs_spec pairs re :
  visible_pairs pairs re =
    match pairs with
    | [] => Throw TypeError
    | p0 :: ps =>
        Ok (if pair_matches re p0 then (false, p0 :: ps)
            else (true, p0 :: filter (pair_matches re) ps))
    end.
Proof. destruct pairs as [|p0 ps]; [done|]. apply visible_pairs_cons. Qed.

(** ** Parsing the entry grammar *)

(** A well-formed entry: one [" :: "], and as many sub-entries on each side. *)
Definition well_formed (line : text) : Prop :=
  ∃ s0 s1, split sides_sep line = [s0; s1] ∧
           length (split subs_sep s0) = length (split subs_sep s1).

Lemma imap_fst {A B} (g : nat → A → B) (l : list A) : map fst (imap (λ i x, (x, g i x)) l) = l.
Proof. apply list_eq. intros i. rewrite list_lookup_fmap, list_lookup_imap. by destruct (l !! i). Qed.

Lemma map_imap {A B C} (g : B → C) (f : nat → A → B) (l : list A) :
  map g (imap f l) = imap (λ i x, g (f i x)) l.
Proof. revert f; induction l as [|x l IH]; intros f; [done|]. rewrite !imap_cons. simpl. by rewrite IH. Qed.

Lemma imap_aligned {A} (l0 : list A) (l1 : list A) (d : A) :
  length l0 = length l1 → imap (λ i _, default d (l1 !! i)) l0 = l1.
Proof.
  intros Hlen. apply list_eq. intros i. rewrite list_lookup_imap.
  destruct (l0 !! i) eqn:E0; simpl.
  - assert (i < length l1) as [y Hy]%lookup_lt_is_Some by (rewrite <-Hlen; by apply lookup_lt_Some in E0).
    by rewrite Hy.
  - apply lookup_ge_None in E0. symmetry. apply lookup_ge_None. lia.
Qed.

(** C15: A well-formed entry is parsed into aligned pairs with no [undefined]
    side, and joining the pairs back gives the entry: the grammar is
    read losslessly. *)
Theorem line_pairs_roundtrip line :
  well_formed line →
  ∃ pairs, line_pairs line = Ok pairs ∧ Forall (λ p, is_Some p.2) pairs ∧
    join sides_sep [join subs_sep (map fst pairs);
                   join subs_sep (map (λ p, default [] p.2) pairs)] = line.
Proof.
  intros (s0 & s1 & Hs & Hlen). unfold line_pairs. rewrite Hs. simpl in *.
  eexists. split; [done|]. split.
  - apply Forall_lookup. intros i [l r] Hi. rewrite list_lookup_imap in Hi. simpl.
    apply fmap_Some in Hi as (l0 & E0 & Hi). injection Hi as -> ->. simpl.
    apply lookup_lt_is_Some. rewrite <-Hlen. by apply lookup_lt_Some in E0.
  - rewrite imap_fst, map_imap. simpl. rewrite (imap_aligned _ _ [] Hlen).
    rewrite !join_split. pose proof (join_split sides_sep line) as Hj.
    simpl in Hj |- *. rewrite Hs in Hj. exact Hj.
Qed.

Lemma line_pairs_not_nil line pairs : line_pairs line = Ok pairs → pairs ≠ [].
Proof.
  unfold line_pairs. rewrite !list_lookup_fmap.
  pose proof (split_not_nil sides_sep line) as Hn.
  destruct (split sides_sep line) as [|p0 [|p1 ps]]; simpl; [done| |].
  - pose proof (split_not_nil subs_sep p0). by destruct (split subs_sep p0).
  - intros [= <-]. pose proof (split_not_nil subs_sep p0).
    destruct (split subs_sep p0); [done|]. by rewrite imap_cons.
Qed.

(** ** Errors *)

Lemma render_row_throws cls l re e : render_row cls l re = Throw e ↔ e = TypeError ∧ l.2 = None.
Proof.
  destruct l as [l0 [r0|]]; unfold render_row; simpl; [split; [done|naive_solver]|].
  split; [by intros [= <-]|]. by intros [-> _].
Qed.

Lemma line_pairs_throws line e :
  line_pairs line = Throw e ↔ e = TypeError ∧ split sides_sep line = [line].
Proof.
  unfold line_pairs. rewrite list_lookup_fmap.
  pose proof (join_split sides_sep line) as Hj. pose proof (split_not_nil sides_sep line) as Hn.
  destruct (split sides_sep line) as [|p0 [|p1 ps]]; simpl in *;
    [done| |split; [done|by intros [_ ?]]].
  subst p0. pose proof (split_not_nil subs_sep line).
  destruct (split subs_sep line); [done|].
  split; [by intros [= <-]|by intros [-> _]].
Qed.

(** C17: [formatLine] throws (a TypeError) exactly when the entry has no
    [" :: "], or a shown pair has no side-1 sub-entry. *)
Theorem formatLine_throws line re e :
  formatLine line re = Throw e ↔
  e = TypeError ∧
  (split sides_sep line = [line] ∨
   ∃ pairs open shown l, line_pairs line = Ok pairs ∧ visible_pairs pairs re = Ok (open, shown) ∧
                         l ∈ shown ∧ l.2 = None).
Proof.
  unfold formatLine. destruct (line_pairs line) as [pairs|e'] eqn:Hp; simpl.
  - pose proof (line_pairs_not_nil _ _ Hp) as Hne.
    destruct pairs as [|p0 ps]; [done|]. rewrite visible_pairs_cons.
    set (vis := if pair_matches re p0 then _ else _). destruct vis as [open shown] eqn:Hv.
    assert (visible_pairs (p0 :: ps) re = Ok (open, shown)) as Hvis
      by (rewrite visible_pairs_cons; fold vis; by rewrite Hv).
    destruct (mapM _ _) as [rows|e''] eqn:Hm; simpl.
    + split; [done|]. intros [-> [Hs|(pairs' & open' & shown' & l & Hpp & Hvv & Hl & Hnone)]].
      * assert (line_pairs line = Throw TypeError) by (by apply line_pairs_throws). congruence.
      * rewrite ?Hp in Hpp. injection Hpp as <-. rewrite Hvis in Hvv. injection Hvv as <- <-.
        apply list_elem_of_lookup in Hl as [i Hi].
        assert (mapM (λ '(i, l), render_row (row_class open (length shown) i) l re)
                  (imap pair shown) = Throw TypeError) as Ht; [|congruence].
        apply mapM_result_Throw; [intros [??] ?; rewrite render_row_throws; by intros [? _]|].
        exists (i, l). split; [|by apply render_row_throws].
        apply list_elem_of_lookup. exists i. by rewrite list_lookup_imap, Hi.
    + apply mapM_result_Throw_inv in Hm as ([i l] & Hin & Hr).
      apply render_row_throws in Hr as [-> Hnone].
      apply list_elem_of_lookup in Hin as [k Hk]. rewrite list_lookup_imap in Hk.
      destruct (shown !! k) as [l'|] eqn:Hl; simplify_eq/=.
      split; [intros [= <-]|by intros [-> _]].
      split; [done|right]. exists (p0 :: ps), open, shown, l. split_and!; [done|done| |done].
      apply list_elem_of_lookup. eauto.
  - rewrite line_pairs_throws in Hp. destruct Hp as [-> Hs].
    split; [intros [= <-]; auto|]. intros [-> _]. done.
Qed.

(** ** Every formatted line has a row *)

Lemma render_row_not_nil cls l re t : render_row cls l re = Ok t → t ≠ [].
Proof.
  unfold render_row. destruct (formatEntry (Some l.1) re); [|done].
  rewrite result_bind_Ok_l. destruct (formatEntry l.2 re); [|done].
  rewrite result_bind_Ok_l. by intros [= <-].
Qed.

Lemma formatLine_not_nil line re t : formatLine line re = Ok t → t ≠ [].
Proof.
  unfold formatLine. destruct (line_pairs line) as [pairs|] eqn:Hp; [|done].
  rewrite result_bind_Ok_l. apply line_pairs_not_nil in Hp.
  destruct pairs as [|p0 ps]; [done|]. rewrite visible_pairs_cons.
  destruct (pair_matches re p0);
    (destruct (mapM _ _) as [rows|] eqn:Hm; [|done]); rewrite result_bind_Ok_l;
    intros [= <-]; apply mapM_result_Ok in Hm; rewrite imap_cons in Hm;
    inversion Hm as [|? r ? ? Hr _]; subst; simpl;
    apply render_row_not_nil in Hr; by destruct r.
Qed.

(** ** Examples *)

Lemma line_pairs_roundtrip_witness :
  well_formed ⟪"laufen | gehen :: run | go"⟫ ∧
  ∃ pairs, line_pairs ⟪"laufen | gehen :: run | go"⟫ = Ok pairs ∧
    Forall (λ p, is_Some p.2) pairs ∧
    join sides_sep [join subs_sep (map fst pairs);
                    join subs_sep (map (λ p, default [] p.2) pairs)] = ⟪"laufen | gehen :: run | go"⟫.
Proof.
  assert (well_formed ⟪"laufen | gehen :: run | go"⟫) as H.
  { exists ⟪"laufen | gehen"⟫, ⟪"run | go"⟫. split; vm_compute; reflexivity. }
  split; [exact H|]. exact (line_pairs_roundtrip _ H).
Defined.

End Format.
