(* ===== verification/Rank.v ===== *)
(** * Rank: [formatResult] of deng.js, the filter-weigh-sort-truncate pipeline

    [formatResult(entries, search, options)] keeps the entries the
    compiled query matches, pairs each with its weight and its position
    among the matches, sorts with the comparator
    [(b[1] - a[1]) || (a[2] - b[2])] (heavier first, ties in corpus order),
    cuts the list to [options.max] by assigning [result.length], and
    renders the rows of every entry with [formatLine].

    [Array.prototype.sort] is implementation-defined in its algorithm; for
    a consistent comparator ECMAScript fixes the result to be a sorted
    permutation.  The class [ArraySort] states exactly that, the ranking
    and its theorems are generic in it (Section [Ranking]), stdpp's
    [merge_sort] is the instance the examples run, and [sort_unique]
    shows that every conforming engine returns the same order.  Assigning [result.length] a value that is not
    an array length throws a RangeError. *)

From S2P Require Import Prelude Regex Options Query Weight Format.
Import Regex Options Query Weight Format.

Module Rank.

(** [[entry, getWeight(entry, search), i]] *)
Record ranked : Type := Ranked {
  r_entry : text;
  r_weight : nat;
  r_index : nat
}.

(** The comparator as an order: [a] may precede [b] when the comparator
    of [(a, b)] is not positive. *)
Definition rank_le (a b : ranked) : Prop :=
  r_weight b < r_weight a ∨ (r_weight a = r_weight b ∧ r_index a ≤ r_index b).

#[export] Instance rank_le_dec : RelDecision rank_le.
Proof. intros a b. unfold rank_le. solve_decision. Defined.

(** Lines 134-136 *)
Definition weigh (search : jsregexp) (matches : list text) : result (list ranked) :=
  mapM (λ '(i, entry), w ← getWeight entry search; Ok (Ranked entry w i))
       (imap pair matches).

(** [array.length = n] on a shorter target length: only a value whose
    ToUint32 equals its ToNumber is an array length ([null] is 0). *)
Definition set_length {A} (l : list A) (n : number) : result (list A) :=
  match n with
  | Fin q =>
      if Qeq_bool (inject_Z (Qfloor q)) q && Qle_bool 0 q
      then Ok (take (Z.to_nat (Qfloor q)) l) else Throw RangeError
  | Null => Ok []
  | _ => Throw RangeError
  end.

(** ** The engine's sort

    What ECMAScript requires of [Array.prototype.sort(comparefn)] when the
    comparator is consistent: the result is a permutation of the array,
    sorted by the order the comparator defines.  The algorithm is the
    engine's choice, so the ranking below is generic in it; stdpp's merge
    sort is one instance. *)
Class ArraySort : Type := {
  js_sort {A} (R : relation A) `{!RelDecision R} : list A → list A;
  js_sort_perm {A} (R : relation A) `{!RelDecision R} (l : list A) : js_sort R l ≡ₚ l;
  js_sort_sorted {A} (R : relation A) `{!RelDecision R, !Total R, !Transitive R} (l : list A) :
    StronglySorted R (js_sort R l)
}.

#[export] Instance merge_sort_ArraySort : ArraySort.
Proof.
  refine {| js_sort A R _ := merge_sort R |}.
  - intros A R ? l. apply merge_sort_Permutation.
  - intros A R ? ? ? l. by apply StronglySorted_merge_sort.
Defined.

Section Ranking.
Context {sort_impl : ArraySort}.

Lemma js_sort_nil {A} (R : relation A) `{!RelDecision R} : js_sort R [] = [].
Proof. apply Permutation_nil, Permutation_sym, js_sort_perm. Qed.

(** Lines 129-147: the entries to show and whether more are available. *)
Definition rankEntries (entries : list text) (search : jsregexp) (o : options)
    : result (list text * bool) :=
  let result := filter (λ entry, contains (Some entry) search) entries in
  weighted ← weigh search result;
  let result := map r_entry (js_sort rank_le weighted) in
  if num_lt (opt_max o) (num_of_nat (length result)) then
    truncated ← set_length result (opt_max o);
    Ok (truncated, true)
  else Ok (result, false).

(** Lines 148-153 *)
Definition formatResult (entries : list text) (search : jsregexp) (o : options) : result text :=
  match rankEntries entries search o with
  | Throw e => Throw e
  | Ok (result, more) =>
      rows ← mapM (λ entry, formatLine entry search) result;
      let html : text := mjoin rows in
      Ok (match html with
          | [] => ⟪"<p>No result</p>"⟫
          | _ :: _ =>
              ⟪"<table>"⟫ ++ html ++ ⟪"</table>"⟫ ++
              (if more then ⟪"<p>More results available</p>"⟫ else [])
          end)
  end.

(** ** The order of the comparator *)

#[export] Instance rank_le_trans : Transitive rank_le.
Proof. intros a b c. unfold rank_le. lia. Qed.

#[export] Instance rank_le_total : Total rank_le.
Proof. intros a b. unfold rank_le. lia. Qed.

Lemma NoDup_map_eq {A B} (f : A → B) (l : list A) x y :
  NoDup (map f l) → x ∈ l → y ∈ l → f x = f y → x = y.
Proof.
  induction l as [|a l IH]; simpl; [by intros _ ?%elem_of_nil|].
  rewrite NoDup_cons, !elem_of_cons. intros [Ha Hnd] Hx Hy Hf.
  destruct Hx as [->|Hx], Hy as [->|Hy]; [done| | |by apply IH].
  - destruct Ha. rewrite Hf. by apply list_elem_of_In, in_map, list_elem_of_In.
  - destruct Ha. rewrite <-Hf. by apply list_elem_of_In, in_map, list_elem_of_In.
Qed.

(** [weigh] keeps the entries in order, numbers them [0, 1, ...], and
    records their weights. *)
Lemma weigh_spec search ms ws :
  weigh search ms = Ok ws →
  map r_entry ws = ms ∧ map r_index ws = seq 0 (length ms) ∧
  Forall (λ r, getWeight (r_entry r) search = Ok (r_weight r)) ws.
Proof.
  unfold weigh. intros Hw%mapM_result_Ok.
  assert (∀ k, ∃ e r, ms !! k = Some e ∧ ws !! k = Some r ∧
                 r_entry r = e ∧ r_index r = k ∧ getWeight e search = Ok (r_weight r)
           ∨ ms !! k = None ∧ ws !! k = None) as Hk.
  { intros k. apply Forall2_lookup with (i := k) in Hw.
    rewrite list_lookup_imap in Hw. destruct (ms !! k) as [e|] eqn:Ek; simpl in Hw.
    - destruct (ws !! k) as [r|] eqn:Er; inversion Hw as [?? Hr|]; subst.
      simpl in Hr. destruct (getWeight e search) as [w|] eqn:Eg; simpl in Hr; [|done].
      injection Hr as <-. exists e, (Ranked e w k). left. eauto.
    - destruct (ws !! k) eqn:Er; inversion Hw. exists [], (Ranked [] 0 0). right. done. }
  split_and!.
  - apply list_eq. intros k. rewrite list_lookup_fmap.
    destruct (Hk k) as (e & r & [(-> & -> & <- & _)|(-> & ->)]); done.
  - apply list_eq. intros k. rewrite list_lookup_fmap.
    destruct (Hk k) as (e & r & [(He & -> & _ & <- & _)|(He & ->)]).
    + apply lookup_lt_Some in He. by rewrite lookup_seq_lt.
    + apply lookup_ge_None in He. by rewrite lookup_seq_ge.
  - apply Forall_lookup. intros k r Hr.
    destruct (Hk k) as (e & r' & [(_ & Hr' & <- & _ & Hg)|(_ & ?)]); [|congruence].
    rewrite Hr in Hr'. by simplify_eq.
Qed.

Lemma weigh_NoDup search ms ws : weigh search ms = Ok ws → NoDup (map r_index ws).
Proof. intros (_ & -> & _)%weigh_spec. apply NoDup_seq. Qed.

(** ** Sorting *)

(** C7: The matches are sorted: heavier entries first, and among entries of
    the same weight the one earlier in the corpus first (the comparator is
    explicit about ties, so this holds whatever sort algorithm runs). *)
Theorem rank_order search ms ws l1 x l2 y l3 :
  weigh search ms = Ok ws →
  js_sort rank_le ws = l1 ++ x :: l2 ++ y :: l3 →
  r_weight y ≤ r_weight x ∧ (r_weight x = r_weight y → r_index x < r_index y).
Proof.
  intros Hw Hs.
  pose proof (js_sort_sorted rank_le ws) as Hsorted. rewrite Hs in Hsorted.
  apply StronglySorted_app in Hsorted as (_ & _ & Hsorted).
  apply StronglySorted_cons in Hsorted as [Hx _].
  rewrite Forall_app, Forall_cons in Hx. destruct Hx as (_ & Hxy & _).
  pose proof (weigh_NoDup _ _ _ Hw) as Hnd.
  rewrite <-(js_sort_perm rank_le ws), Hs in Hnd.
  rewrite map_app in Hnd. apply NoDup_app in Hnd as (_ & _ & Hnd).
  simpl in Hnd. apply NoDup_cons in Hnd as [Hni _].
  assert (r_index x ≠ r_index y).
  { intros Heq. apply Hni. rewrite Heq, map_app. apply list_elem_of_In, in_or_app.
    right. left. done. }
  unfold rank_le in Hxy. lia.
Qed.

(** C8: [Array.prototype.sort] with this comparator has one possible result:
    any sorted permutation of the weighted matches is what the engine's
    sort returns, whichever conforming algorithm it runs. *)
Theorem sort_unique search ms ws l :
  weigh search ms = Ok ws →
  StronglySorted rank_le l → l ≡ₚ ws → l = js_sort rank_le ws.
Proof.
  intros Hw Hl Hp. pose proof (weigh_NoDup _ _ _ Hw) as Hnd.
  pose proof (js_sort_sorted rank_le ws) as Hs.
  pose proof (js_sort_perm rank_le ws) as Hm.
  apply (StronglySorted_unique_strong rank_le); [|done|done|by rewrite Hp, Hm].
  intros x1 x2 Hx1 Hx2 H12 H21. rewrite Hp in Hx1. rewrite Hm in Hx2.
  apply (NoDup_map_eq r_index ws); [done..|].
  unfold rank_le in H12, H21. lia.
Qed.

(** ** Truncation *)

Lemma set_length_nat {A} (l : list A) n : set_length l (num_of_nat n) = Ok (take n l).
Proof.
  unfold set_length, num_of_nat. rewrite Qfloor_Z, Nat2Z.id.
  rewrite (proj2 (Qeq_bool_iff _ _)) by reflexivity.
  rewrite (proj2 (Qle_bool_iff _ _)); [done|].
  change 0%Q with (inject_Z 0). rewrite <-Zle_Qle. lia.
Qed.

Definition matches (entries : list text) (search : jsregexp) : list text :=
  filter (λ entry, contains (Some entry) search) entries.

(** [rankEntries] with [max = n], in terms of the weighed matches. *)
Lemma rankEntries_take entries search o n out more :
  opt_max o = num_of_nat n →
  rankEntries entries search o = Ok (out, more) →
  ∃ ws, weigh search (matches entries search) = Ok ws ∧
    out = take n (map r_entry (js_sort rank_le ws)) ∧
    (more = true ↔ n < length ws).
Proof.
  intros Hmax H. unfold rankEntries in H. fold (matches entries search) in H.
  destruct (weigh search (matches entries search)) as [ws|e] eqn:Hw; [|done].
  rewrite result_bind_Ok_l, Hmax, num_lt_of_nat, length_map in H.
  rewrite (Permutation_length (js_sort_perm rank_le ws)) in H.
  exists ws. split; [done|]. destruct (Nat.ltb_spec n (length ws)).
  - rewrite set_length_nat, result_bind_Ok_l in H. injection H as <- <-.
    split; [done|]. split; [done|lia].
  - injection H as <- <-. rewrite take_ge; [split; [done|]; split; [done|lia]|].
    rewrite length_map, (Permutation_length (js_sort_perm rank_le ws)). lia.
Qed.

Lemma sorted_entries_perm search ms ws :
  weigh search ms = Ok ws → map r_entry (js_sort rank_le ws) ≡ₚ ms.
Proof.
  intros Hw. destruct (weigh_spec _ _ _ Hw) as (<- & _).
  by rewrite (js_sort_perm rank_le ws).
Qed.

(** Assigning [length] only cuts the array. *)
Lemma set_length_take {A} (l t : list A) n : set_length l n = Ok t → ∃ k, t = take k l.
Proof.
  unfold set_length. destruct n; try done.
  - destruct (_ && _); [|done]. intros [= <-]. eauto.
  - intros [= <-]. by exists 0.
Qed.

(** Whatever [max] is, the entries shown are matches, and all of them
    when no "More results" is announced. *)
Lemma rankEntries_matches entries search o out more :
  rankEntries entries search o = Ok (out, more) →
  (∀ e, e ∈ out → e ∈ matches entries search) ∧
  (more = false → out ≡ₚ matches entries search).
Proof.
  unfold rankEntries. fold (matches entries search).
  destruct (weigh search (matches entries search)) as [ws|e] eqn:Hw; [|done].
  rewrite result_bind_Ok_l. pose proof (sorted_entries_perm _ _ _ Hw) as Hp.
  destruct (num_lt _ _).
  - destruct (set_length _ _) as [t|] eqn:Hs; [|done]. simpl. intros [= <- <-].
    destruct (set_length_take _ _ _ Hs) as [k ->]. split; [|done].
    intros e [i [Hi _]]%elem_of_take. rewrite <-Hp. by eapply list_elem_of_lookup_2.
  - intros [= <- <-]. split; [|done]. intros e. by rewrite Hp.
Qed.

(** C9: With [max = n]: the result is the first [n] of the sorted matches (a
    permutation of the matches), it has [min n (#matches)] entries, and
    [more] says whether matches were cut. *)
Theorem rankEntries_truncate entries search o n out more :
  opt_max o = num_of_nat n →
  rankEntries entries search o = Ok (out, more) →
  ∃ ws, weigh search (matches entries search) = Ok ws ∧
    map r_entry (js_sort rank_le ws) ≡ₚ matches entries search ∧
    out = take n (map r_entry (js_sort rank_le ws)) ∧
    length out = min n (length (matches entries search)) ∧
    (more = true ↔ n < length (matches entries search)).
Proof.
  intros Hmax Hr. destruct (rankEntries_take _ _ _ _ _ _ Hmax Hr) as (ws & Hw & -> & Hmore).
  pose proof (sorted_entries_perm _ _ _ Hw) as Hp.
  assert (length ws = length (matches entries search)) as Hl.
  { destruct (weigh_spec _ _ _ Hw) as (Hm & _). by rewrite <-Hm, length_map. }
  exists ws. split_and!; [done|done|done| |by rewrite <-Hl].
  by rewrite length_take, Hp.
Qed.

(** ** Errors *)

(** C18: One entry that matches the query and has no [" :: "] (and whose first
    sub-entry misses the query) makes [getWeight] throw, and the whole
    search with it: nothing is shown. *)
Theorem formatResult_malformed entries search o entry :
  entry ∈ entries → contains (Some entry) search = true →
  getWeight entry search = Throw TypeError →
  formatResult entries search o = Throw TypeError.
Proof.
  intros Hin Hc Hg. unfold formatResult, rankEntries.
  assert (weigh search (filter (λ entry, contains (Some entry) search) entries)
          = Throw TypeError) as ->; [|done].
  apply mapM_result_Throw.
  - intros [i e] e'. simpl. destruct (getWeight e search) eqn:E; simpl; [done|].
    intros [= <-]. by apply getWeight_TypeError in E.
  - assert (entry ∈ filter (λ entry, contains (Some entry) search) entries) as [i Hi]%list_elem_of_lookup
      by (apply list_elem_of_filter; auto).
    exists (i, entry). split.
    + apply list_elem_of_lookup. exists i. by rewrite list_lookup_imap, Hi.
    + simpl. by rewrite Hg.
Qed.

(** ** "No result" *)

Lemma mjoin_not_nil (rows : list text) :
  rows ≠ [] → Forall (λ r, r ≠ []) rows → mjoin rows ≠ [].
Proof. destruct rows as [|r rs]; [done|]. intros _ Hf. inversion Hf. simpl. by destruct r. Qed.

(** C10: With a positive [max], the page says "No result" exactly when no
    entry matches the query. *)
Theorem formatResult_no_result entries search o n html :
  opt_max o = num_of_nat (S n) →
  formatResult entries search o = Ok html →
  (html = ⟪"<p>No result</p>"⟫ ↔ matches entries search = []).
Proof.
  intros Hmax. unfold formatResult.
  destruct (rankEntries entries search o) as [[out more]|] eqn:Hr; [|done].
  destruct (rankEntries_take _ _ _ _ _ _ Hmax Hr) as (ws & Hw & Hout & _).
  destruct (weigh_spec _ _ _ Hw) as (Hms & _).
  destruct (mapM _ out) as [rows|] eqn:Hm; [|done]. rewrite result_bind_Ok_l.
  intros [= <-]. apply mapM_result_Ok in Hm.
  destruct out as [|e out].
  - inversion Hm. subst. simpl. split; [intros _|done].
    rewrite <-Hms. destruct ws as [|w ws]; [done|].
    pose proof (js_sort_perm rank_le (w :: ws)) as Hp.
    destruct (js_sort rank_le (w :: ws)); [|done].
    by apply Permutation_nil_l in Hp.
  - assert (mjoin rows ≠ []) as Hne.
    { apply mjoin_not_nil; [by inversion Hm|].
      apply Forall_forall. intros r Hrin.
      apply Forall2_Forall_r with (Q := λ r, r ≠ []) in Hm; [rewrite Forall_forall in Hm; by apply Hm|].
      apply Forall_forall. intros x _ y. apply formatLine_not_nil. }
    destruct (mjoin rows) as [|c cs]; [done|]. split; [done|].
    intros Hnil. rewrite Hnil in Hms. apply map_eq_nil in Hms as ->.
    by rewrite js_sort_nil in Hout.
Qed.

(** [result.length = null] empties the list of results. *)
Lemma rankEntries_null_max entries search o out more :
  opt_max o = Null → rankEntries entries search o = Ok (out, more) → out = [].
Proof.
  intros Hmax. unfold rankEntries.
  destruct (weigh search _) as [ws|] eqn:Hw; [|done]. rewrite result_bind_Ok_l, Hmax.
  change (num_lt Null) with (num_lt (num_of_nat 0)). rewrite num_lt_of_nat.
  destruct (Nat.ltb_spec 0 (length (map r_entry (js_sort rank_le ws)))) as [_|Hlen].
  - simpl. by intros [= <- _].
  - destruct (map r_entry (js_sort rank_le ws)); [|simpl in Hlen; lia]. by intros [= <- _].
Qed.

(** C30: With [max = null] (what [getOptions] returns after [max] was set to
    [Infinity]) the result list is cut to length 0: every search shows
    "No result". *)
Theorem formatResult_null_max entries search o html :
  opt_max o = Null → formatResult entries search o = Ok html → html = ⟪"<p>No result</p>"⟫.
Proof.
  intros Hmax. unfold formatResult.
  destruct (rankEntries entries search o) as [[out more]|] eqn:Hr; [|done].
  rewrite (rankEntries_null_max _ _ _ _ _ Hmax Hr). simpl. by intros [= <-].
Qed.

End Ranking.

(** ** Examples *)

(** The corpus of the spec's example: [Haus :: house] and
    [Mäuschen :: little mouse] (with the Latin-1 code unit of [ä]). *)
Definition example_corpus : list text :=
  [⟪"Haus :: house"⟫; ⟪"M"⟫ ++ [ascii_of_nat 228] ++ ⟪"uschen :: little mouse"⟫].

Definition tie_corpus : list text := [⟪"Haus :: house"⟫; ⟪"Haus | Heim :: house | home"⟫].

Lemma rank_order_witness :
  weigh (default_re ⟪"haus"⟫) tie_corpus =
    Ok [Ranked ⟪"Haus :: house"⟫ 8 0; Ranked ⟪"Haus | Heim :: house | home"⟫ 8 1] ∧
  js_sort rank_le [Ranked ⟪"Haus :: house"⟫ 8 0; Ranked ⟪"Haus | Heim :: house | home"⟫ 8 1] =
    [] ++ Ranked ⟪"Haus :: house"⟫ 8 0 :: [] ++ Ranked ⟪"Haus | Heim :: house | home"⟫ 8 1 :: [] ∧
  (8 ≤ 8 ∧ (8 = 8 → 0 < 1)).
Proof.
  assert (weigh (default_re ⟪"haus"⟫) tie_corpus =
    Ok [Ranked ⟪"Haus :: house"⟫ 8 0; Ranked ⟪"Haus | Heim :: house | home"⟫ 8 1]) as H1
    by (vm_compute; reflexivity).
  assert (js_sort rank_le [Ranked ⟪"Haus :: house"⟫ 8 0; Ranked ⟪"Haus | Heim :: house | home"⟫ 8 1] =
    [] ++ Ranked ⟪"Haus :: house"⟫ 8 0 :: [] ++ Ranked ⟪"Haus | Heim :: house | home"⟫ 8 1 :: []) as H2
    by (vm_compute; reflexivity).
  split; [exact H1|]. split; [exact H2|]. exact (rank_order _ _ _ _ _ _ _ _ H1 H2).
Defined.

Lemma sort_unique_witness :
  weigh (default_re ⟪"haus"⟫) tie_corpus =
    Ok [Ranked ⟪"Haus :: house"⟫ 8 0; Ranked ⟪"Haus | Heim :: house | home"⟫ 8 1] ∧
  StronglySorted rank_le [Ranked ⟪"Haus :: house"⟫ 8 0; Ranked ⟪"Haus | Heim :: house | home"⟫ 8 1] ∧
  [Ranked ⟪"Haus :: house"⟫ 8 0; Ranked ⟪"Haus | Heim :: house | home"⟫ 8 1] =
    js_sort rank_le [Ranked ⟪"Haus :: house"⟫ 8 0; Ranked ⟪"Haus | Heim :: house | home"⟫ 8 1].
Proof.
  assert (weigh (default_re ⟪"haus"⟫) tie_corpus =
    Ok [Ranked ⟪"Haus :: house"⟫ 8 0; Ranked ⟪"Haus | Heim :: house | home"⟫ 8 1]) as H1
    by (vm_compute; reflexivity).
  assert (StronglySorted rank_le
    [Ranked ⟪"Haus :: house"⟫ 8 0; Ranked ⟪"Haus | Heim :: house | home"⟫ 8 1]) as H2.
  { apply SSorted_cons; [apply SSorted_cons; [apply SSorted_nil|constructor]|].
    constructor; [|constructor]. right. simpl. lia. }
  split; [exact H1|]. split; [exact H2|]. exact (sort_unique _ _ _ _ H1 H2 (reflexivity _)).
Defined.

(** [max = 1] *)
Definition options_max1 : options := Options false true true (num_of_nat 1) (num_of_nat 2000) (num_of_nat 3).

Lemma rankEntries_truncate_witness :
  opt_max options_max1 = num_of_nat 1 ∧
  rankEntries tie_corpus (default_re ⟪"haus"⟫) options_max1 = Ok ([⟪"Haus :: house"⟫], true) ∧
  ∃ ws, weigh (default_re ⟪"haus"⟫) (matches tie_corpus (default_re ⟪"haus"⟫)) = Ok ws ∧
    map r_entry (js_sort rank_le ws) ≡ₚ matches tie_corpus (default_re ⟪"haus"⟫) ∧
    [⟪"Haus :: house"⟫] = take 1 (map r_entry (js_sort rank_le ws)) ∧
    length [⟪"Haus :: house"⟫] = min 1 (length (matches tie_corpus (default_re ⟪"haus"⟫))) ∧
    (true = true ↔ 1 < length (matches tie_corpus (default_re ⟪"haus"⟫))).
Proof.
  assert (rankEntries tie_corpus (default_re ⟪"haus"⟫) options_max1 =
          Ok ([⟪"Haus :: house"⟫], true)) as H by (vm_compute; reflexivity).
  split; [reflexivity|]. split; [exact H|]. exact (rankEntries_truncate _ _ options_max1 1 _ _ eq_refl H).
Defined.

Lemma formatResult_malformed_witness :
  ⟪"Haus | house"⟫ ∈ [⟪"Haus | house"⟫] ∧
  contains (Some ⟪"Haus | house"⟫) (default_re ⟪"house"⟫) = true ∧
  getWeight ⟪"Haus | house"⟫ (default_re ⟪"house"⟫) = Throw TypeError ∧
  formatResult [⟪"Haus | house"⟫] (default_re ⟪"house"⟫) default_options = Throw TypeError.
Proof.
  assert (⟪"Haus | house"⟫ ∈ [⟪"Haus | house"⟫]) as H1 by (left).
  assert (contains (Some ⟪"Haus | house"⟫) (default_re ⟪"house"⟫) = true) as H2
    by (vm_compute; reflexivity).
  assert (getWeight ⟪"Haus | house"⟫ (default_re ⟪"house"⟫) = Throw TypeError) as H3
    by (vm_compute; reflexivity).
  split_and!; [exact H1|exact H2|exact H3|].
  exact (formatResult_malformed _ _ default_options _ H1 H2 H3).
Defined.

Lemma formatResult_no_result_witness :
  opt_max default_options = num_of_nat (S 99) ∧
  formatResult example_corpus (default_re ⟪"maus"⟫) default_options = Ok ⟪"<p>No result</p>"⟫ ∧
  (⟪"<p>No result</p>"⟫ = ⟪"<p>No result</p>"⟫ ↔ matches example_corpus (default_re ⟪"maus"⟫) = []).
Proof.
  assert (formatResult example_corpus (default_re ⟪"maus"⟫) default_options =
          Ok ⟪"<p>No result</p>"⟫) as H by (vm_compute; reflexivity).
  split; [reflexivity|]. split; [exact H|].
  exact (formatResult_no_result _ _ default_options 99 _ eq_refl H).
Defined.


Lemma formatResult_null_max_witness :
  opt_max (Options false true true Null (num_of_nat 2000) (num_of_nat 3)) = Null ∧
  formatResult example_corpus (default_re ⟪"haus"⟫)
    (Options false true true Null (num_of_nat 2000) (num_of_nat 3)) = Ok ⟪"<p>No result</p>"⟫ ∧
  ⟪"<p>No result</p>"⟫ = ⟪"<p>No result</p>"⟫.
Proof.
  assert (formatResult example_corpus (default_re ⟪"haus"⟫)
            (Options false true true Null (num_of_nat 2000) (num_of_nat 3)) =
          Ok ⟪"<p>No result</p>"⟫) as H by (vm_compute; reflexivity).
  split; [reflexivity|]. split; [exact H|].
  exact (formatResult_null_max _ _ (Options false true true Null (num_of_nat 2000) (num_of_nat 3)) _ eq_refl H).
Defined.

End Rank.
