(* ===== verification/App.v ===== *)
(** * App: the event handlers of deng.js as a state machine

    [init()] loads the options, registers the click handlers of the
    settings page, and, once [getEntries] has read the corpus, the [input]
    handler (a live search after [options.timeout] milliseconds, with
    [end] switched off) and the [submit] handler (an immediate search with
    [min = 1] that cancels the pending live search).  The module state
    ([currentOptions]), the [localStorage] entry, the corpus, the input
    field, the pending timeout [lastInput] with the options it captured,
    the result area, the visible page, which of the submit and config
    buttons [toggleSubmitConfig] shows and the fields of the settings
    page ([Form.form]) form the state; every handler is
    one case of [step].  The delay of a timeout is not modelled: the
    callback runs at some later [Fire] event unless it is cancelled.

    [getOptions] clones [currentOptions] through [JSON.stringify] and
    [JSON.parse], which turns a non-finite number into [null]. *)

From S2P Require Import Prelude Regex Options Form Query Weight Format Rank.
Import Regex Options Form Query Format Rank.

Module App.

(** ** Options storage *)

(** [JSON.parse(JSON.stringify(options))] *)
Definition json_options (o : options) : options :=
  {| opt_start := opt_start o; opt_end := opt_end o; opt_ignoreCase := opt_ignoreCase o;
     opt_max := json_number (opt_max o); opt_timeout := json_number (opt_timeout o);
     opt_min := json_number (opt_min o) |}.

(** [localStorage] as the page sees it: the item ['deng-settings'] (what
    [setOptions] wrote, read back by [JSON.parse]; [None] when nothing is
    stored, when it is no JSON, or when reading throws) and whether
    [setItem] succeeds (it throws when the storage is full or disabled). *)
Record store : Type := Store {
  item : option options;
  writable : bool
}.

(** A browser profile that has not stored the settings yet. *)
Definition empty_store : store := Store None true.

(** [loadOptions()]: the stored settings, or the defaults when nothing is
    stored (the [|| 'x'] makes [JSON.parse] throw) or the storage throws. *)
Definition loadOptions (s : store) : options := default default_options (item s).

(** [getEntries]: the lines of the corpus file that are not empty and do
    not start with [#]. *)
Definition newline : text := [ascii_of_nat 10].
Definition getEntries (file : text) : list text :=
  filter (λ line, bool_decide (line ≠ []) && negb (bool_decide (head line = Some "#"%char)))
         (split newline file).

(** [showResults]: the new content of the result area and the new
    [scrollTop] of the page, which a shown result resets to 0.  A rejected
    query leaves both as they are; an exception leaves them too (the
    handler stops before the assignments). *)
Definition showResults (entries : list text) (search : text) (o : options) (area : text)
    (scroll : nat) : text * nat :=
  match makeRE search o with
  | Ok (Some re) =>
      match formatResult entries re o with Ok html => (html, 0%nat) | Throw _ => (area, scroll) end
  | _ => (area, scroll)
  end.

(** ** State and events *)

Inductive page : Type := MainPage | SettingsPage.

(** The request [getFile] sends in [init] for [res/de-en.txt]: it is
    pending until its [load] event (any HTTP response: the status is not
    read) hands the response text to the callback of [getEntries], or
    until it fails, which nothing listens to. *)
Inductive fetch : Type :=
  | Pending
  | Failed
  | Ready (entries : list text).

Record state : Type := State {
  st_options : options;              (** [currentOptions] *)
  st_storage : store;                (** [localStorage] *)
  st_corpus : fetch;                 (** the request for the corpus, and its entries *)
  st_input : text;                   (** [input.value] *)
  st_submit_shown : bool;            (** [submit] shown and [config] hidden *)
  st_timer : option options;         (** the pending [lastInput] timeout and its [options] *)
  st_result : text;                  (** [resultArea.innerHTML] *)
  st_page : page;                    (** which of [main] and [settings] is shown *)
  st_form : form;                    (** the fields of the settings page *)
  st_scroll : nat                    (** [document.documentElement.scrollTop] *)
}.

(** The corpus, once [getEntries] called back. *)
Definition st_entries (st : state) : option (list text) :=
  match st_corpus st with Ready entries => Some entries | _ => None end.

(** Updates of some fields, the others kept. *)
Definition set_corpus (st : state) (c : fetch) : state :=
  State (st_options st) (st_storage st) c (st_input st) (st_submit_shown st)
        (st_timer st) (st_result st) (st_page st) (st_form st) (st_scroll st).
Definition set_input (st : state) (v : text) : state :=
  State (st_options st) (st_storage st) (st_corpus st) v (st_submit_shown st)
        (st_timer st) (st_result st) (st_page st) (st_form st) (st_scroll st).
Definition set_timer (st : state) (timer : option options) : state :=
  State (st_options st) (st_storage st) (st_corpus st) (st_input st) (st_submit_shown st)
        timer (st_result st) (st_page st) (st_form st) (st_scroll st).
Definition set_result (st : state) (html : text) : state :=
  State (st_options st) (st_storage st) (st_corpus st) (st_input st) (st_submit_shown st)
        (st_timer st) html (st_page st) (st_form st) (st_scroll st).
Definition set_page (st : state) (p : page) : state :=
  State (st_options st) (st_storage st) (st_corpus st) (st_input st) (st_submit_shown st)
        (st_timer st) (st_result st) p (st_form st) (st_scroll st).
Definition set_form (st : state) (f : form) : state :=
  State (st_options st) (st_storage st) (st_corpus st) (st_input st) (st_submit_shown st)
        (st_timer st) (st_result st) (st_page st) f (st_scroll st).
Definition set_scroll (st : state) (y : nat) : state :=
  State (st_options st) (st_storage st) (st_corpus st) (st_input st) (st_submit_shown st)
        (st_timer st) (st_result st) (st_page st) (st_form st) y.

Inductive event : Type :=
  | Loaded (file : text)            (** the request for [res/de-en.txt] answers, with this text *)
  | LoadError                       (** the request fails (a network error) *)
  | Scroll (y : nat)                (** the user scrolls the page *)
  | Input (value : text)            (** an [input] event with the new field value *)
  | Fire                            (** the pending timeout runs *)
  | Submit                          (** the search form is submitted *)
  | OpenConfig                      (** click on [config] *)
  | Edit (f : form)                 (** the user changes the fields of the settings page *)
  | CloseConfig.                    (** click on [options-back] *)

(** [toggleSubmitConfig()]: the submit button is shown for a non-empty
    input, the config button otherwise. *)
Definition toggleSubmitConfig (st : state) : state :=
  State (st_options st) (st_storage st) (st_corpus st) (st_input st)
        (bool_decide (st_input st ≠ [])) (st_timer st) (st_result st) (st_page st) (st_form st) (st_scroll st).

(** [init()] before any event, with the input field empty. *)
Definition init (storage : store) : state :=
  toggleSubmitConfig (State (loadOptions storage) storage Pending [] true None [] MainPage blank_form 0).

Definition getOptions (st : state) : options := json_options (st_options st).

(** [setOptions(options)]: the module state and the stored JSON. *)
Definition setOptions (st : state) (o : options) : state :=
  State o (if writable (st_storage st) then Store (Some (json_options o)) true else st_storage st)
        (st_corpus st) (st_input st) (st_submit_shown st)
        (st_timer st) (st_result st) (st_page st) (st_form st) (st_scroll st).

Definition with_end (o : options) (e : bool) : options :=
  Options (opt_start o) e (opt_ignoreCase o) (opt_max o) (opt_timeout o) (opt_min o).
Definition with_min (o : options) (n : number) : options :=
  Options (opt_start o) (opt_end o) (opt_ignoreCase o) (opt_max o) (opt_timeout o) n.

(** The call [showResults(entries, input.value, resultArea, options)]. *)
Definition show (st : state) (entries : list text) (o : options) : state :=
  let '(html, y) := showResults entries (st_input st) o (st_result st) (st_scroll st) in
  set_scroll (set_result st html) y.

(** The handlers.  Before the corpus is loaded only the field changes:
    the [input] and [submit] handlers are registered by the callback of
    [getEntries]. *)
Definition step (st : state) (ev : event) : state :=
  match ev with
  | Loaded file =>
      match st_corpus st with
      | Pending => set_corpus st (Ready (getEntries file))
      | _ => st
      end
  | LoadError => match st_corpus st with Pending => set_corpus st Failed | _ => st end
  | Scroll y => set_scroll st y
  | Input v =>
      let st := set_input st v in
      match st_entries st with
      | Some _ =>
          let o := getOptions st in
          let st := toggleSubmitConfig st in
          if num_truthy (opt_timeout o) then set_timer st (Some (with_end o false)) else st
      | None => st
      end
  | Fire =>
      match st_timer st, st_entries st with
      | Some o, Some entries =>
          show (set_timer st None) entries o
      | _, _ => st
      end
  | Submit =>
      match st_entries st with
      | Some entries =>
          let o := with_min (getOptions st) (num_of_nat 1) in
          show (set_timer st None) entries o
      | None => st
      end
  | OpenConfig => set_form (set_page st SettingsPage) (showConfig (getOptions st))
  | Edit f => set_form st f
  | CloseConfig =>
      let st := set_page st MainPage in
      setOptions st (saveConfig (readForm (st_form st)) (getOptions st))
  end.

Definition run (st : state) (evs : list event) : state := foldl step st evs.

(** The states reached from [init storage] by events that satisfy
    [allowed], a reload starting a new session from what is stored. *)
Inductive reachable (allowed : event → Prop) (storage : store) : state → Prop :=
  | reach_init : reachable allowed storage (init storage)
  | reach_step st ev :
      reachable allowed storage st → allowed ev → reachable allowed storage (step st ev)
  | reach_reload st : reachable allowed storage st → reachable allowed storage (init (st_storage st)).

Definition any_event (ev : event) : Prop := True.

(** ** Well-formed states *)

(** What every state of a session satisfies: before the corpus is loaded
    no timeout is pending and the submit button is hidden (the [input]
    handler is registered by the callback of [getEntries]); a pending
    live search has [end] switched off; the submit button is shown only
    for a non-empty query. *)
Definition wf_state (st : state) : Prop :=
  (st_entries st = None → st_timer st = None ∧ st_submit_shown st = false) ∧
  (∀ o, st_timer st = Some o → opt_end o = false) ∧
  (st_submit_shown st = true → st_input st ≠ []).

Lemma wf_init storage : wf_state (init storage).
Proof. split_and!; simpl; try done. Qed.

Lemma wf_step st ev : wf_state st → wf_state (step st ev).
Proof.
  destruct st as [o s c i b t r p f y]. intros (He & Ht & Hb).
  unfold wf_state, st_entries in *.
  destruct ev; simpl in *; unfold show; repeat case_match; simplify_eq/=;
    split_and!; intros; simplify_eq/=; try case_bool_decide; naive_solver.
Qed.

Lemma reachable_wf allowed storage st : reachable allowed storage st → wf_state st.
Proof. induction 1; auto using wf_step, wf_init. Qed.

(** C13: Well-formedness is an invariant of the application: [init]
    establishes it and every handler preserves it, from any state. *)
Theorem wf_state_invariant storage :
  wf_state (init storage) ∧ ∀ st ev, wf_state st → wf_state (step st ev).
Proof. split; [apply wf_init|intros; by apply wf_step]. Qed.

(** The pending live search always runs with [end] switched off. *)
Theorem timer_end_false allowed storage st o :
  reachable allowed storage st → st_timer st = Some o → opt_end o = false.
Proof. intros (_ & Ht & _)%reachable_wf. apply Ht. Qed.

(** C19: Submitting cancels the pending live search: a timeout that fires
    afterwards changes nothing, so a slower live search cannot overwrite
    the submitted result. *)
Theorem submit_cancels_timer allowed storage st :
  reachable allowed storage st → step (step st Submit) Fire = step st Submit.
Proof.
  intros (Hn & _ & _)%reachable_wf. unfold st_entries in Hn.
  destruct st as [o s c i b t r p f y]; simpl in *.
  destruct c; simpl; [by rewrite (proj1 (Hn eq_refl))..|].
  unfold show. by destruct (showResults _ _ _ _ _).
Qed.

(** ** Settings across a reload *)

(** Stored settings come from [JSON.parse]: they hold no infinity. *)
Definition json_normal (o : options) : Prop := json_options o = o.

Lemma json_options_idem o : json_options (json_options o) = json_options o.
Proof. destruct o as [? ? ? [] [] []]; done. Qed.

(** A storage that accepts writes holds what [getOptions] reads. *)
Definition stored_consistent (st : state) : Prop :=
  writable (st_storage st) = true →
  match item (st_storage st) with
  | None => st_options st = default_options
  | Some o => o = json_options (st_options st) ∧ json_normal o
  end.

Lemma stored_consistent_step st ev :
  stored_consistent st → stored_consistent (step st ev).
Proof.
  destruct st as [o [it w] c i b t r p f y]. unfold stored_consistent.
  destruct ev; simpl; unfold show; repeat case_match; simplify_eq/=; try done;
    intros _ _; (split; [done|apply json_options_idem]).
Qed.

Lemma stored_consistent_reachable allowed storage st :
  default True (json_normal <$> item storage) → reachable allowed storage st →
  stored_consistent st.
Proof.
  intros Hs. induction 1 as [|st ev _ IH _|st _ IH]; auto using stored_consistent_step.
  - intros _. destruct storage as [[o|] w]; simpl in *; [|done]. by split.
  - unfold stored_consistent in *. intros Hw. specialize (IH Hw).
    simpl. unfold loadOptions. destruct (item (st_storage st)) as [o|]; simpl; [|done].
    destruct IH as [_ Hn]. by split.
Qed.

(** A storage that refuses writes is never changed: [setOptions] catches
    the exception of [setItem]. *)
Lemma step_unwritable st ev :
  writable (st_storage st) = false → st_storage (step st ev) = st_storage st.
Proof.
  destruct st as [o [it w] c i b t r p f y]. simpl. intros ->.
  destruct ev; simpl; unfold show; repeat case_match; done.
Qed.

Lemma reachable_unwritable allowed storage st :
  writable storage = false → reachable allowed storage st → st_storage st = storage.
Proof.
  intros Hw. induction 1 as [|st ev _ IH _|st _ IH]; [done| |done].
  rewrite step_unwritable; [done|by rewrite IH].
Qed.

Lemma step_writable st ev : writable (st_storage (step st ev)) = writable (st_storage st).
Proof.
  destruct st as [o [it w] c i b t r p f y]. simpl.
  destruct ev; simpl; unfold show; repeat case_match; done.
Qed.

Lemma reachable_writable allowed storage st :
  reachable allowed storage st → writable (st_storage st) = writable storage.
Proof. induction 1; simpl; rewrite ?step_writable; done. Qed.

(** C21: The settings survive a reload when the storage accepts writes: a
    new session starting from what is stored reads the options the
    current session reads.  When [setItem] fails, the exception is
    swallowed and a reload goes back to the settings the session started
    from. *)
Theorem reload_keeps_options allowed storage st :
  default True (json_normal <$> item storage) → reachable allowed storage st →
  (writable storage = true → getOptions (init (st_storage st)) = getOptions st) ∧
  (writable storage = false → init (st_storage st) = init storage).
Proof.
  intros Hs Hr. split; intros Hw.
  - pose proof (stored_consistent_reachable _ _ _ Hs Hr) as Hc.
    unfold stored_consistent in Hc. rewrite (reachable_writable _ _ _ Hr), Hw in Hc.
    specialize (Hc eq_refl). unfold getOptions. simpl. unfold loadOptions.
    destruct (item (st_storage st)) as [o|]; simpl; [|by rewrite Hc].
    destruct Hc as [-> _]. apply json_options_idem.
  - by rewrite (reachable_unwritable _ _ _ Hw Hr).
Qed.

(** ** Progress of the live search *)

(** Events that neither type, scroll nor submit: the corpus arriving or
    failing, the settings page opening, changing or closing. *)
Definition quiet (ev : event) : Prop :=
  match ev with Input _ | Submit | Fire | Scroll _ => False | _ => True end.

(** What the search handlers read and write. *)
Definition search_view (st : state) : option (list text) * text * option options * text * nat :=
  (st_entries st, st_input st, st_timer st, st_result st, st_scroll st).

Lemma step_quiet st ev :
  st_entries st ≠ None → quiet ev → search_view (step st ev) = search_view st.
Proof.
  intros He Hq. unfold search_view, st_entries in *.
  destruct ev; simpl in Hq; try contradiction; simpl; try done;
    destruct (st_corpus st) eqn:E; rewrite ?E; first [congruence|reflexivity].
Qed.

Lemma run_quiet st evs :
  st_entries st ≠ None → Forall quiet evs → search_view (run st evs) = search_view st.
Proof.
  revert st; induction evs as [|ev evs IH]; intros st He Hq; [done|].
  apply Forall_cons in Hq as [Hev Hq]. simpl. pose proof (step_quiet st ev He Hev) as Hs.
  rewrite IH; [done| |done]. unfold search_view in Hs. injection Hs as H1 _ _ _ _. by rewrite H1.
Qed.

(** C20: Typing [v] with the corpus loaded and a truthy [timeout] schedules a
    search for [v] with the options read when typing ([end] off); it runs
    at the next timeout whatever the settings page and the corpus request
    do in between, and shows the results for [v] (and scrolls to the top
    when it shows any). *)
Theorem input_then_fire st es v evs :
  st_entries st = Some es → num_truthy (opt_timeout (getOptions st)) = true → Forall quiet evs →
  let st' := step (run (step st (Input v)) evs) Fire in
  st_timer st' = None ∧ st_input st' = v ∧
  (st_result st', st_scroll st') =
    showResults es v (with_end (getOptions st) false) (st_result st) (st_scroll st).
Proof.
  intros He Ht Hq. cbv zeta.
  assert (search_view (step st (Input v)) =
          (Some es, v, Some (with_end (getOptions st) false), st_result st, st_scroll st)) as Hi.
  { unfold step. change (st_entries (set_input st v)) with (st_entries st). rewrite He.
    change (getOptions (set_input st v)) with (getOptions st). rewrite Ht.
    unfold search_view. change (st_entries (set_timer (toggleSubmitConfig (set_input st v)) _))
      with (st_entries st). by rewrite He. }
  assert (st_entries (step st (Input v)) = Some es) as E1
    by (apply (f_equal (λ x, x.1.1.1.1)) in Hi; exact Hi).
  pose proof (run_quiet (step st (Input v)) evs) as Hr.
  rewrite Hi in Hr. specialize (Hr ltac:(by rewrite E1) Hq).
  set (st1 := run (step st (Input v)) evs) in *. unfold search_view in Hr.
  injection Hr as F1 F2 F3 F4 F5.
  unfold step. rewrite F3, F1. unfold show. cbn [set_timer st_input st_result st_scroll].
  rewrite F2, F4, F5. destruct (showResults _ _ _ _ _). done.
Qed.

(** ** Settings that stay safe integers *)

(** Options that pass the guards of [saveConfig] and whose numbers are
    safe integers: they survive the JSON round trip of [getOptions] and
    the settings page unchanged. *)
Definition sane_options (o : options) : bool :=
  valid_options o && safe_int (opt_max o) && safe_int (opt_timeout o) && safe_int (opt_min o).

(** A settings form whose number fields read as NaN or as numbers of
    magnitude below [2^53]. *)
Definition small_form (f : form) : bool :=
  small_number (Number (f_max f)) && small_number (Number (f_timeout f)) &&
  small_number (Number (f_min f)).

(** Edits of the settings form that keep the numbers small; every other
    event is allowed. *)
Definition small_event (ev : event) : Prop :=
  match ev with Edit f => small_form f = true | _ => True end.

(** Everything a search or the settings page can read is sane:
    [currentOptions], the stored settings, the options of the pending
    timeout, and the numbers of the settings form. *)
Definition sane_state (st : state) : bool :=
  sane_options (st_options st) && default true (sane_options <$> item (st_storage st)) &&
  default true (sane_options <$> st_timer st) && small_form (st_form st).

Lemma json_options_sane o : sane_options o = true → json_options o = o.
Proof.
  destruct o as [s e i [] [] []]; unfold sane_options; simpl;
    rewrite ?andb_false_r; done.
Qed.

(** A finite value read from the form that passes a guard demanding a
    non-negative integer is a safe integer. *)
Lemma fin_safe q :
  Qred q = q → Qeq_bool (inject_Z (Qfloor q)) q = true → Qle_bool 0 q = true →
  (Z.abs (Qnum q) <? 2 ^ 53 * Zpos (Qden q))%Z = true → safe_int (Fin q) = true.
Proof.
  intros Hr Hi H0 Hs. pose proof (integral_den q Hr Hi) as Hd.
  apply Qle_bool_iff in H0. unfold Qle in H0. simpl in *. rewrite Hd in Hs, H0 |- *.
  apply Z.ltb_lt in Hs. apply andb_true_iff; split; [apply andb_true_iff; split|];
    [done|apply Z.leb_le; lia|apply Z.ltb_lt; lia].
Qed.

Lemma bad_count_safe x :
  bad_count x = false → small_number x = true → double_value x → safe_int x = true.
Proof.
  destruct x as [| | |q|]; try done.
  cbn [bad_count num_le num_is_nan to_number num_is_integral orb small_number double_value].
  intros [Hle Hi%negb_false_iff]%orb_false_iff Hs [Hr _].
  apply fin_safe; try done. apply Qle_bool_iff. apply not_true_iff_false in Hle.
  apply Qlt_le_weak, Qnot_le_lt. by rewrite <-Qle_bool_iff.
Qed.

Lemma bad_timeout_safe x :
  bad_timeout x = false → small_number x = true → double_value x → safe_int x = true.
Proof.
  destruct x as [| | |q|]; try done.
  cbn [bad_timeout num_lt num_is_nan to_number num_is_integral orb small_number double_value].
  intros [Hlt Hi%negb_false_iff]%orb_false_iff Hs [Hr _].
  apply fin_safe; try done. by apply negb_false_iff in Hlt.
Qed.

Lemma field_safe (bad : number → bool) x old :
  safe_int old = true → (bad x = false → safe_int x = true) →
  safe_int (if bad x then old else x) = true.
Proof. destruct (bad x); auto. Qed.

Lemma saveConfig_sane f old :
  small_form f = true → sane_options old = true →
  sane_options (saveConfig (readForm f) old) = true.
Proof.
  unfold small_form, sane_options, valid_options, saveConfig, readForm; simpl.
  rewrite !andb_true_iff, !negb_true_iff. intros Hf Ho. destruct_and!.
  split_and!; try (apply saveConfig_field; done); apply field_safe; try done; intros Hb;
    eauto using bad_count_safe, bad_timeout_safe, Number_double.
Qed.

Lemma safe_small x : safe_int x = true → small_number x = true.
Proof.
  destruct x as [| | |q|]; try done. cbn [safe_int small_number].
  rewrite !andb_true_iff, Pos.eqb_eq, Z.leb_le, !Z.ltb_lt. intros [[-> ?] ?]. lia.
Qed.

Lemma showConfig_small o : sane_options o = true → small_form (showConfig o) = true.
Proof.
  unfold sane_options, small_form, showConfig. simpl. rewrite !andb_true_iff. intros H.
  destruct_and!. rewrite !field_value_safe by done. split_and!; by apply safe_small.
Qed.

Lemma sane_with_end o e : sane_options (with_end o e) = sane_options o.
Proof. by destruct o. Qed.

Lemma step_sane st ev :
  small_event ev → sane_state st = true → sane_state (step st ev) = true.
Proof.
  destruct st as [o s e i b t r p f y]. unfold sane_state, getOptions; simpl.
  rewrite !andb_true_iff. intros Hev H. destruct H as [[[Ho Hs] Ht] Hf].
  destruct ev; simpl; unfold show, getOptions; simpl; rewrite ?(json_options_sane o) by done;
    repeat case_match; simpl in *; simplify_eq/=; rewrite ?andb_true_iff;
    split_and!; rewrite ?sane_with_end; try done.
  1: by apply showConfig_small.
  all: try rewrite json_options_sane; apply saveConfig_sane; done.
Qed.

(** C24: In a session whose settings forms only ever read as numbers below
    [2^53] in magnitude (or as NaN), started from sane stored settings
    (or none), every state is sane: the options a search reads pass
    [saveConfig]'s guards and are safe integers, [getOptions] returns them
    unchanged, and the settings page shows them back exactly. *)
Theorem sane_invariant storage st :
  default true (sane_options <$> item storage) = true →
  reachable small_event storage st → sane_state st = true ∧ getOptions st = st_options st.
Proof.
  intros Hs Hr. cut (sane_state st = true).
  { intros H. split; [done|]. apply json_options_sane.
    unfold sane_state in H. rewrite !andb_true_iff in H. by destruct_and!. }
  induction Hr as [|st ev Hr IH Hev|st Hr IH].
  - unfold sane_state. destruct storage as [[o|] w]; simpl in *; unfold loadOptions; simpl;
      [by rewrite Hs|done].
  - by apply step_sane.
  - unfold sane_state in IH |- *. rewrite !andb_true_iff in IH. destruct_and!.
    simpl. unfold loadOptions. destruct (item (st_storage st)); simpl in *; [by rewrite H3|done].
Qed.

(** C22: Opening the settings page and going back without editing keeps
    the settings: [showConfig] prints the options, [saveConfig] reads the
    same numbers back and every guard passes, so [currentOptions] is
    unchanged (and stored, when the storage accepts writes), and the main
    page is shown again. *)
Theorem open_close_keeps_options st :
  sane_state st = true →
  let st' := step (step st OpenConfig) CloseConfig in
  st_options st' = st_options st ∧ st_page st' = MainPage ∧
  (writable (st_storage st) = true → item (st_storage st') = Some (st_options st)).
Proof.
  unfold sane_state. intros [[[Ho _]%andb_true_iff _]%andb_true_iff _]%andb_true_iff.
  pose proof Ho as Hs. unfold sane_options in Hs. rewrite !andb_true_iff in Hs.
  destruct Hs as [[[Hv Hm] Ht] Hn].
  assert (readForm (showConfig (st_options st)) = st_options st) as Hr.
  { destruct (st_options st); unfold readForm, showConfig; simpl in *.
    by rewrite !field_value_safe. }
  simpl. unfold getOptions. cbn [set_page set_form st_options].
  rewrite (json_options_sane (st_options st) Ho), Hr, saveConfig_same by done.
  split_and!; [done|done|]. intros Hw. cbn [st_storage set_page set_form]. rewrite Hw.
  simpl. by rewrite json_options_sane.
Qed.

(** ** The corpus *)

(** C27: Every entry [getEntries] passes on is one line of the file: not
    empty, not a comment, without a line break; and every such line of
    the file is an entry. *)
Theorem getEntries_spec file e :
  e ∈ getEntries file ↔
  e ∈ split newline file ∧ e ≠ [] ∧ head e ≠ Some "#"%char ∧ ascii_of_nat 10 ∉ e.
Proof.
  unfold getEntries. rewrite list_elem_of_filter, andb_True, negb_True, !bool_decide_spec.
  split; [|naive_solver].
  intros [[Hne Hh] Hin]. split_and!; try done. by apply (split_char_free _ file).
Qed.

(** The corpus request fails for good: every handler leaves it failed, the
    result area and the buttons as they are. *)
Lemma step_failed st ev :
  st_corpus st = Failed →
  st_corpus (step st ev) = Failed ∧ st_result (step st ev) = st_result st ∧
  st_submit_shown (step st ev) = st_submit_shown st.
Proof.
  intros Hf. unfold step, st_entries.
  destruct ev; cbn [set_input set_scroll set_form set_page setOptions st_corpus st_result
                    st_submit_shown]; rewrite ?Hf; try done.
  by destruct (st_timer st).
Qed.

(** C28: [getFile] has no error handler: once the request for the corpus
    has failed, no event of the session makes the corpus available, so the
    [input] and [submit] handlers are never registered and no search is
    ever shown; the result area and the buttons stay as they are until the
    page is reloaded. *)
Theorem load_error_stuck st evs :
  st_corpus st = Failed →
  st_corpus (run st evs) = Failed ∧ st_result (run st evs) = st_result st ∧
  st_submit_shown (run st evs) = st_submit_shown st.
Proof.
  revert st. induction evs as [|ev evs IH]; intros st Hf; [done|]. simpl.
  destruct (step_failed st ev Hf) as (H1 & H2 & H3).
  destruct (IH _ H1) as (? & ? & ?). split_and!; congruence.
Qed.

(** ** Sessions *)

Definition sample_file : text :=
  ⟪"# comment"⟫ ++ newline ++ ⟪"Haus :: house"⟫ ++ newline ++
  ⟪"Hausboot :: houseboat"⟫ ++ newline.

(** The expected markup of a one-line entry whose German side starts with
    the highlighted [Haus]. *)
Definition haus_row (de_rest en : text) : text :=
  ⟪"<tr class="⟫ ++ [dquote] ++ ⟪"only-line closed"⟫ ++ [dquote] ++ ⟪"><td lang="⟫ ++
  [dquote] ++ ⟪"de"⟫ ++ [dquote] ++ ⟪"><mark>Haus</mark>"⟫ ++ de_rest ++ ⟪"</td><td lang="⟫ ++
  [dquote] ++ ⟪"en"⟫ ++ [dquote] ++ ⟪">"⟫ ++ en ++ ⟪"</td></tr>"⟫.

(** The settings form with [1e309] typed into the [max] field. *)
Definition infinite_max_form : form := Fields false true true ⟪"1e309"⟫ ⟪"2000"⟫ ⟪"3"⟫.

(** The live search (after typing, [end] off) also lists the compound
    [Hausboot]; submitting the same query ([end] on) lists only [Haus]. *)
Theorem live_and_submit :
  st_result (run (init empty_store) [Loaded sample_file; Input ⟪"haus"⟫; Fire]) =
    ⟪"<table>"⟫ ++ haus_row [] ⟪"house"⟫ ++ haus_row ⟪"boot"⟫ ⟪"houseboat"⟫ ++ ⟪"</table>"⟫ ∧
  st_result (run (init empty_store) [Loaded sample_file; Input ⟪"haus"⟫; Submit]) =
    ⟪"<table>"⟫ ++ haus_row [] ⟪"house"⟫ ++ ⟪"</table>"⟫.
Proof. split; vm_compute; reflexivity. Qed.

(** C31: When the [max] field reads as [Infinity] (a literal such as
    [1e309] overflows), the back button stores [max = Infinity], which
    passes the guards of [saveConfig]; [getOptions] then reads [max] back
    as [null], and from then on every submitted search that renders shows
    "No result", whatever the query and the corpus, until the settings
    change. *)
Theorem infinity_max_no_result st :
  Number (f_max (st_form st)) = PosInf →
  let st' := step st CloseConfig in
  opt_max (st_options st') = PosInf ∧ opt_max (getOptions st') = Null ∧
  ∀ st'' entries re html,
    st_options st'' = st_options st' → st_entries st'' = Some entries →
    makeRE (st_input st'') (with_min (getOptions st'') (num_of_nat 1)) = Ok (Some re) →
    formatResult entries re (with_min (getOptions st'') (num_of_nat 1)) = Ok html →
    st_result (step st'' Submit) = ⟪"<p>No result</p>"⟫.
Proof.
  intros Hn st'.
  assert (opt_max (st_options st') = PosInf) as Hm.
  { unfold st'. cbn [step setOptions st_options saveConfig opt_max readForm set_page st_form].
    by rewrite Hn. }
  assert (∀ st'', st_options st'' = st_options st' → opt_max (getOptions st'') = Null) as Hg.
  { intros st'' Ho. unfold getOptions, json_options. cbn [opt_max]. by rewrite Ho, Hm. }
  split; [done|split; [by apply Hg|]].
  intros st'' entries re html Ho He Hre Hf. cbn [step]. rewrite He.
  unfold show, showResults. cbn [st_input set_timer]. rewrite Hre, Hf. cbn [st_result set_scroll set_result].
  unfold formatResult in Hf.
  destruct (rankEntries entries re _) as [[out more]|] eqn:Hr; [|done].
  rewrite (rankEntries_null_max _ _ _ _ _ (Hg st'' Ho) Hr) in Hf. simpl in Hf. by injection Hf.
Qed.

(** ** Witnesses *)

Lemma live_state_reachable :
  reachable any_event empty_store (run (init empty_store) [Loaded sample_file; Input ⟪"haus"⟫]).
Proof. repeat constructor. Defined.

Lemma timer_end_false_witness :
  st_timer (run (init empty_store) [Loaded sample_file; Input ⟪"haus"⟫]) =
    Some (with_end default_options false) ∧
  opt_end (with_end default_options false) = false.
Proof.
  assert (st_timer (run (init empty_store) [Loaded sample_file; Input ⟪"haus"⟫]) =
    Some (with_end default_options false)) as H by (vm_compute; reflexivity).
  split; [exact H|]. exact (timer_end_false _ _ _ _ live_state_reachable H).
Defined.

Lemma submit_cancels_timer_witness :
  step (step (run (init empty_store) [Loaded sample_file; Input ⟪"haus"⟫]) Submit) Fire =
    step (run (init empty_store) [Loaded sample_file; Input ⟪"haus"⟫]) Submit.
Proof. exact (submit_cancels_timer _ _ _ live_state_reachable). Defined.

Lemma getEntries_spec_witness :
  ⟪"Haus :: house"⟫ ∈ getEntries sample_file ∧
  (⟪"Haus :: house"⟫ ∈ split newline sample_file ∧ ⟪"Haus :: house"⟫ ≠ [] ∧
   head ⟪"Haus :: house"⟫ ≠ Some "#"%char ∧ ascii_of_nat 10 ∉ ⟪"Haus :: house"⟫).
Proof.
  assert (⟪"Haus :: house"⟫ ∈ getEntries sample_file) as H.
  { apply list_elem_of_In. vm_compute. left. reflexivity. }
  split; [exact H|]. exact (proj1 (getEntries_spec _ _) H).
Defined.

Definition finite_form : form := Fields true false true ⟪"20"⟫ ⟪"0"⟫ ⟪" 2 "⟫.

Lemma sane_invariant_witness :
  sane_state (run (init empty_store) [Loaded sample_file; OpenConfig; Edit finite_form; CloseConfig; Input ⟪"haus"⟫])
    = true ∧
  getOptions (run (init empty_store) [Loaded sample_file; OpenConfig; Edit finite_form; CloseConfig; Input ⟪"haus"⟫]) =
    st_options (run (init empty_store) [Loaded sample_file; OpenConfig; Edit finite_form; CloseConfig; Input ⟪"haus"⟫]).
Proof.
  apply (sane_invariant empty_store); [reflexivity|].
  repeat (apply reach_step; [|simpl; first [exact I|vm_compute; reflexivity]]). apply reach_init.
Defined.

(** A storage whose [setItem] throws (a full or disabled [localStorage]). *)
Definition locked_store : store := Store None false.

Lemma reload_keeps_options_witness :
  default True (json_normal <$> item empty_store) ∧
  reachable any_event empty_store (run (init empty_store) [Loaded sample_file; OpenConfig; Edit infinite_max_form; CloseConfig]) ∧
  reachable any_event locked_store (run (init locked_store) [Loaded sample_file; OpenConfig; Edit infinite_max_form; CloseConfig]) ∧
  getOptions (init (st_storage (run (init empty_store) [Loaded sample_file; OpenConfig; Edit infinite_max_form; CloseConfig]))) =
    getOptions (run (init empty_store) [Loaded sample_file; OpenConfig; Edit infinite_max_form; CloseConfig]) ∧
  init (st_storage (run (init locked_store) [Loaded sample_file; OpenConfig; Edit infinite_max_form; CloseConfig])) = init locked_store.
Proof.
  assert (reachable any_event empty_store (run (init empty_store) [Loaded sample_file; OpenConfig; Edit infinite_max_form; CloseConfig])) as Hr
    by (repeat constructor).
  assert (reachable any_event locked_store (run (init locked_store) [Loaded sample_file; OpenConfig; Edit infinite_max_form; CloseConfig])) as Hl
    by (repeat constructor).
  split_and!; [exact I|exact Hr|exact Hl| |].
  - exact (proj1 (reload_keeps_options _ empty_store _ I Hr) eq_refl).
  - exact (proj2 (reload_keeps_options _ locked_store _ I Hl) eq_refl).
Defined.

Lemma load_error_stuck_witness :
  st_corpus (step (init empty_store) LoadError) = Failed ∧
  st_corpus (run (step (init empty_store) LoadError) [Loaded sample_file; Input ⟪"haus"⟫; Submit]) = Failed ∧
  st_result (run (step (init empty_store) LoadError) [Loaded sample_file; Input ⟪"haus"⟫; Submit]) =
    st_result (step (init empty_store) LoadError) ∧
  st_submit_shown (run (step (init empty_store) LoadError) [Loaded sample_file; Input ⟪"haus"⟫; Submit]) =
    st_submit_shown (step (init empty_store) LoadError).
Proof.
  assert (st_corpus (step (init empty_store) LoadError) = Failed) as H by reflexivity.
  split; [exact H|]. exact (load_error_stuck _ _ H).
Defined.

Lemma open_close_keeps_options_witness :
  sane_state (init empty_store) = true ∧
  st_options (step (step (init empty_store) OpenConfig) CloseConfig) = st_options (init empty_store) ∧
  st_page (step (step (init empty_store) OpenConfig) CloseConfig) = MainPage ∧
  (writable (st_storage (init empty_store)) = true →
   item (st_storage (step (step (init empty_store) OpenConfig) CloseConfig)) =
     Some (st_options (init empty_store))).
Proof.
  assert (sane_state (init empty_store) = true) as H by (vm_compute; reflexivity).
  split; [exact H|]. exact (open_close_keeps_options _ H).
Defined.

(** The search scheduled by typing runs with the options read at typing
    time, even when [max = Infinity] is saved before it fires. *)
Lemma input_then_fire_witness :
  st_entries (run (init empty_store) [Loaded sample_file]) = Some (getEntries sample_file) ∧
  num_truthy (opt_timeout (getOptions (run (init empty_store) [Loaded sample_file]))) = true ∧
  Forall quiet [OpenConfig; Edit infinite_max_form; CloseConfig] ∧
  (let st' := step (run (step (run (init empty_store) [Loaded sample_file]) (Input ⟪"haus"⟫))
                        [OpenConfig; Edit infinite_max_form; CloseConfig]) Fire in
   st_timer st' = None ∧ st_input st' = ⟪"haus"⟫ ∧
   (st_result st', st_scroll st') =
     showResults (getEntries sample_file) ⟪"haus"⟫
       (with_end (getOptions (run (init empty_store) [Loaded sample_file])) false)
       (st_result (run (init empty_store) [Loaded sample_file]))
       (st_scroll (run (init empty_store) [Loaded sample_file]))).
Proof.
  assert (st_entries (run (init empty_store) [Loaded sample_file]) = Some (getEntries sample_file))
    as H1 by reflexivity.
  assert (num_truthy (opt_timeout (getOptions (run (init empty_store) [Loaded sample_file]))) = true)
    as H2 by (vm_compute; reflexivity).
  assert (Forall quiet [OpenConfig; Edit infinite_max_form; CloseConfig]) as H3
    by (repeat constructor).
  split_and!; [exact H1|exact H2|exact H3|]. exact (input_then_fire _ _ _ _ H1 H2 H3).
Defined.

(** The session of [live_and_submit] with [1e309] typed into [max]. *)
Definition infinite_max_state : state :=
  run (init empty_store) [Loaded sample_file; OpenConfig; Edit infinite_max_form].

Lemma infinity_max_no_result_witness :
  let st'' := step (step infinite_max_state CloseConfig) (Input ⟪"haus"⟫) in
  Number (f_max (st_form infinite_max_state)) = PosInf ∧
  filter (test (default_re ⟪"haus"⟫)) (getEntries sample_file) = [⟪"Haus :: house"⟫] ∧
  st_result (step st'' Submit) = ⟪"<p>No result</p>"⟫.
Proof.
  intros st''.
  assert (Number (f_max (st_form infinite_max_state)) = PosInf) as H1 by (vm_compute; reflexivity).
  assert (st_options st'' = st_options (step infinite_max_state CloseConfig)) as H2
    by (vm_compute; reflexivity).
  assert (st_entries st'' = Some (getEntries sample_file)) as H3 by (vm_compute; reflexivity).
  assert (makeRE (st_input st'') (with_min (getOptions st'') (num_of_nat 1)) =
            Ok (Some (default_re ⟪"haus"⟫))) as H4 by (vm_compute; reflexivity).
  assert (formatResult (getEntries sample_file) (default_re ⟪"haus"⟫)
            (with_min (getOptions st'') (num_of_nat 1)) = Ok ⟪"<p>No result</p>"⟫) as H5
    by (vm_compute; reflexivity).
  split_and!; [exact H1|vm_compute; reflexivity|].
  exact (proj2 (proj2 (infinity_max_no_result infinite_max_state H1)) st'' _ _ _ H2 H3 H4 H5).
Defined.

End App.
