(* ===== verification/Dom.v ===== *)
(** * Dom: expanding and collapsing result lines ([toggle], [getParent], [initToggle])

    The rows [formatLine] renders carry the classes [main-line],
    [sub-line] or [only-line] and one of [open] and [closed].  A click in
    the result area is handled by [initToggle]: [getParent] walks from
    the clicked element up to its [TR]; on a [main-line] row, [toggle]
    flips [open] and [closed] on that row and on the [sub-line] rows that
    follow it.  The table is modelled by the class lists of its rows, in
    order; an element by its chain of ancestors, innermost first, a [TR]
    of the table knowing its row.  [classList.toggle] removes a present
    class and appends an absent one (DOMTokenList), so a class list is
    kept as a list. *)

From S2P Require Import Prelude Regex Options Query Format.
Import Regex Options Query Format.

Module Dom.

(** ** Class lists *)

Abbreviation classList := (list text).

(** [el.className = cls]: the class attribute split at spaces. *)
Definition classes_of (cls : text) : classList := split [" "%char] cls.

(** [classList.contains(t)] *)
Definition cl_contains (t : text) (cls : classList) : bool := bool_decide (t ∈ cls).

(** [classList.toggle(t)] *)
Definition cl_toggle (t : text) (cls : classList) : classList :=
  if cl_contains t cls then filter (λ c, c ≠ t) cls else cls ++ [t].

(** ** [toggle] (lines 156-165) *)

(** Lines 158-159 *)
Definition flip (cls : classList) : classList :=
  cl_toggle ⟪"closed"⟫ (cl_toggle ⟪"open"⟫ cls).

(** Lines 160-163: the following rows, as long as they are sub-lines. *)
Fixpoint flip_subs (rows : list classList) : list classList :=
  match rows with
  | r :: rs => if cl_contains ⟪"sub-line"⟫ r then flip r :: flip_subs rs else rows
  | [] => []
  end.

(** [toggle(line)] for the row [i] of the table. *)
Definition toggle (rows : list classList) (i : nat) : list classList :=
  match drop i rows with
  | r :: rs => take i rows ++ flip r :: flip_subs rs
  | [] => rows
  end.

(** ** [getParent] and the click handler (lines 167-181) *)

Record element : Type := Element {
  el_tag : text;            (** [tagName] *)
  el_row : option nat       (** for a [TR] of the result table, its row *)
}.

(** [getParent(el, tagName)] on [el] and its ancestors, innermost first. *)
Fixpoint getParent (path : list element) (tagName : text) : option element :=
  match path with
  | [] => None
  | el :: up => if bool_decide (el_tag el = tagName) then Some el else getParent up tagName
  end.

(** The click handler registered by [initToggle]. *)
Definition onClick (rows : list classList) (target : list element) : list classList :=
  match getParent target ⟪"TR"⟫ with
  | Some el =>
      match el_row el with
      | Some i =>
          if cl_contains ⟪"main-line"⟫ (default [] (rows !! i)) then toggle rows i else rows
      | None => rows
      end
  | None => rows
  end.

(** ** Rendered lines *)

(** The class lists of the rows [formatLine] renders for a line of [n]
    shown pairs (lines 88-93). *)
Definition line_rows (open : bool) (n : nat) : list classList :=
  map (λ i, classes_of (row_class open n i)) (seq 0 n).

(** The rows of a result table whose lines are given by their state and
    their number of shown pairs. *)
Definition table_rows (lines : list (bool * nat)) : list classList :=
  mjoin (map (λ '(o, n), line_rows o n) lines).

(** A click on a cell of row [i]: the [TD], its [TR], the table. *)
Definition cell (i : nat) : list element :=
  [Element ⟪"TD"⟫ None; Element ⟪"TR"⟫ (Some i); Element ⟪"TBODY"⟫ None; Element ⟪"TABLE"⟫ None].

(** ** [classList.toggle] *)

Lemma elem_of_cl_toggle t u cls : u ∈ cl_toggle t cls ↔ (u ∈ cls ↔ u ≠ t).
Proof.
  unfold cl_toggle, cl_contains. case_bool_decide as Ht.
  - rewrite list_elem_of_filter. split; [intros [? ?]; tauto|].
    intros Hu. destruct (decide (u = t)) as [->|]; [|tauto]. tauto.
  - rewrite elem_of_app, list_elem_of_singleton.
    destruct (decide (u = t)) as [->|]; tauto.
Qed.

(** [flip] touches [open] and [closed] only. *)
Lemma cl_contains_flip t cls :
  t ≠ ⟪"open"⟫ → t ≠ ⟪"closed"⟫ → cl_contains t (flip cls) = cl_contains t cls.
Proof.
  intros Ho Hc. apply bool_decide_ext. unfold flip. rewrite !elem_of_cl_toggle. tauto.
Qed.

Ltac text_neq := vm_compute; congruence.

Lemma flip_keeps_kind cls :
  cl_contains ⟪"main-line"⟫ (flip cls) = cl_contains ⟪"main-line"⟫ cls ∧
  cl_contains ⟪"sub-line"⟫ (flip cls) = cl_contains ⟪"sub-line"⟫ cls.
Proof. split; apply cl_contains_flip; text_neq. Qed.

(** ** Clicking a rendered line *)

Lemma flip_row o n i : flip (classes_of (row_class o n i)) = classes_of (row_class (negb o) n i).
Proof. unfold row_class. destruct o; repeat case_bool_decide; vm_compute; reflexivity. Qed.

Lemma sub_row o n i : cl_contains ⟪"sub-line"⟫ (classes_of (row_class o n i)) = bool_decide (i ≠ 0).
Proof. unfold row_class. destruct o; repeat case_bool_decide; vm_compute; done. Qed.

Lemma main_row o n i :
  cl_contains ⟪"main-line"⟫ (classes_of (row_class o n i)) = bool_decide (i = 0 ∧ n ≠ 1).
Proof. unfold row_class. destruct o; repeat case_bool_decide; vm_compute; naive_solver. Qed.

Lemma flip_subs_line o n k m post :
  (∀ r rs, post = r :: rs → cl_contains ⟪"sub-line"⟫ r = false) →
  flip_subs (map (λ i, classes_of (row_class o n i)) (seq (S k) m) ++ post) =
  map (λ i, classes_of (row_class (negb o) n i)) (seq (S k) m) ++ post.
Proof.
  intros Hpost. revert k; induction m as [|m IH]; intros k; cbn [seq map app].
  - destruct post as [|r rs]; [done|]. cbn [flip_subs]. by rewrite (Hpost r rs eq_refl).
  - cbn [flip_subs]. rewrite sub_row, bool_decide_true by lia. by rewrite flip_row, IH.
Qed.

Lemma table_rows_app l1 l2 : table_rows (l1 ++ l2) = table_rows l1 ++ table_rows l2.
Proof. unfold table_rows. by rewrite map_app, join_app. Qed.

Lemma getParent_cell i : getParent (cell i) ⟪"TR"⟫ = Some (Element ⟪"TR"⟫ (Some i)).
Proof. reflexivity. Qed.

Lemma table_rows_cons o n l : table_rows ((o, n) :: l) = line_rows o n ++ table_rows l.
Proof. reflexivity. Qed.

Lemma table_head_not_sub lines r rs :
  Forall (λ l, 0 < l.2) lines → table_rows lines = r :: rs →
  cl_contains ⟪"sub-line"⟫ r = false.
Proof.
  intros Hl. destruct Hl as [|[o [|n]] lines Hn _]; [done|simpl in Hn; lia|].
  unfold table_rows. simpl. intros [= <- _]. by rewrite sub_row.
Qed.

(** C14: A click on the first row of a line of several rows opens a closed
    line and closes an open one, and changes no other line: the table is
    the rendering of the same lines with that one's state flipped. *)
Theorem click_main_line lines k o n :
  Forall (λ l, 0 < l.2) lines → lines !! k = Some (o, n) → 1 < n →
  onClick (table_rows lines) (cell (length (table_rows (take k lines)))) =
    table_rows (<[k := (negb o, n)]> lines).
Proof.
  intros Hl Hk Hn.
  assert (k < length lines) as Hlt by (by apply lookup_lt_Some in Hk).
  rewrite insert_take_drop by done.
  set (pre := table_rows (take k lines)). set (post := table_rows (drop (S k) lines)).
  rewrite <-(take_drop_middle lines k (o, n)) at 1 by done.
  rewrite !table_rows_app, !table_rows_cons. fold pre post.
  assert (∀ r rs, post = r :: rs → cl_contains ⟪"sub-line"⟫ r = false) as Hpost.
  { intros r rs. apply table_head_not_sub.
    rewrite <-(take_drop (S k) lines) in Hl. by apply Forall_app in Hl as [_ ?]. }
  destruct n as [|m]; [lia|]. unfold line_rows. cbn [seq map app].
  unfold onClick. rewrite getParent_cell. cbn [el_row].
  rewrite list_lookup_middle by done. cbn [default id].
  rewrite main_row, bool_decide_true by lia.
  unfold toggle. rewrite drop_app_length, take_app_length.
  by rewrite flip_row, flip_subs_line.
Qed.

(** ** Witnesses *)

(** A closed one-row line, then an open line of three rows. *)
Definition sample_lines : list (bool * nat) := [(false, 1); (true, 3)].

Lemma click_main_line_witness :
  Forall (λ l, 0 < l.2) sample_lines ∧ sample_lines !! 1 = Some (true, 3) ∧ 1 < 3 ∧
  onClick (table_rows sample_lines) (cell (length (table_rows (take 1 sample_lines)))) =
    table_rows (<[1 := (negb true, 3)]> sample_lines).
Proof.
  assert (Forall (λ l, 0 < l.2) sample_lines) as H1 by (repeat constructor; simpl; lia).
  assert (sample_lines !! 1 = Some (true, 3)) as H2 by reflexivity.
  assert (1 < 3) as H3 by lia.
  split_and!; [exact H1|exact H2|exact H3|]. exact (click_main_line _ _ _ _ H1 H2 H3).
Defined.

End Dom.
