(* ===== verification/Search.v ===== *)
(** * Search: what a search shows, from the event to the rows

    The composition of the components: the [submit] handler of [App]
    compiles the input with [makeRE] ([Query]), filters, weighs, sorts and
    cuts the corpus with [formatResult] ([Rank], [Weight]) and writes the
    rows ([Format]) into the result area.  The theorems here state the
    outcome in terms of the glob meaning of the query ([Query.occurs]):
    with [start] off, the entries listed are exactly the corpus entries in
    which the query occurs, all of them when no "More results" is
    announced. *)

From S2P Require Import Prelude Regex Options Form Query Weight Format Rank App.
Import Regex Options Query Format Rank App.

Module Search.

(** ** The filter of [formatResult] is the glob meaning of the query *)

Lemma matches_occurs q o re entries e :
  opt_start o = false → makeRE q o = Ok (Some re) →
  e ∈ matches entries re ↔ e ∈ entries ∧ occurs q o e.
Proof.
  intros Hst Hre. unfold matches. rewrite list_elem_of_filter.
  rewrite Is_true_true. unfold contains, js_string. simpl.
  rewrite (compiled_test q o re Hst Hre). tauto.
Qed.

(** The rows a search lists: matches of the query, all of them unless
    more results are announced. *)
Lemma rankEntries_occurs q o re entries out more :
  opt_start o = false → makeRE q o = Ok (Some re) →
  rankEntries entries re o = Ok (out, more) →
  (∀ e, e ∈ out → e ∈ entries ∧ occurs q o e) ∧
  (more = false → ∀ e, e ∈ entries → occurs q o e → e ∈ out).
Proof.
  intros Hst Hre Hr. destruct (rankEntries_matches _ _ _ _ _ Hr) as [Hin Hall].
  split.
  - intros e He. rewrite <-(matches_occurs q o re entries e Hst Hre). by apply Hin.
  - intros Hm e He Ho. rewrite (Hall Hm). by apply (matches_occurs q o re entries e Hst Hre).
Qed.

(** ** The submitted search *)

(** C3: A submitted search with [start] off lists exactly the corpus entries
    in which the query occurs under its glob meaning: every entry in the
    result is a corpus entry containing a piece the query text accepts with
    its anchors holding, every such entry is listed when no "More results"
    is announced, and the result area receives the rendered table with the
    page scrolled to the top. *)
Theorem submit_shows_occurrences st entries re out more :
  let o := with_min (getOptions st) (num_of_nat 1) in
  st_entries st = Some entries → opt_start (getOptions st) = false →
  makeRE (st_input st) o = Ok (Some re) → rankEntries entries re o = Ok (out, more) →
  (∀ e, e ∈ out → e ∈ entries ∧ occurs (st_input st) o e) ∧
  (more = false → ∀ e, e ∈ entries → occurs (st_input st) o e → e ∈ out) ∧
  (∀ html, formatResult entries re o = Ok html →
     st_result (step st Submit) = html ∧ st_scroll (step st Submit) = 0).
Proof.
  intros o He Hst Hre Hr. split; [|split].
  1,2: by apply (rankEntries_occurs (st_input st) o re entries out more Hst Hre Hr).
  intros html Hf. simpl. rewrite He. unfold show, showResults. simpl. fold o. by rewrite Hre, Hf.
Qed.

(** ** The live search and the submitted search *)

(** C4: The live search lists everything the submitted search lists: for the
    same query and options with [start] off, every entry the submit handler
    ([min = 1]) shows is shown by the search the input handler schedules
    ([end] switched off), unless that search rejects the query or announces
    more results. *)
Theorem live_lists_submitted st entries q re_s re_l out_s more_s out_l :
  let o_s := with_min (getOptions st) (num_of_nat 1) in
  let o_l := with_end (getOptions st) false in
  opt_start (getOptions st) = false →
  makeRE q o_s = Ok (Some re_s) → rankEntries entries re_s o_s = Ok (out_s, more_s) →
  makeRE q o_l = Ok (Some re_l) → rankEntries entries re_l o_l = Ok (out_l, false) →
  ∀ e, e ∈ out_s → e ∈ out_l.
Proof.
  intros o_s o_l Hst Hs Hrs Hl Hrl e He.
  destruct (rankEntries_occurs q o_s re_s entries out_s more_s Hst Hs Hrs) as [Hin _].
  destruct (Hin e He) as [Hc Ho].
  apply (rankEntries_occurs q o_l re_l entries out_l false Hst Hl Hrl); [done|done|].
  by apply (occurs_end_off q o_s).
Qed.

(** ** Witnesses *)

(** The session of [App.live_and_submit], ready for the submit. *)
Definition haus_state : state := run (init empty_store) [Loaded sample_file; Input ⟪"haus"⟫].

Definition haus_submit_re : jsregexp :=
  match makeRE ⟪"haus"⟫ (with_min (getOptions haus_state) (num_of_nat 1)) with
  | Ok (Some re) => re
  | _ => JSRegExp REps false false
  end.

Lemma submit_shows_occurrences_witness :
  let o := with_min (getOptions haus_state) (num_of_nat 1) in
  st_entries haus_state = Some (getEntries sample_file) ∧
  opt_start (getOptions haus_state) = false ∧
  makeRE (st_input haus_state) o = Ok (Some haus_submit_re) ∧
  rankEntries (getEntries sample_file) haus_submit_re o = Ok ([⟪"Haus :: house"⟫], false) ∧
  (∀ e, e ∈ getEntries sample_file → occurs (st_input haus_state) o e →
     e ∈ [⟪"Haus :: house"⟫]).
Proof.
  intros o.
  assert (st_entries haus_state = Some (getEntries sample_file)) as H1 by (vm_compute; reflexivity).
  assert (opt_start (getOptions haus_state) = false) as H2 by (vm_compute; reflexivity).
  assert (makeRE (st_input haus_state) o = Ok (Some haus_submit_re)) as H3
    by (vm_compute; reflexivity).
  assert (rankEntries (getEntries sample_file) haus_submit_re o = Ok ([⟪"Haus :: house"⟫], false))
    as H4 by (vm_compute; reflexivity).
  split_and!; [exact H1|exact H2|exact H3|exact H4|].
  exact (proj1 (proj2 (submit_shows_occurrences haus_state _ _ _ _ H1 H2 H3 H4)) eq_refl).
Defined.

Definition haus_live_re : jsregexp :=
  match makeRE ⟪"haus"⟫ (with_end (getOptions haus_state) false) with
  | Ok (Some re) => re
  | _ => JSRegExp REps false false
  end.

Lemma live_lists_submitted_witness :
  let o_s := with_min (getOptions haus_state) (num_of_nat 1) in
  let o_l := with_end (getOptions haus_state) false in
  opt_start (getOptions haus_state) = false ∧
  makeRE ⟪"haus"⟫ o_s = Ok (Some haus_submit_re) ∧
  rankEntries (getEntries sample_file) haus_submit_re o_s = Ok ([⟪"Haus :: house"⟫], false) ∧
  makeRE ⟪"haus"⟫ o_l = Ok (Some haus_live_re) ∧
  rankEntries (getEntries sample_file) haus_live_re o_l =
    Ok ([⟪"Haus :: house"⟫; ⟪"Hausboot :: houseboat"⟫], false) ∧
  ⟪"Haus :: house"⟫ ∈ [⟪"Haus :: house"⟫; ⟪"Hausboot :: houseboat"⟫].
Proof.
  intros o_s o_l.
  assert (opt_start (getOptions haus_state) = false) as H1 by (vm_compute; reflexivity).
  assert (makeRE ⟪"haus"⟫ o_s = Ok (Some haus_submit_re)) as H2 by (vm_compute; reflexivity).
  assert (rankEntries (getEntries sample_file) haus_submit_re o_s = Ok ([⟪"Haus :: house"⟫], false))
    as H3 by (vm_compute; reflexivity).
  assert (makeRE ⟪"haus"⟫ o_l = Ok (Some haus_live_re)) as H4 by (vm_compute; reflexivity).
  assert (rankEntries (getEntries sample_file) haus_live_re o_l =
            Ok ([⟪"Haus :: house"⟫; ⟪"Hausboot :: houseboat"⟫], false)) as H5
    by (vm_compute; reflexivity).
  split_and!; [exact H1|exact H2|exact H3|exact H4|exact H5|].
  apply (live_lists_submitted haus_state _ _ _ _ _ _ _ H1 H2 H3 H4 H5). by left.
Defined.

End Search.
